(** * quay-scanner: the image-reference parser, the Quay API client, the
    per-image task and the worker pool, embedded from the Go sources

    - [cmd/quay-scanner/main.go]: [parseImageURL], [processImage], [worker],
      [runWorkerPool];
    - [internal/quay/client.go]: [doRequest], [GetImageID],
      [GetVulnerabilities], and the wire types next to it.

    Further on come [parseFlagsAndConfig] and [outputResults] of
    [main.go], [NewClient], [internal/config/config.go] and
    [internal/formatter/formatter.go].  The repository holds the client in
    two revisions: the first part embeds the one that its caller
    configures, module [V1] the one of [internal/quay/client.go] as
    checked in, with built-in settings.

    Go strings are byte strings: they are modelled by [string] (a list of
    8-bit characters).  A Go [error] is modelled by [option string]: [None]
    is [nil] and [Some msg] is an error whose [Error()] text is [msg]. *)

From Stdlib Require Import Ascii String.
From stdpp Require Import gmap strings list.
From stdpp Require Import sorting.

Set Warnings "-register-all,-clear-no-such-hyp".

(** ** The functions of Go's [strings] package used by the program *)

Module GoStrings.

(** [strings.HasPrefix(s, prefix)] *)
Fixpoint HasPrefix (s prefix : string) {struct prefix} : bool :=
  match prefix, s with
  | EmptyString, _ => true
  | String _ _, EmptyString => false
  | String p prefix', String c s' =>
      if Ascii.eqb c p then HasPrefix s' prefix' else false
  end.

(** the bytes of [s] after its first [n] bytes: the slice [s[n:]] *)
Fixpoint sliceFrom (n : nat) (s : string) : string :=
  match n, s with
  | O, _ => s
  | S _, EmptyString => EmptyString
  | S n', String _ s' => sliceFrom n' s'
  end.

(** the first [n] bytes of [s]: the slice [s[:n]] (all of [s] when it is
    shorter) *)
Fixpoint sliceTo (n : nat) (s : string) : string :=
  match n, s with
  | O, _ => EmptyString
  | S _, EmptyString => EmptyString
  | S n', String c s' => String c (sliceTo n' s')
  end.

(** [strings.TrimPrefix(s, prefix)] *)
Definition TrimPrefix (s prefix : string) : string :=
  if HasPrefix s prefix then sliceFrom (String.length prefix) s else s.

(** [strings.Contains(s, substr)] *)
Fixpoint Contains (s substr : string) : bool :=
  HasPrefix s substr ||
  match s with
  | EmptyString => false
  | String _ s' => Contains s' substr
  end.

(** [strings.Cut(s, sep)]: the text before and after the first instance of
    [sep], if there is one.  [SplitN] with a count of two is this cut. *)
Fixpoint Cut (s sep : string) : option (string * string) :=
  if HasPrefix s sep then Some (EmptyString, sliceFrom (String.length sep) s)
  else
    match s with
    | EmptyString => None
    | String c s' =>
        match Cut s' sep with
        | Some (before, after) => Some (String c before, after)
        | None => None
        end
    end.

(** [strings.SplitN(s, sep, 2)] for a non-empty separator (the program
    only splits on [":"]): at most two substrings, the second one being
    the unsplit remainder. *)
Definition SplitN2 (s sep : string) : list string :=
  match Cut s sep with
  | Some (before, after) => [before; after]
  | None => [s]
  end.

(** [s == ""] *)
Definition isEmpty (s : string) : bool :=
  match s with EmptyString => true | String _ _ => false end.

(** [substr] occurs somewhere in [s] *)
Definition occurs (substr s : string) : Prop :=
  ∃ l r, s = l +:+ substr +:+ r.

End GoStrings.
Export GoStrings.

(** ** cmd/quay-scanner/main.go: [parseImageURL] *)

Definition errBadPrefix : string := "image URL must start with 'quay.io/'".

Definition errBadFormat (imageURL : string) : string :=
  "invalid image URL format. Expected 'quay.io/repository/name:tag', got '"
    +:+ imageURL +:+ "'".

Definition errInvalidChars : string :=
  "invalid characters in repository or tag".

(** [parts[i]] for an index the guard has shown to be in range *)
Definition part (parts : list string) (i : nat) : string :=
  default EmptyString (parts !! i).

(** The function has the named results [(repo, tag, err)]; a bare [return]
    hands back whatever they hold at that point. *)
Definition parseImageURL (imageURL : string) : string * string * option string :=
  if negb (HasPrefix imageURL "quay.io/") then
    (EmptyString, EmptyString, Some errBadPrefix)
  else
    let trimmedURL := TrimPrefix imageURL "quay.io/" in
    let parts := SplitN2 trimmedURL ":" in
    if negb (length parts =? 2) || isEmpty (part parts 0) || isEmpty (part parts 1)
    then (EmptyString, EmptyString, Some (errBadFormat imageURL))
    else
      let repo := part parts 0 in
      let tag := part parts 1 in
      if Contains repo ".." || Contains tag ".." || Contains tag "/"
      then (repo, tag, Some errInvalidChars)
      else (repo, tag, None).

(** ** internal/quay: the wire types *)

(** A value decoded by [encoding/json] into an [interface{}]; a number is
    kept as the text of its literal. *)
Inductive JSONValue : Type :=
  | JNull
  | JBool (b : bool)
  | JNumber (literal : string)
  | JString (s : string)
  | JArray (items : list JSONValue)
  | JObject (fields : list (string * JSONValue)).

Record TagDetail := mkTagDetail {
  td_Name : string;
  ManifestDigest : string;       (* json: manifest_digest *)
  ImageID : string;              (* json: docker_image_id *)
  td_LastModified : string;
  td_Size : Z;
  IsManifestList : bool;
  StartTs : Z;
  Expiration : option Z;
  Reversion : bool
}.

(** [Feature] and [Vulnerability] refer to each other ([FixedIn]). *)
Inductive Feature : Type :=
  mkFeature (Name Version VersionFormat NamespaceName AddedBy : string)
            (Vulnerabilities : list Vulnerability)
with Vulnerability : Type :=
  mkVulnerability (Name NamespaceName Description Link Severity : string)
                  (Metadata : list (string * JSONValue))
                  (FixedBy : string)
                  (FixedIn : list Feature).

Record Layer := mkLayer {
  l_Name : string;
  l_NamespaceName : string;
  IndexedByVersion : Z;
  Features : list Feature
}.

Record SecurityData := mkSecurityData { SLayer : Layer }.

Record SecurityReport := mkSecurityReport {
  Status : string;
  Data : SecurityData
}.

(** The outcome of scanning one image.  [Report] is a pointer in the
    source: [None] is [nil]. *)
Record ImageScanResult := mkImageScanResult {
  ImageURL : string;
  Report : option SecurityReport;
  Error : string
}.

(** ** The HTTP exchange seen from the client *)

Record Request := mkRequest {
  Method : string;
  URL : string;
  Header : list (string * string)
}.

(** What [net/http] hands back for a completed exchange.  [resp.Status] is
    the status code in three digits followed by the reason text, as the
    transport builds it from the status line; [FirstRead] is the number of
    bytes the first [Read] of the body delivers. *)
Record Response := mkResponse {
  StatusCode : nat;
  Reason : string;
  Body : string;
  FirstRead : nat
}.

Definition digit (n : nat) : ascii := ascii_of_nat (48 + n `mod` 10).

Definition statusDigits (code : nat) : string :=
  String (digit (code `div` 100))
    (String (digit (code `div` 10)) (String (digit code) EmptyString)).

Definition respStatus (r : Response) : string :=
  statusDigits (StatusCode r) +:+ Reason r.

Definition StatusOK : nat := 200.

(** The remote side together with the transport: what [HTTPClient.Do]
    returns for a request, either a transport error (timeout, refused
    connection, ...) with its text, or a response. *)
Definition Remote : Type := Request → string + Response.

(** What a call leaves behind: the requests put on the wire and the lines
    handed to the [log] package. *)
Inductive Event : Type :=
  | Sent (req : Request)
  | Logged (line : string).

(** Code that talks to the remote: it reads the remote's answers and
    yields the events it caused, in order, with its result. *)
Definition Net (A : Type) : Type := Remote → list Event * A.

Definition net_ret {A} (a : A) : Net A := λ _, ([], a).

Definition net_bind {A B} (m : Net A) (k : A → Net B) : Net B :=
  λ remote,
    let '(t1, a) := m remote in
    let '(t2, b) := k a remote in
    (t1 ++ t2, b).

Definition Do (req : Request) : Net (string + Response) :=
  λ remote, ([Sent req], remote req).

Definition logPrintf (line : string) : Net unit :=
  λ _, ([Logged line], tt).

#[global] Instance Net_ret : MRet Net := @net_ret.
#[global] Instance Net_bind : MBind Net := λ A B k m, net_bind m k.

(** the requests among the events of a trace *)
Definition sent (t : list Event) : list Request :=
  omap (λ e, match e with Sent r => Some r | Logged _ => None end) t.

(** ** Library functions the client calls

    Their code is not part of the repository; the client is embedded over
    any implementation of them. *)
Record GoLib := mkGoLib {
  URLValue : Type;                                    (* [*url.URL] *)
  url_Parse : string → string + URLValue;             (* [inl]: the error text *)
  url_ResolveReference : URLValue → URLValue → URLValue;
  url_String : URLValue → string;
  url_PathEscape : string → string;
  http_NewRequest : string → string → option string;  (* the error, if any *)
  fmt_q : string → string;                            (* the verb [%q] *)
  json_DecodeTagDetail : string → string + TagDetail;
  json_DecodeSecurityReport : string → string + SecurityReport
}.

(** ** internal/quay/client.go *)

Section Client.

Context (lib : GoLib).

Record Client := mkClient {
  BaseURL : URLValue lib;
  Token : string;
  UserAgent : string
}.

(** [doRequest] fills [target] through a pointer and returns an [error];
    here it returns the error text or the decoded target.  Both callers
    pass a non-nil [target], whose decoder is [decode]. *)
Definition doRequest {T : Type} (decode : string → string + T)
    (c : Client) (method path : string) : Net (string + T) :=
  match url_Parse lib path with
  | inl err =>
      net_ret (inl ("invalid API path " +:+ fmt_q lib path +:+ ": " +:+ err))
  | inr relURL =>
      let fullURL := url_ResolveReference lib (BaseURL c) relURL in
      match http_NewRequest lib method (url_String lib fullURL) with
      | Some err =>
          net_ret (inl ("failed to create request for "
                          +:+ url_String lib fullURL +:+ ": " +:+ err))
      | None =>
          let header := [("User-Agent", UserAgent c)] in
          let header :=
            if negb (isEmpty (Token c))
            then header ++ [("Authorization", "Bearer " +:+ Token c)]
            else header in
          let req := mkRequest method (url_String lib fullURL) header in
          (outcome ← Do req;
           match outcome with
           | inl err =>
               net_ret (inl ("failed to execute request to "
                               +:+ url_String lib fullURL +:+ ": " +:+ err))
           | inr resp =>
               if negb (StatusCode resp =? StatusOK) then
                 let n := FirstRead resp `min` 512 in
                 let errorBody := sliceTo n (Body resp) in
                 net_ret (inl ("API request to " +:+ url_String lib fullURL
                                 +:+ " failed with status " +:+ respStatus resp
                                 +:+ ". Body snippet: " +:+ errorBody))
               else
                 match decode (Body resp) with
                 | inl err =>
                     net_ret (inl ("failed to decode JSON response from "
                                     +:+ url_String lib fullURL +:+ ": " +:+ err))
                 | inr v => net_ret (inr v)
                 end
           end)
      end
  end.

Definition errTagNotFound (repo tag : string) : string :=
  "tag '" +:+ tag +:+ "' not found in repository '" +:+ repo
    +:+ "' (or repository is private/inaccessible)".

Definition errTagDetails (repo tag err : string) : string :=
  "failed to get tag details for " +:+ repo +:+ ":" +:+ tag +:+ ": " +:+ err.

Definition errNoDigest (tag : string) : string :=
  "could not determine image digest for tag '" +:+ tag
    +:+ "' (no manifest_digest or docker_image_id found)".

(** [GetImageID] fetches the image digest for a repository and tag. *)
Definition GetImageID (c : Client) (repo tag : string)
    : Net (string * option string) :=
  let path := "repository/" +:+ repo +:+ "/tag/" +:+ url_PathEscape lib tag in
  (res ← doRequest (json_DecodeTagDetail lib) c "GET" path;
   match res with
   | inl err =>
       if Contains err "status 404"
       then net_ret (EmptyString, Some (errTagNotFound repo tag))
       else net_ret (EmptyString, Some (errTagDetails repo tag err))
   | inr tagDetail =>
       if negb (isEmpty (ManifestDigest tagDetail)) then
         net_ret (TrimPrefix (ManifestDigest tagDetail) "sha256:", None)
       else if negb (isEmpty (ImageID tagDetail)) then
         net_ret (TrimPrefix (ImageID tagDetail) "sha256:", None)
       else net_ret (EmptyString, Some (errNoDigest tag))
   end).

Definition errReportNotFound (repo imageDigest : string) : string :=
  "security information not found for image digest '" +:+ imageDigest
    +:+ "' in repository '" +:+ repo
    +:+ "' (image may not exist or scan data unavailable)".

Definition errSecurityInfo (imageDigest err : string) : string :=
  "failed to get security info for image " +:+ imageDigest +:+ ": " +:+ err.

Definition warnNotScanned (repo imageDigest status : string) : string :=
  "WARN: Scan status for " +:+ repo +:+ "/" +:+ imageDigest +:+ " is '"
    +:+ status
    +:+ "'. Vulnerability data may be incomplete or unavailable.".

(** [GetVulnerabilities] fetches the security report for a repository and
    image digest. *)
Definition GetVulnerabilities (c : Client) (repo imageDigest : string)
    : Net (option SecurityReport * option string) :=
  let path := "repository/" +:+ repo +:+ "/image/" +:+ imageDigest
                +:+ "/security?vulnerabilities=true" in
  (res ← doRequest (json_DecodeSecurityReport lib) c "GET" path;
   match res with
   | inl err =>
       if Contains err "status 404"
       then net_ret (None, Some (errReportNotFound repo imageDigest))
       else net_ret (None, Some (errSecurityInfo imageDigest err))
   | inr report =>
       (_ ← (if negb (String.eqb (Status report) "scanned")
              then logPrintf (warnNotScanned repo imageDigest (Status report))
              else net_ret tt);
        net_ret (Some report, None))
   end).

(** ** cmd/quay-scanner/main.go: [processImage] *)

Definition withError (r : ImageScanResult) (e : string) : ImageScanResult :=
  mkImageScanResult (ImageURL r) (Report r) e.

Definition withReport (r : ImageScanResult) (rep : option SecurityReport)
    : ImageScanResult :=
  mkImageScanResult (ImageURL r) rep (Error r).

(** [processImage] handles the scan of a single image. *)
Definition processImage (imageURL : string) (quayClient : Client)
    : Net ImageScanResult :=
  let result := mkImageScanResult imageURL None EmptyString in
  let '(repo, tag, err) := parseImageURL imageURL in
  match err with
  | Some e => net_ret (withError result ("Parsing URL failed: " +:+ e))
  | None =>
      ('(imageID, err) ← GetImageID quayClient repo tag;
       match err with
       | Some e =>
           net_ret (withError result ("Getting image ID failed: " +:+ e))
       | None =>
           if isEmpty imageID then
             net_ret (withError result
                        ("Could not find image ID for tag '" +:+ tag
                           +:+ "' (tag might not exist)"))
           else
             ('(report, err) ← GetVulnerabilities quayClient repo imageID;
              match err with
              | Some e =>
                  let result :=
                    withError result ("Getting vulnerabilities failed: " +:+ e) in
                  match report with
                  | Some _ => net_ret (withReport result report)
                  | None => net_ret result
                  end
              | None => net_ret (withReport result report)
              end)
       end)
  end.

End Client.

Arguments mkClient {lib}.
Arguments BaseURL {lib}.
Arguments Token {lib}.
Arguments UserAgent {lib}.

(** ** cmd/quay-scanner/main.go: [worker] and [runWorkerPool]

    The pool is a set of goroutines that meet on two buffered channels.
    It is embedded as a transition system: a state holds the channels, the
    place each goroutine has reached and the map under construction, and
    [step] lets one goroutine take its next step, if it is not blocked.  A
    run of the pool is a schedule, the list of the goroutines that moved.
    The lines the pool writes to the log are left out. *)

(** Go's [int] on the 64-bit targets the program is built for *)
Definition intMax : Z := 2 ^ 63 - 1.

Definition wrapInt (z : Z) : Z := ((z + 2 ^ 63) `mod` 2 ^ 64 - 2 ^ 63)%Z.

(** A reference on the [jobs] channel, with its position in the batch.  The
    channel of the source carries the string alone; the position tells
    which answers the remote gives while this job is processed, so that a
    remote may answer two submissions of one reference differently. *)
Definition Job : Type := nat * string.

Definition jobsOf (imageURLs : list string) : list Job :=
  zip (seq 0 (length imageURLs)) imageURLs.

(** where the calling goroutine stands in [runWorkerPool] *)
Inductive MainPC : Type :=
  | StartWorkers (w : Z)        (* [for w := 1; w <= numWorkers; w++] *)
  | SendJobs (rest : list Job)  (* [for _, url := range imageURLs] *)
  | StartCollector              (* [jobs] is closed *)
  | WaitWorkers                 (* [wg.Wait()] *)
  | WaitCollector               (* [collectWg.Wait()] *)
  | Returned.

(** where a [worker] goroutine stands *)
Inductive WorkerState : Type :=
  | Receiving                   (* at [range jobs] *)
  | Processing (j : Job)        (* runs [processImage], then sends *)
  | Exited.                     (* [wg.Done()] has run *)

(** where the collecting goroutine stands *)
Inductive CollectorState : Type :=
  | NotStarted
  | Collecting (i : nat)        (* [for i := 0; i < numJobs; i++] *)
  | Finished.                   (* [collectWg.Done()] has run *)

Record Pool := mkPool {
  pc : MainPC;
  jobs : list Job;                          (* buffered, capacity [numJobs] *)
  jobsClosed : bool;
  workers : list WorkerState;
  results : list ImageScanResult;           (* buffered, capacity [numJobs] *)
  collector : CollectorState;
  allResults : gmap string ImageScanResult
}.

Inductive Goroutine : Type :=
  | Main
  | Worker (k : nat)
  | Collector.

Definition isExited (w : WorkerState) : bool :=
  match w with Exited => true | _ => false end.

Section Pool.

Context (lib : GoLib) (quayClient : Client lib).

(** the remote as the job at each position of the batch meets it *)
Variable remotes : nat → Remote.

Variable imageURLs : list string.
Variable numWorkers : Z.

Definition numJobs : nat := length imageURLs.

(** the result [worker] sends for a job *)
Definition runTask (j : Job) : ImageScanResult :=
  (processImage lib j.2 quayClient (remotes j.1)).2.

Definition start : Pool :=
  mkPool (StartWorkers 1) [] false [] [] NotStarted ∅.

Definition stepMain (s : Pool) : option Pool :=
  match pc s with
  | StartWorkers w =>
      if (w <=? numWorkers)%Z then
        Some (mkPool (StartWorkers (wrapInt (w + 1))) (jobs s) (jobsClosed s)
                (workers s ++ [Receiving]) (results s) (collector s)
                (allResults s))
      else
        Some (mkPool (SendJobs (jobsOf imageURLs)) (jobs s) (jobsClosed s)
                (workers s) (results s) (collector s) (allResults s))
  | SendJobs (j :: rest) =>
      if decide (length (jobs s) < numJobs) then
        Some (mkPool (SendJobs rest) (jobs s ++ [j]) (jobsClosed s)
                (workers s) (results s) (collector s) (allResults s))
      else None
  | SendJobs [] =>
      Some (mkPool StartCollector (jobs s) true
              (workers s) (results s) (collector s) (allResults s))
  | StartCollector =>
      Some (mkPool WaitWorkers (jobs s) (jobsClosed s)
              (workers s) (results s) (Collecting 0) (allResults s))
  | WaitWorkers =>
      if forallb isExited (workers s) then
        Some (mkPool WaitCollector (jobs s) (jobsClosed s)
                (workers s) (results s) (collector s) (allResults s))
      else None
  | WaitCollector =>
      match collector s with
      | Finished =>
          Some (mkPool Returned (jobs s) (jobsClosed s)
                  (workers s) (results s) (collector s) (allResults s))
      | _ => None
      end
  | Returned => None
  end.

Definition stepWorker (k : nat) (s : Pool) : option Pool :=
  match workers s !! k with
  | Some Receiving =>
      match jobs s with
      | j :: queue =>
          Some (mkPool (pc s) queue (jobsClosed s)
                  (<[k := Processing j]> (workers s)) (results s)
                  (collector s) (allResults s))
      | [] =>
          if jobsClosed s then
            Some (mkPool (pc s) (jobs s) (jobsClosed s)
                    (<[k := Exited]> (workers s)) (results s)
                    (collector s) (allResults s))
          else None
      end
  | Some (Processing j) =>
      if decide (length (results s) < numJobs) then
        Some (mkPool (pc s) (jobs s) (jobsClosed s)
                (<[k := Receiving]> (workers s)) (results s ++ [runTask j])
                (collector s) (allResults s))
      else None
  | Some Exited | None => None
  end.

Definition stepCollector (s : Pool) : option Pool :=
  match collector s with
  | Collecting i =>
      if decide (i < numJobs) then
        match results s with
        | result :: queue =>
            Some (mkPool (pc s) (jobs s) (jobsClosed s) (workers s) queue
                    (Collecting (S i))
                    (<[ImageURL result := result]> (allResults s)))
        | [] => None
        end
      else
        Some (mkPool (pc s) (jobs s) (jobsClosed s) (workers s) (results s)
                Finished (allResults s))
  | NotStarted | Finished => None
  end.

(** one step of one goroutine; [None] when it is blocked or has ended *)
Definition step (g : Goroutine) (s : Pool) : option Pool :=
  match g with
  | Main => stepMain s
  | Worker k => stepWorker k s
  | Collector => stepCollector s
  end.

(** the state a schedule leads to, if every goroutine in it could move
    when its turn came *)
Fixpoint exec (schedule : list Goroutine) (s : Pool) : option Pool :=
  match schedule with
  | [] => Some s
  | g :: schedule' =>
      match step g s with
      | Some s' => exec schedule' s'
      | None => None
      end
  end.

(** [runWorkerPool] returns the map [m] under some schedule *)
Definition returns (m : gmap string ImageScanResult) : Prop :=
  ∃ schedule s,
    exec schedule start = Some s ∧ pc s = Returned ∧ allResults s = m.

(** the map a single goroutine would build by processing the batch in the
    order submitted, a later entry replacing an earlier one of the same
    key *)
Definition insertResult (m : gmap string ImageScanResult)
    (r : ImageScanResult) : gmap string ImageScanResult :=
  <[ImageURL r := r]> m.


End Pool.

(** * The earlier client, the command line, the configuration and the output *)

(** [strings.HasSuffix(s, suffix)] *)
Definition HasSuffix (s suffix : string) : bool :=
  (String.length suffix <=? String.length s)
  && String.eqb (sliceFrom (String.length s - String.length suffix) s) suffix.

(** [time.Second], in the nanoseconds a [time.Duration] counts *)
Definition Second : Z := 1000000000.

(** The field [Path] of a [url.URL], read and assigned. *)
Record URLPathLib (lib : GoLib) := mkURLPathLib {
  url_Path : URLValue lib → string;
  url_SetPath : URLValue lib → string → URLValue lib
}.

Arguments url_Path {lib}.
Arguments url_SetPath {lib}.

(** ** internal/quay/client.go with built-in settings

    The repository holds the client in two revisions.  The one embedded
    above takes its base URL, timeout and user agent from its caller and
    tells a 404 apart from other failures.  The file
    [internal/quay/client.go] holds the revision before that: the settings
    are constants of the package, and a failed lookup is reported the same
    way whatever the status.  It is the client that [main] of
    [cmd/quay-scanner/main.go] creates, with an empty base URL and the
    token of the configuration. *)
Module V1.

Definition defaultAPIBaseURL : string := "https://quay.io/api/v1/".
Definition defaultTimeout : Z := 15 * Second.
Definition userAgent : string := "golang-quay-vuln-scanner/1.0".

Section Client.

Context (lib : GoLib) (paths : URLPathLib lib).

(** [Timeout] is the timeout of the [HTTPClient] the client holds. *)
Record Client := mkClient {
  BaseURL : URLValue lib;
  Timeout : Z;
  Token : string
}.

(** [NewClient] creates a new Quay API client. *)
Definition NewClient (baseURL token : string) : string + Client :=
  let baseURL := if isEmpty baseURL then defaultAPIBaseURL else baseURL in
  match url_Parse lib baseURL with
  | inl err => inl ("invalid base URL: " +:+ err)
  | inr parsedBaseURL =>
      let parsedBaseURL :=
        if negb (HasSuffix (url_Path paths parsedBaseURL) "/")
        then url_SetPath paths parsedBaseURL
               (url_Path paths parsedBaseURL +:+ "/")
        else parsedBaseURL in
      inr (mkClient parsedBaseURL defaultTimeout token)
  end.

Definition doRequest {T : Type} (decode : string → string + T)
    (c : Client) (method path : string) : Net (string + T) :=
  match url_Parse lib path with
  | inl err =>
      net_ret (inl ("invalid API path " +:+ fmt_q lib path +:+ ": " +:+ err))
  | inr relURL =>
      let fullURL := url_ResolveReference lib (BaseURL c) relURL in
      match http_NewRequest lib method (url_String lib fullURL) with
      | Some err =>
          net_ret (inl ("failed to create request for "
                          +:+ url_String lib fullURL +:+ ": " +:+ err))
      | None =>
          let header := [("User-Agent", userAgent)] in
          let header :=
            if negb (isEmpty (Token c))
            then header ++ [("Authorization", "Bearer " +:+ Token c)]
            else header in
          let req := mkRequest method (url_String lib fullURL) header in
          (outcome ← Do req;
           match outcome with
           | inl err =>
               net_ret (inl ("failed to execute request for "
                               +:+ url_String lib fullURL +:+ ": " +:+ err))
           | inr resp =>
               if negb (StatusCode resp =? StatusOK) then
                 let n := FirstRead resp `min` 512 in
                 let errorBody := sliceTo n (Body resp) in
                 net_ret (inl ("API request to " +:+ url_String lib fullURL
                                 +:+ " failed with status " +:+ respStatus resp
                                 +:+ ". Body snippet: " +:+ errorBody))
               else
                 match decode (Body resp) with
                 | inl err =>
                     net_ret (inl ("failed to decode JSON response from "
                                     +:+ url_String lib fullURL +:+ ": " +:+ err))
                 | inr v => net_ret (inr v)
                 end
           end)
      end
  end.

Definition errNoDigest (tag : string) : string :=
  "could not determine image digest for tag '" +:+ tag +:+ "'".

Definition GetImageID (c : Client) (repo tag : string)
    : Net (string * option string) :=
  let path := "repository/" +:+ repo +:+ "/tag/" +:+ url_PathEscape lib tag in
  (res ← doRequest (json_DecodeTagDetail lib) c "GET" path;
   match res with
   | inl err => net_ret (EmptyString, Some (errTagDetails repo tag err))
   | inr tagDetail =>
       if negb (isEmpty (ManifestDigest tagDetail)) then
         net_ret (TrimPrefix (ManifestDigest tagDetail) "sha256:", None)
       else if negb (isEmpty (ImageID tagDetail)) then
         net_ret (TrimPrefix (ImageID tagDetail) "sha256:", None)
       else net_ret (EmptyString, Some (errNoDigest tag))
   end).

Definition GetVulnerabilities (c : Client) (repo imageDigest : string)
    : Net (option SecurityReport * option string) :=
  let path := "repository/" +:+ repo +:+ "/image/" +:+ imageDigest
                +:+ "/security?vulnerabilities=true" in
  (res ← doRequest (json_DecodeSecurityReport lib) c "GET" path;
   match res with
   | inl err => net_ret (None, Some (errSecurityInfo imageDigest err))
   | inr report =>
       (_ ← (if negb (String.eqb (Status report) "scanned")
              then logPrintf (warnNotScanned repo imageDigest (Status report))
              else net_ret tt);
        net_ret (Some report, None))
   end).

(** [processImage] of [cmd/quay-scanner/main.go], over this client *)
Definition processImage (imageURL : string) (quayClient : Client)
    : Net ImageScanResult :=
  let result := mkImageScanResult imageURL None EmptyString in
  let '(repo, tag, err) := parseImageURL imageURL in
  match err with
  | Some e => net_ret (withError result ("Parsing URL failed: " +:+ e))
  | None =>
      ('(imageID, err) ← GetImageID quayClient repo tag;
       match err with
       | Some e =>
           net_ret (withError result ("Getting image ID failed: " +:+ e))
       | None =>
           if isEmpty imageID then
             net_ret (withError result
                        ("Could not find image ID for tag '" +:+ tag
                           +:+ "' (tag might not exist)"))
           else
             ('(report, err) ← GetVulnerabilities quayClient repo imageID;
              match err with
              | Some e =>
                  let result :=
                    withError result ("Getting vulnerabilities failed: " +:+ e) in
                  match report with
                  | Some _ => net_ret (withReport result report)
                  | None => net_ret result
                  end
              | None => net_ret (withReport result report)
              end)
       end)
  end.

End Client.

Arguments mkClient {lib}.
Arguments BaseURL {lib}.
Arguments Timeout {lib}.
Arguments Token {lib}.

End V1.

(** ** cmd/quay-scanner/main.go: [parseFlagsAndConfig] *)

Module Cli.

(** [Config] holds the application configuration derived from flags and
    environment. *)
Record Config := mkConfig {
  ImageURL : string;
  InputFile : string;
  OutputFormat : string;
  Verbose : bool;
  Token : string;
  NumWorkers : Z
}.

Definition errNoInput : string := "either -image or -file flag is required".

Definition errTwoInputs : string :=
  "-image and -file flags are mutually exclusive".

Definition errFormat (format : string) : string :=
  "invalid -format value '" +:+ format +:+ "'. Must be 'json' or 'human'".

Definition errWorkers : string := "-workers must be a positive number".

(** [parseFlagsAndConfig], from the point where [flag.Parse] has filled
    [cfg] from the command line: [cfg] is the configuration as parsed and
    [getenv] is [os.Getenv]. *)
Definition parseFlagsAndConfig (cfg : Config) (getenv : string → string)
    : Config * option string :=
  if isEmpty (ImageURL cfg) && isEmpty (InputFile cfg) then
    (cfg, Some errNoInput)
  else if negb (isEmpty (ImageURL cfg)) && negb (isEmpty (InputFile cfg)) then
    (cfg, Some errTwoInputs)
  else if negb (String.eqb (OutputFormat cfg) "json")
          && negb (String.eqb (OutputFormat cfg) "human") then
    (cfg, Some (errFormat (OutputFormat cfg)))
  else if (NumWorkers cfg <=? 0)%Z then
    (cfg, Some errWorkers)
  else
    let cfg :=
      if isEmpty (Token cfg)
      then mkConfig (ImageURL cfg) (InputFile cfg) (OutputFormat cfg)
             (Verbose cfg) (getenv "QUAY_TOKEN") (NumWorkers cfg)
      else cfg in
    (cfg, None).

End Cli.

(** the line feed that ends a line written with [Fprintf] or [Fprintln] *)
Definition nl : string := String (ascii_of_nat 10) EmptyString.

(** ** internal/config/config.go *)

(** What the configuration loader needs of the operating system and of
    the YAML library. *)
Record FileError := mkFileError {
  IsNotExist : bool;                   (* [os.IsNotExist(err)] *)
  fe_Error : string                    (* [err.Error()] *)
}.

Module Config.

(** [QuayConfig] holds settings specific to the Quay client *)
Record QuayConfig := mkQuayConfig {
  APIBaseURL : string;
  TimeoutSeconds : Z;
  UserAgent : string
}.

(** [AppConfig] is the top-level configuration structure *)
Record AppConfig := mkAppConfig { Quay : QuayConfig }.

(** [yaml_Unmarshal data cfg] is [cfg] as [yaml.Unmarshal(data, &cfg)]
    leaves it, with the error it returns. *)
Record Files := mkFiles {
  filepath_Abs : string → string + string;
  os_ReadFile : string → FileError + string;
  yaml_Unmarshal : string → AppConfig → AppConfig * option string
}.

(** [DefaultConfig] returns a configuration with default values. *)
Definition DefaultConfig : AppConfig :=
  mkAppConfig
    (mkQuayConfig "https://quay.io/api/v1/" 15 "golang-quay-vuln-scanner/1.1").

(** [GetTimeout] converts [TimeoutSeconds] to a [time.Duration]: a 64-bit
    count of nanoseconds, so the product wraps around. *)
Definition GetTimeout (qc : QuayConfig) : Z :=
  if (TimeoutSeconds qc <=? 0)%Z then (5 * Second)%Z
  else wrapInt (TimeoutSeconds qc * Second).

(** [isValidURL], with [filepath.HasPrefix] as it is on Unix *)
Definition isValidURL (u : string) : bool :=
  (0 <? String.length u)
  && (HasPrefix u "http://" || HasPrefix u "https://").

Definition withAPIBaseURL (cfg : AppConfig) (u : string) : AppConfig :=
  mkAppConfig
    (mkQuayConfig u (TimeoutSeconds (Quay cfg)) (UserAgent (Quay cfg))).

Definition withTimeoutSeconds (cfg : AppConfig) (n : Z) : AppConfig :=
  mkAppConfig (mkQuayConfig (APIBaseURL (Quay cfg)) n (UserAgent (Quay cfg))).

Section LoadConfig.

Context (fs : Files).

(** [LoadConfig] reads the configuration file or returns defaults.  The
    first component holds what it writes to standard error. *)
Definition LoadConfig (filePath : string)
    : list string * (AppConfig * option string) :=
  let cfg := DefaultConfig in
  match filepath_Abs fs filePath with
  | inl err =>
      (["Warning: Could not determine absolute path for config '"
          +:+ filePath +:+ "': " +:+ err +:+ ". Using defaults." +:+ nl],
       (cfg, None))
  | inr absPath =>
      match os_ReadFile fs absPath with
      | inl err =>
          if IsNotExist err then
            (["Info: Config file '" +:+ absPath
                +:+ "' not found, using default settings." +:+ nl],
             (cfg, None))
          else
            ([], (cfg, Some ("failed to read config file '" +:+ absPath
                               +:+ "': " +:+ fe_Error err)))
      | inr data =>
          let '(cfg, err) := yaml_Unmarshal fs data cfg in
          match err with
          | Some e =>
              ([], (cfg, Some ("failed to parse YAML config file '"
                                 +:+ absPath +:+ "': " +:+ e)))
          | None =>
              let '(out1, cfg) :=
                if isEmpty (APIBaseURL (Quay cfg)) then
                  (["Warning: quay.api_base_url is empty in config '"
                      +:+ absPath +:+ "', using default: "
                      +:+ APIBaseURL (Quay DefaultConfig) +:+ nl],
                   withAPIBaseURL cfg (APIBaseURL (Quay DefaultConfig)))
                else ([], cfg) in
              let out2 :=
                if negb (isValidURL (APIBaseURL (Quay cfg))) then
                  ["Warning: quay.api_base_url ('" +:+ APIBaseURL (Quay cfg)
                     +:+ "') in config '" +:+ absPath
                     +:+ "' might be invalid, attempting to use anyway." +:+ nl]
                else [] in
              let '(out3, cfg) :=
                if (TimeoutSeconds (Quay cfg) <=? 0)%Z then
                  (["Warning: quay.timeout_seconds must be positive in config '"
                      +:+ absPath +:+ "', using default: 15" +:+ nl],
                   withTimeoutSeconds cfg (TimeoutSeconds (Quay DefaultConfig)))
                else ([], cfg) in
              (out1 ++ out2 ++ out3
                 ++ ["Info: Loaded configuration from '" +:+ absPath +:+ "'"
                       +:+ nl],
               (cfg, None))
          end
      end
  end.

End LoadConfig.

End Config.

(** ** internal/quay/client.go: [NewClient], configured by its caller *)

Section NewClient.

Context (lib : GoLib) (paths : URLPathLib lib).

(** a client with the timeout of the [HTTPClient] it holds *)
Record Built := mkBuilt {
  client : Client lib;
  HTTPClient_Timeout : Z
}.

(** [NewClient] creates a new Quay API client using provided
    configuration.  The first component holds the lines it logs. *)
Definition NewClient (baseURL token : string) (timeout : Z)
    (userAgent : string) : list string * (string + Built) :=
  if isEmpty baseURL then ([], inl "quay API base URL cannot be empty")
  else
    let '(log1, timeout) :=
      if (timeout <=? 0)%Z then
        (["WARN: Received invalid timeout <= 0, using fallback: 10s"],
         (10 * Second)%Z)
      else ([], timeout) in
    match url_Parse lib baseURL with
    | inl err =>
        (log1, inl ("invalid base URL '" +:+ baseURL +:+ "': " +:+ err))
    | inr parsedBaseURL =>
        let parsedBaseURL :=
          if negb (HasSuffix (url_Path paths parsedBaseURL) "/")
          then url_SetPath paths parsedBaseURL
                 (url_Path paths parsedBaseURL +:+ "/")
          else parsedBaseURL in
        let '(log2, userAgent) :=
          if isEmpty userAgent then
            (["WARN: No User-Agent provided to Quay client, using default."],
             "golang-quay-scanner/unknown-version")
          else ([], userAgent) in
        (log1 ++ log2,
         inr (mkBuilt (mkClient parsedBaseURL token userAgent) timeout))
    end.

End NewClient.

Arguments client {lib}.
Arguments HTTPClient_Timeout {lib}.

(** ** internal/formatter/formatter.go *)

(** [strings.Repeat(s, count)] *)
Fixpoint Repeat (s : string) (count : nat) : string :=
  match count with
  | O => EmptyString
  | S count' => s +:+ Repeat s count'
  end.

(** the order of Go's strings: byte by byte, bytes as unsigned numbers *)
Definition lessEq (x y : string) : Prop := String.leb x y = true.

#[global] Instance lessEq_dec (x y : string) : Decision (lessEq x y) :=
  decide (String.leb x y = true).

(** [sort.Strings]: the strings in increasing order *)
Definition sort_Strings (l : list string) : list string := merge_sort lessEq l.

(** The JSON encoder for a map of results, with the indentation the
    program sets: the text it writes and the error it returns; and the
    text a [tabwriter] with the program's settings makes of the text
    written to it. *)
Record FormatLib := mkFormatLib {
  json_Encode : gmap string ImageScanResult → string * option string;
  tabwriter_Write : string → string
}.

Definition tab : string := String (ascii_of_nat 9) EmptyString.

Section Formatter.

Context (flib : FormatLib).

(** [FormatJSON] outputs the aggregated results as indented JSON: what it
    writes and the error it returns. *)
Definition FormatJSON (results : gmap string ImageScanResult)
    : string * option string :=
  let '(out, err) := json_Encode flib results in
  match err with
  | Some e => (out, Some ("failed to marshal results to JSON: " +:+ e))
  | None => (out, None)
  end.

(** the rows the table gets for a feature: one for each of its
    vulnerabilities *)
Definition featureRows (feature : Feature) : string :=
  match feature with
  | mkFeature name version _ _ _ vulnerabilities =>
      foldl (λ out vuln,
               match vuln with
               | mkVulnerability vname _ _ link severity _ fixedBy _ =>
                   let fixedBy := if isEmpty fixedBy then "N/A" else fixedBy in
                   out +:+ "  " +:+ vname +:+ tab +:+ severity +:+ tab
                     +:+ name +:+ tab +:+ version +:+ tab +:+ fixedBy +:+ tab
                     +:+ link +:+ nl
               end)
            EmptyString vulnerabilities
  end.

Definition hasVulnerabilities (feature : Feature) : bool :=
  match feature with
  | mkFeature _ _ _ _ _ vulnerabilities => 0 <? length vulnerabilities
  end.

(** what one turn of the loop of [FormatHumanReadable] writes for a
    result, after the separator *)
Definition formatImage (result : ImageScanResult) : string :=
  "Scan Report for: " +:+ ImageURL result +:+ nl
  +:+ Repeat "-" (String.length (ImageURL result) + 17) +:+ nl
  +:+ (if negb (isEmpty (Error result)) then
         "  Error: " +:+ Error result +:+ nl
       else
         match Report result with
         | None => "  Error: No report data available (internal error)." +:+ nl
         | Some report =>
             "  Scan Status: " +:+ Status report +:+ nl
             +:+ (if negb (String.eqb (Status report) "scanned") then
                    "  No detailed vulnerability data available (scan may be queued or failed)."
                      +:+ nl
                  else
                    match Features (SLayer (Data report)) with
                    | [] =>
                        "  No features with vulnerabilities found in the scan data."
                          +:+ nl
                    | features =>
                        let table :=
                          "  CVE" +:+ tab +:+ "Severity" +:+ tab +:+ "Package"
                            +:+ tab +:+ "Version" +:+ tab +:+ "Fixed By"
                            +:+ tab +:+ "Link" +:+ nl
                            +:+ "  ---" +:+ tab +:+ "--------" +:+ tab
                            +:+ "-------" +:+ tab +:+ "-------" +:+ tab
                            +:+ "--------" +:+ tab +:+ "----" +:+ nl
                            +:+ foldl (λ out feature, out +:+ featureRows feature)
                                  EmptyString features
                            +:+ nl in
                        if existsb hasVulnerabilities features then
                          tabwriter_Write flib table
                        else
                          tabwriter_Write flib table
                            +:+ nl +:+ "  No vulnerabilities found for this image."
                            +:+ nl
                    end)
         end).

(** [results[imageURL]] *)
Definition lookupResult (results : gmap string ImageScanResult)
    (imageURL : string) : ImageScanResult :=
  default (mkImageScanResult EmptyString None EmptyString) (results !! imageURL).

(** [FormatHumanReadable] outputs the results for multiple images.
    [order] is the order in which [range] happens to yield the keys of
    the map. *)
Definition FormatHumanReadable (order : list string)
    (results : gmap string ImageScanResult) : string :=
  let urls := sort_Strings order in
  (foldl (λ '(firstImage, out) imageURL,
            let result := lookupResult results imageURL in
            let out :=
              if negb firstImage
              then out +:+ nl +:+ Repeat "=" 80 +:+ nl
              else out in
            (false, out +:+ formatImage result))
         (true, EmptyString) urls).2.

(** ** cmd/quay-scanner/main.go: [outputResults] *)

(** [outputResults] formats and prints the collected results: what it
    writes and the error it returns. *)
Definition outputResults (order : list string)
    (results : gmap string ImageScanResult) (format : string)
    : string * option string :=
  if String.eqb format "json" then
    let '(out, err) := FormatJSON results in
    match err with
    | Some e => (out, Some ("formatting JSON output: " +:+ e))
    | None => (out, None)
    end
  else if String.eqb format "human" then
    (FormatHumanReadable order results, None)
  else
    (EmptyString,
     Some ("internal error: unknown output format '" +:+ format +:+ "'")).

End Formatter.

(** * The vocabulary of the properties *)

(** ** References *)

(** The three ways a reference can be malformed, in the words of the
    specification. *)

(** [imageURL] is the prefix, a repository, the first colon and a tag *)
Definition splitsAs (imageURL repo tag : string) : Prop :=
  imageURL = "quay.io/" +:+ repo +:+ ":" +:+ tag ∧ ¬ occurs ":" repo.

Definition badPrefix (imageURL : string) : Prop :=
  ∀ rest, imageURL ≠ "quay.io/" +:+ rest.

Definition badFormat (imageURL : string) : Prop :=
  (∃ rest, imageURL = "quay.io/" +:+ rest) ∧
  ¬ ∃ repo tag,
      splitsAs imageURL repo tag ∧ repo ≠ EmptyString ∧ tag ≠ EmptyString.

Definition invalidChars (repo tag : string) : Prop :=
  occurs ".." repo ∨ occurs ".." tag ∨ occurs "/" tag.

Definition badChars (imageURL : string) : Prop :=
  ∃ repo tag,
    splitsAs imageURL repo tag ∧ repo ≠ EmptyString ∧ tag ≠ EmptyString ∧
    invalidChars repo tag.

(** ** Lookups *)

(** The call whose events are [t] put one request on the wire and the
    remote answered it with [resp]. *)
Definition answers (remote : Remote) (t : list Event) (resp : Response) : Prop :=
  ∃ req, sent t = [req] ∧ remote req = inr resp.

(** The digest rules in the words of the specification: the manifest digest
    is preferred, the legacy image id is the fallback, and a [sha256:]
    scheme prefix is stripped from the field chosen. *)
Definition preferredField (tagDetail : TagDetail) : option string :=
  if decide (ManifestDigest tagDetail ≠ EmptyString)
  then Some (ManifestDigest tagDetail)
  else if decide (ImageID tagDetail ≠ EmptyString)
       then Some (ImageID tagDetail)
       else None.

Definition stripsScheme (field digest : string) : Prop :=
  field = "sha256:" +:+ digest
  ∨ ((∀ rest, field ≠ "sha256:" +:+ rest) ∧ digest = field).

(** A stand-in for the library functions, to run the client on examples:
    URLs are their text, a relative reference is appended to the base, and
    the decoders read a body made of the fields of interest, a tag detail
    as [manifest_digest|docker_image_id] and a report as its status. *)
Definition sampleLib : GoLib :=
  mkGoLib string (λ path, inr path) (λ base rel, base +:+ rel) (λ u, u)
    (λ s, s) (λ _ _, None)
    (λ s, String (ascii_of_nat 34) s +:+ String (ascii_of_nat 34) EmptyString)
    (λ body,
       match Cut body "|" with
       | Some (digest, id) =>
           inr (mkTagDetail EmptyString digest id EmptyString 0 false 0 None false)
       | None => inl "unexpected end of JSON input"
       end)
    (λ body,
       if isEmpty body then inl "unexpected end of JSON input"
       else inr (mkSecurityReport body
                   (mkSecurityData (mkLayer EmptyString EmptyString 0 [])))).

Definition sampleClient : Client sampleLib :=
  @mkClient sampleLib "https://quay.io/api/v1/" EmptyString
    "golang-quay-vuln-scanner/1.1".

(** a remote that answers the tag lookup with [tagBody] and the report
    lookup with [reportBody] *)
Definition sampleRemote (tagBody reportBody : string) : Remote :=
  λ req,
    if Contains (URL req) "/tag/"
    then inr (mkResponse 200 " OK" tagBody (String.length tagBody))
    else inr (mkResponse 200 " OK" reportBody (String.length reportBody)).

(** a remote that knows nothing *)
Definition remote404 : Remote :=
  λ _, inr (mkResponse 404 " Not Found" "{}" 2).

Ltac net_unfold :=
  unfold mbind, mret, Net_bind, Net_ret, net_bind, net_ret, Do, logPrintf in *.

(** ** States of the pool *)

(** the job a worker holds while it processes it *)
Definition heldBy (w : WorkerState) : option Job :=
  match w with Processing j => Some j | _ => None end.

Definition held (ws : list WorkerState) : list Job := omap heldBy ws.

(** whether main has closed [jobs], and whether it has started the
    collector, by the place it has reached *)
Definition closedAt (p : MainPC) : bool :=
  match p with StartWorkers _ | SendJobs _ => false | _ => true end.

Definition collectingAt (p : MainPC) : bool :=
  match p with
  | StartWorkers _ | SendJobs _ | StartCollector => false
  | _ => true
  end.

Definition waitingAt (p : MainPC) : bool :=
  match p with WaitCollector | Returned => true | _ => false end.

Section PoolInvariants.

Context (lib : GoLib) (quayClient : Client lib).
Variable remotes : nat → Remote.
Variable imageURLs : list string.
Variable numWorkers : Z.

(** the jobs main has still to send *)
Definition pendingOf (p : MainPC) : list Job :=
  match p with
  | StartWorkers _ => jobsOf imageURLs
  | SendJobs rest => rest
  | _ => []
  end.

(** what the collector's place says of the jobs [cj] collected so far *)
Definition collectedBy (st : CollectorState) (cj : list Job) : Prop :=
  match st with
  | NotStarted => cj = []
  | Collecting i => i = length cj
  | Finished => numJobs imageURLs ≤ length cj
  end.

(** Every job of the batch is in exactly one place: collected into the
    map, waiting on [results], held by a worker, waiting on [jobs], or
    still to be sent; and the map is the one the collected results build,
    in the order collected. *)
Definition accounted (s : Pool) : Prop :=
  ∃ cj rj : list Job,
    allResults s
      = foldl insertResult ∅ (runTask lib quayClient remotes <$> cj)
    ∧ results s = runTask lib quayClient remotes <$> rj
    ∧ cj ++ rj ++ held (workers s) ++ jobs s ++ pendingOf (pc s)
        ≡ₚ jobsOf imageURLs
    ∧ collectedBy (collector s) cj
    ∧ (collectingAt (pc s) = false → collector s = NotStarted)
    ∧ (pc s = Returned → collector s = Finished).

(** The same with a single worker, where the jobs keep the order in which
    they were submitted. *)
Definition inOrder (s : Pool) : Prop :=
  ∃ cj rj : list Job,
    allResults s
      = foldl insertResult ∅ (runTask lib quayClient remotes <$> cj)
    ∧ results s = runTask lib quayClient remotes <$> rj
    ∧ cj ++ rj ++ held (workers s) ++ jobs s ++ pendingOf (pc s)
        = jobsOf imageURLs
    ∧ collectedBy (collector s) cj
    ∧ (collectingAt (pc s) = false → collector s = NotStarted)
    ∧ (pc s = Returned → collector s = Finished)
    ∧ length (workers s) ≤ 1
    ∧ match pc s with
      | StartWorkers w => ((w = 1)%Z ∧ workers s = []) ∨ (w = 2)%Z
      | _ => True
      end.

(** The workers are all started before a job is sent, [jobs] is closed
    and the collector started where the code does so, a worker leaves
    only once [jobs] is closed and drained, and main passes [wg.Wait()]
    only when every worker has left. *)
Definition staffed (s : Pool) : Prop :=
  match pc s with
  | StartWorkers w =>
      (1 ≤ w ≤ numWorkers + 1)%Z ∧ Z.of_nat (length (workers s)) = (w - 1)%Z
  | _ => Z.of_nat (length (workers s)) = numWorkers
  end
  ∧ jobsClosed s = closedAt (pc s)
  ∧ (collectingAt (pc s) = true → collector s ≠ NotStarted)
  ∧ (Exited ∈ workers s → jobsClosed s = true ∧ jobs s = [])
  ∧ (waitingAt (pc s) = true → Forall (λ w, w = Exited) (workers s)).

(** the steps the pool can still take, counted generously *)
Definition mainWeight (p : MainPC) : nat :=
  match p with
  | StartWorkers w =>
      2 * Z.to_nat (numWorkers + 1 - w) + 3 * numJobs imageURLs + 6
  | SendJobs rest => 3 * length rest + 5
  | StartCollector => 4
  | WaitWorkers => 2
  | WaitCollector => 1
  | Returned => 0
  end.

Definition workerWeight (w : WorkerState) : nat :=
  match w with Receiving => 1 | Processing _ => 2 | Exited => 0 end.

Definition collectorWeight (st : CollectorState) : nat :=
  match st with
  | NotStarted => numJobs imageURLs + 1
  | Collecting i => numJobs imageURLs - i + 1
  | Finished => 0
  end.

Definition weight (s : Pool) : nat :=
  mainWeight (pc s) + 2 * length (jobs s)
    + sum_list_with workerWeight (workers s) + collectorWeight (collector s).

(** a map built from the results of the whole batch, taken in some order *)
Definition builtFromBatch (m : gmap string ImageScanResult) : Prop :=
  ∃ cj,
    cj ≡ₚ jobsOf imageURLs
    ∧ m = foldl insertResult ∅ (runTask lib quayClient remotes <$> cj).

End PoolInvariants.


(** two results for the same reference, equal unless it is [ref] *)
Definition agreeOff (ref : string) (r r' : ImageScanResult) : Prop :=
  ImageURL r' = ImageURL r ∧ (ImageURL r ≠ ref → r' = r).

(** two states of the pool that differ at most in the results for [ref] *)
Definition alikeOff (ref : string) (s s' : Pool) : Prop :=
  pc s' = pc s ∧ jobs s' = jobs s ∧ jobsClosed s' = jobsClosed s
  ∧ workers s' = workers s ∧ collector s' = collector s
  ∧ Forall2 (agreeOff ref) (results s) (results s')
  ∧ dom (allResults s') = dom (allResults s)
  ∧ (∀ u, u ≠ ref → allResults s' !! u = allResults s !! u).

(** ** Sample batches *)



(** Two workers take one submission each, and the second one hands in its
    result first. *)
Definition raceSchedule : list Goroutine :=
  [Main; Main; Main; Main; Main; Worker 0; Worker 1; Worker 1; Worker 0;
   Main; Main; Worker 0; Worker 1; Collector; Collector; Collector;
   Main; Main].

(** a batch of two references and the remote in two worlds: one where it
    answers every lookup, one where it refuses the connection while the
    first reference is processed *)
Definition pairBatch : list string :=
  ["quay.io/coreos/etcd:v3.5.0"; "quay.io/prometheus/prometheus:v2.30.0"].

Definition healthyRemotes : nat → Remote :=
  λ _, sampleRemote "sha256:abc123|" "scanned".

Definition failingRemotes : nat → Remote :=
  λ i, if i =? 0 then λ _, inl "connection refused" else healthyRemotes i.

Definition healthyFinal : Pool :=
  default start
    (exec sampleLib sampleClient healthyRemotes pairBatch 2 raceSchedule start).

(** ** Vocabulary of the further properties *)

(** [jobs] is closed where the code closes it, and main is past
    [wg.Wait()] only when every worker has left. *)
Definition settled (s : Pool) : Prop :=
  jobsClosed s = closedAt (pc s)
  ∧ (waitingAt (pc s) = true → Forall (λ w, w = Exited) (workers s)).

(** the workers started so far, for any worker count below the largest
    [int]: none when the count is not positive *)
Definition crewed (numWorkers : Z) (s : Pool) : Prop :=
  match pc s with
  | StartWorkers w =>
      (1 ≤ w ≤ Z.max 0 numWorkers + 1)%Z
      ∧ Z.of_nat (length (workers s)) = (w - 1)%Z
  | _ => Z.of_nat (length (workers s)) = Z.max 0 numWorkers
  end.

(** a pool without workers: nothing is ever put on [results], and the
    collector ends only if there is nothing to collect *)
Definition unstaffed (imageURLs : list string) (s : Pool) : Prop :=
  workers s = [] ∧ results s = [] ∧ allResults s = ∅
  ∧ match pc s with StartWorkers w => w = 1%Z | _ => True end
  ∧ match collector s with
    | NotStarted | Collecting 0 => True
    | Collecting (S _) => False
    | Finished => imageURLs = []
    end
  ∧ (pc s = Returned → collector s = Finished).

(** the schedule of a pool without workers and without jobs *)
Definition idleSchedule : list Goroutine :=
  [Main; Main; Main; Main; Collector; Main].

(** the references not yet taken by a worker: those on [jobs] and those
    main has still to send *)
Definition queued (imageURLs : list string) (s : Pool) : list Job :=
  jobs s ++ pendingOf imageURLs (pc s).

(** main has sent the first reference of the pair and the first worker has
    taken it *)
Definition midSchedule : list Goroutine := [Main; Main; Main; Main; Worker 0].

Definition midState : Pool :=
  default start
    (exec sampleLib sampleClient healthyRemotes pairBatch 2 midSchedule start).

(** a client that presents a token *)
Definition tokenClient : Client sampleLib :=
  @mkClient sampleLib "https://quay.io/api/v1/" "s3cr3t"
    "golang-quay-vuln-scanner/1.1".

Definition badGateway : Response :=
  mkResponse 502 " Bad Gateway" "upstream answered with status 404" 33.

(** a remote whose gateway fails and quotes an upstream status in the
    body *)
Definition gatewayRemote : Remote := λ _, inr badGateway.

(** the tag lookup of [tokenClient] for [coreos/etcd:v3.5.0] *)
Definition tagRequest : Request :=
  mkRequest "GET" "https://quay.io/api/v1/repository/coreos/etcd/tag/v3.5.0"
    [("User-Agent", "golang-quay-vuln-scanner/1.1");
     ("Authorization", "Bearer s3cr3t")].

(** a success status that is not 200 *)
Definition noContent : Response :=
  mkResponse 204 " No Content" EmptyString 0.

Definition noContentRemote : Remote := λ _, inr noContent.

(** two outcomes of a request that fail together or decode the same
    value *)
Definition alike {T} (r r' : string + T) : Prop :=
  match r, r' with
  | inr v, inr v' => v = v'
  | inl _, inl _ => True
  | _, _ => False
  end.

(** a client of the later revision set up with what the earlier one has
    built in *)
Definition sameSettings {lib} (cl : V1.Client lib) (c : Client lib) : Prop :=
  BaseURL c = V1.BaseURL cl ∧ Token c = V1.Token cl
  ∧ UserAgent c = V1.userAgent.

(** A stand-in for the library like [sampleLib], with URLs kept as an
    origin and a path. *)
Definition splitLib : GoLib :=
  mkGoLib (string * string)
    (λ s, match Cut (TrimPrefix s "https://") "/" with
          | Some (host, path) =>
              inr (if HasPrefix s "https://" then "https://" +:+ host else host,
                   "/" +:+ path)
          | None => inr (s, EmptyString)
          end)
    (λ base rel, (base.1, base.2 +:+ rel.1 +:+ rel.2))
    (λ u, u.1 +:+ u.2)
    (url_PathEscape sampleLib) (http_NewRequest sampleLib) (fmt_q sampleLib)
    (json_DecodeTagDetail sampleLib) (json_DecodeSecurityReport sampleLib).

Definition splitPaths : URLPathLib splitLib :=
  mkURLPathLib splitLib (λ u, u.2) (λ u path, (u.1, path)).

Definition sampleClient1 : V1.Client sampleLib :=
  @V1.mkClient sampleLib "https://quay.io/api/v1/" V1.defaultTimeout
    EmptyString.

(** the client [NewClient] builds for a base URL given without its final
    slash *)
Definition bareClient : V1.Client splitLib :=
  @V1.mkClient splitLib ("https://quay.example.com", "/api/v1/")
    V1.defaultTimeout "s3cr3t".

(** a command line that names one image and gives no token, in an
    environment that has one *)
Definition envFlags : Cli.Config :=
  Cli.mkConfig "quay.io/coreos/etcd:v3.5.0" EmptyString "human" false
    EmptyString 5.

Definition sampleEnv : string → string :=
  λ name, if String.eqb name "QUAY_TOKEN" then "t0k3n" else EmptyString.

Definition envClient : V1.Client splitLib :=
  @V1.mkClient splitLib ("https://quay.io", "/api/v1/") V1.defaultTimeout
    "t0k3n".

Definition envRequest : Request :=
  mkRequest "GET" "https://quay.io/api/v1/repository/coreos/etcd/tag/v3.5.0"
    [("User-Agent", "golang-quay-vuln-scanner/1.0");
     ("Authorization", "Bearer t0k3n")].

(** the answer of [remote404] *)
Definition notFound : Response := mkResponse 404 " Not Found" "{}" 2.

(** a remote whose every answer is an internal error *)
Definition serverError : Response :=
  mkResponse 500 " Internal Server Error" "{}" 2.

Definition remote500 : Remote := λ _, inr serverError.

Definition sampleClient0 : Client sampleLib :=
  @mkClient sampleLib "https://quay.io/api/v1/" EmptyString V1.userAgent.

(** the largest number of seconds whose nanoseconds fit a [time.Duration] *)
Definition maxSeconds : Z := 9223372036.

(** a file system that holds one configuration file, and a YAML reader
    that takes the file's text for the timeout, in seconds, as a run of
    [x] *)
Definition sampleFiles : Config.Files :=
  Config.mkFiles (λ p, inr ("/etc/" +:+ p))
    (λ p, if String.eqb p "/etc/config.yaml" then inr "xxx"
          else inl (mkFileError true "no such file or directory"))
    (λ data cfg,
       (Config.withTimeoutSeconds cfg (Z.of_nat (String.length data)), None)).

(** the configuration loaded from the sample file *)
Definition loadedConfig : Config.AppConfig :=
  (Config.LoadConfig sampleFiles "config.yaml").2.1.

(** the sections of a report, one after the other with the separator of
    the source between them *)
Fixpoint joinSections (sections : list string) : string :=
  match sections with
  | [] => EmptyString
  | [s] => s
  | s :: rest => s +:+ nl +:+ Repeat "=" 80 +:+ nl +:+ joinSections rest
  end.

(** a formatting library that leaves tables as they are and encodes
    nothing *)
Definition plainFormat : FormatLib :=
  mkFormatLib (λ _, (EmptyString, None)) (λ table, table).

(** the path of the tag lookup, as [GetImageID] builds it *)
Definition tagPath (lib : GoLib) (repo tag : string) : string :=
  "repository/" +:+ repo +:+ "/tag/" +:+ url_PathEscape lib tag.

(** the two lines that open the section of a result in the
    human-readable report *)
Definition heading (result : ImageScanResult) : string :=
  "Scan Report for: " +:+ ImageURL result +:+ nl
    +:+ Repeat "-" (String.length (ImageURL result) + 17) +:+ nl.

(** the section the report has for a result without error and without
    report *)
Definition internalErrorSection (result : ImageScanResult) : string :=
  heading result
    +:+ "  Error: No report data available (internal error)." +:+ nl.

(** a remote whose scanner has not got to the image yet *)
Definition queuedRemote : Remote := sampleRemote "sha256:abc123|" "queued".

(** * Properties *)

(** ** Strings *)

Section StringFacts.

Implicit Types s p r l sub : string.

Lemma append_nil s : EmptyString +:+ s = s.
Proof. reflexivity. Qed.

Lemma append_cons c s p : String c s +:+ p = String c (s +:+ p).
Proof. reflexivity. Qed.

Lemma append_assoc s p r : (s +:+ p) +:+ r = s +:+ p +:+ r.
Proof.
  induction s as [|c s IH]; [done |]. by rewrite !append_cons, IH.
Qed.

Lemma append_empty_r s : s +:+ EmptyString = s.
Proof.
  induction s as [|c s IH]; [done |]. by rewrite append_cons, IH.
Qed.

Lemma isEmpty_true s : isEmpty s = true ↔ s = EmptyString.
Proof. by destruct s. Qed.

Lemma isEmpty_false s : isEmpty s = false ↔ s ≠ EmptyString.
Proof. by destruct s. Qed.

Lemma HasPrefix_app p r : HasPrefix (p +:+ r) p = true.
Proof.
  induction p as [|c p IH]; [done |].
  rewrite append_cons. simpl. by rewrite Ascii.eqb_refl.
Qed.

Lemma HasPrefix_inv s p : HasPrefix s p = true → ∃ r, s = p +:+ r.
Proof.
  revert s. induction p as [|c p IH]; intros s H; simpl in *.
  - by exists s.
  - destruct s as [|d s]; [done |].
    destruct (Ascii.eqb_spec d c) as [->|]; [| done].
    destruct (IH _ H) as [r ->]. by exists r.
Qed.

Lemma HasPrefix_iff s p : HasPrefix s p = true ↔ ∃ r, s = p +:+ r.
Proof.
  split; [apply HasPrefix_inv |]. intros [r ->]. apply HasPrefix_app.
Qed.

Lemma sliceFrom_app p r : sliceFrom (String.length p) (p +:+ r) = r.
Proof.
  induction p as [|c p IH]; [by destruct r |].
  rewrite append_cons. exact IH.
Qed.

Lemma TrimPrefix_app p r : TrimPrefix (p +:+ r) p = r.
Proof. unfold TrimPrefix. by rewrite HasPrefix_app, sliceFrom_app. Qed.

Lemma TrimPrefix_other s p : HasPrefix s p = false → TrimPrefix s p = s.
Proof. unfold TrimPrefix. by intros ->. Qed.

(** [TrimPrefix] in the words of its documentation: [s] without the
    leading [p], or [s] itself when it does not start with [p] *)
Lemma TrimPrefix_spec s p :
  (∃ r, s = p +:+ r ∧ TrimPrefix s p = r)
  ∨ ((∀ r, s ≠ p +:+ r) ∧ TrimPrefix s p = s).
Proof.
  destruct (HasPrefix s p) eqn:H.
  - left. destruct (HasPrefix_inv _ _ H) as [r ->].
    exists r. by rewrite TrimPrefix_app.
  - right. split; [| by apply TrimPrefix_other].
    intros r ->. by rewrite HasPrefix_app in H.
Qed.

Lemma Contains_unfold s sub :
  Contains s sub =
    HasPrefix s sub ||
    match s with EmptyString => false | String _ s' => Contains s' sub end.
Proof. by destruct s. Qed.

Lemma Contains_iff s sub : Contains s sub = true ↔ occurs sub s.
Proof.
  unfold occurs. split.
  - induction s as [|c s IH]; rewrite Contains_unfold; intros H.
    + rewrite orb_false_r in H. apply HasPrefix_inv in H as [r ->].
      by exists EmptyString, r.
    + apply orb_true_iff in H as [H|H].
      * apply HasPrefix_inv in H as [r ->]. by exists EmptyString, r.
      * destruct (IH H) as (l & r & ->). by exists (String c l), r.
  - intros (l & r & ->).
    induction l as [|c l IH]; rewrite Contains_unfold.
    + by rewrite append_nil, HasPrefix_app.
    + rewrite append_cons, IH. apply orb_true_r.
Qed.

Lemma Contains_app_r l sub r : Contains (l +:+ sub +:+ r) sub = true.
Proof. apply Contains_iff. by exists l, r. Qed.

Lemma Contains_false s sub : Contains s sub = false ↔ ¬ occurs sub s.
Proof.
  rewrite <- Contains_iff. by destruct (Contains s sub).
Qed.

Lemma Cut_unfold s sep :
  Cut s sep =
    if HasPrefix s sep
    then Some (EmptyString, sliceFrom (String.length sep) s)
    else match s with
         | EmptyString => None
         | String c s' =>
             match Cut s' sep with
             | Some (before, after) => Some (String c before, after)
             | None => None
             end
         end.
Proof. by destruct s. Qed.

Lemma HasPrefix_slice s p :
  HasPrefix s p = true → s = p +:+ sliceFrom (String.length p) s.
Proof.
  intros H. apply HasPrefix_inv in H as [r ->]. by rewrite sliceFrom_app.
Qed.

(** A cut splits the string around one instance of the separator. *)
Lemma Cut_Some s sep before after :
  Cut s sep = Some (before, after) → s = before +:+ sep +:+ after.
Proof.
  revert before. induction s as [|c s IH]; intros before;
    rewrite Cut_unfold; destruct (HasPrefix _ sep) eqn:Hp.
  - intros [= <- <-]. by apply HasPrefix_slice.
  - done.
  - intros [= <- <-]. by apply HasPrefix_slice.
  - destruct (Cut s sep) as [[b a]|] eqn:Hc; [| done].
    intros [= <- <-]. rewrite append_cons. by rewrite <- (IH b).
Qed.

Lemma Cut_None s sep : Cut s sep = None ↔ Contains s sep = false.
Proof.
  induction s as [|c s IH]; rewrite Cut_unfold, Contains_unfold;
    destruct (HasPrefix _ sep); simpl; try done.
  destruct (Cut s sep) as [[b a]|]; [| tauto].
  split; [done |]. intros H. by apply IH in H.
Qed.

(** For a separator of one byte the cut is at its first instance. *)
Lemma Cut_first c before after :
  Contains before (String c EmptyString) = false →
  Cut (before +:+ String c EmptyString +:+ after) (String c EmptyString)
    = Some (before, after).
Proof.
  change (String c EmptyString +:+ after) with (String c after).
  induction before as [|d before IH]; intros H.
  - rewrite append_nil, Cut_unfold. simpl. by rewrite Ascii.eqb_refl.
  - rewrite Contains_unfold in H. apply orb_false_iff in H as [Hd H].
    simpl in Hd. rewrite append_cons, Cut_unfold. simpl.
    destruct (Ascii.eqb d c); [done |]. by rewrite (IH H).
Qed.

Lemma Cut_before_free c s before after :
  Cut s (String c EmptyString) = Some (before, after) →
  Contains before (String c EmptyString) = false.
Proof.
  revert before. induction s as [|d s IH]; intros before;
    rewrite Cut_unfold; simpl.
  - done.
  - destruct (Ascii.eqb d c) eqn:Hd; [by intros [= <- <-] |].
    destruct (Cut s _) as [[b a]|]; [| done].
    intros [= <- <-]. rewrite Contains_unfold. simpl.
    rewrite Hd. simpl. by apply IH.
Qed.

Lemma statusDigits_404 : statusDigits 404 = "404".
Proof. reflexivity. Qed.

End StringFacts.

(** ** The image-reference parser *)

Section Parser.

Implicit Types imageURL repo tag rest : string.

Lemma splitsAs_inj imageURL repo tag repo' tag' :
  splitsAs imageURL repo tag → splitsAs imageURL repo' tag' →
  repo = repo' ∧ tag = tag'.
Proof.
  intros [-> Hr] [E Hr']. apply (inj (String.append _)) in E.
  apply Contains_false in Hr, Hr'.
  pose proof (Cut_first ":" repo tag Hr) as H1.
  pose proof (Cut_first ":" repo' tag' Hr') as H2.
  rewrite E, H2 in H1. by injection H1.
Qed.

Lemma SplitN2_split repo tag :
  ¬ occurs ":" repo → SplitN2 (repo +:+ ":" +:+ tag) ":" = [repo; tag].
Proof.
  intros H. apply Contains_false in H. unfold SplitN2.
  by rewrite (Cut_first ":" repo tag H).
Qed.

Lemma SplitN2_cases rest :
  (∃ repo tag, rest = repo +:+ ":" +:+ tag ∧ ¬ occurs ":" repo ∧
               SplitN2 rest ":" = [repo; tag])
  ∨ (¬ occurs ":" rest ∧ SplitN2 rest ":" = [rest]).
Proof.
  unfold SplitN2. destruct (Cut rest ":") as [[repo tag]|] eqn:H.
  - left. exists repo, tag. split; [by apply Cut_Some |]. split; [| done].
    apply Contains_false. by eapply Cut_before_free.
  - right. split; [| done]. by apply Contains_false, Cut_None.
Qed.

Lemma invalidChars_iff repo tag :
  Contains repo ".." || Contains tag ".." || Contains tag "/" = true
  ↔ invalidChars repo tag.
Proof.
  unfold invalidChars. rewrite !orb_true_iff, !Contains_iff. tauto.
Qed.

(** What [parseImageURL] returns, case by case. *)
Lemma parseImageURL_cases imageURL :
  (badPrefix imageURL ∧
     parseImageURL imageURL = (EmptyString, EmptyString, Some errBadPrefix))
  ∨ (badFormat imageURL ∧
       parseImageURL imageURL
         = (EmptyString, EmptyString, Some (errBadFormat imageURL)))
  ∨ (∃ repo tag,
       splitsAs imageURL repo tag ∧ repo ≠ EmptyString ∧ tag ≠ EmptyString ∧
       invalidChars repo tag ∧
       parseImageURL imageURL = (repo, tag, Some errInvalidChars))
  ∨ (∃ repo tag,
       splitsAs imageURL repo tag ∧ repo ≠ EmptyString ∧ tag ≠ EmptyString ∧
       ¬ invalidChars repo tag ∧
       parseImageURL imageURL = (repo, tag, None)).
Proof.
  unfold parseImageURL.
  destruct (HasPrefix imageURL "quay.io/") eqn:Hp; simpl.
  2:{ left. split; [| done]. intros rest ->.
      by rewrite HasPrefix_app in Hp. }
  right. apply HasPrefix_inv in Hp as [rest ->].
  rewrite TrimPrefix_app.
  destruct (SplitN2_cases rest) as [(repo & tag & -> & Hc & ->)|[Hc ->]].
  - unfold part. simpl.
    destruct (isEmpty repo) eqn:Er; simpl.
    { left. split; [| done]. split; [by eexists |].
      intros (repo' & tag' & Hs & Hr' & _).
      destruct (splitsAs_inj _ repo tag repo' tag' (conj eq_refl Hc) Hs)
        as [<- _]. by apply isEmpty_true in Er. }
    destruct (isEmpty tag) eqn:Et; simpl.
    { left. split; [| done]. split; [by eexists |].
      intros (repo' & tag' & Hs & _ & Ht').
      destruct (splitsAs_inj _ repo tag repo' tag' (conj eq_refl Hc) Hs)
        as [_ <-]. by apply isEmpty_true in Et. }
    apply isEmpty_false in Er, Et. right.
    destruct (Contains repo ".." || Contains tag ".." || Contains tag "/")
      eqn:Hv.
    + left. exists repo, tag. apply invalidChars_iff in Hv.
      by repeat split.
    + right. exists repo, tag. repeat split; try done.
      rewrite <- invalidChars_iff. by rewrite Hv.
  - left. split; [| done]. split; [by eexists |].
    intros (repo & tag & [E _] & _). apply (inj (String.append _)) in E.
    apply Hc. subst rest. by exists repo, tag.
Qed.

Lemma badPrefix_not_split imageURL repo tag :
  badPrefix imageURL → ¬ splitsAs imageURL repo tag.
Proof. intros Hb [E _]. exact (Hb _ E). Qed.

End Parser.

(** C7.  A reference made of the registry prefix, a non-empty repository
    without a colon, a colon and a non-empty tag, with no [..] in either
    and no [/] in the tag, parses to exactly that repository and that tag:
    the split is at the first colon, and further colons stay in the tag. *)
Theorem parseImageURL_valid (repo tag : string) :
  repo ≠ EmptyString → tag ≠ EmptyString →
  ¬ occurs ":" repo →
  ¬ occurs ".." repo → ¬ occurs ".." tag → ¬ occurs "/" tag →
  parseImageURL ("quay.io/" +:+ repo +:+ ":" +:+ tag) = (repo, tag, None).
Proof.
  intros Hr Ht Hc H1 H2 H3.
  assert (Hs : splitsAs ("quay.io/" +:+ repo +:+ ":" +:+ tag) repo tag)
    by done.
  destruct (parseImageURL_cases ("quay.io/" +:+ repo +:+ ":" +:+ tag))
    as [[Hb _]|[[[_ Hb] _]|[(r & t & Hs' & _ & _ & Hi & E)
                           |(r & t & Hs' & _ & _ & _ & E)]]].
  - by destruct (badPrefix_not_split _ _ _ Hb Hs).
  - destruct Hb. by exists repo, tag.
  - destruct (splitsAs_inj _ _ _ _ _ Hs Hs') as [<- <-].
    unfold invalidChars in Hi. tauto.
  - by destruct (splitsAs_inj _ _ _ _ _ Hs Hs') as [<- <-].
Qed.

Lemma parseImageURL_valid_witness :
  parseImageURL "quay.io/coreos/etcd:v3.5.0:rc" = ("coreos/etcd", "v3.5.0:rc", None).
Proof.
  apply (parseImageURL_valid "coreos/etcd" "v3.5.0:rc");
    try done; by apply Contains_false.
Defined.

(** The references on which [parseImageURL] fails: it returns an error
    exactly when the reference lacks the registry prefix, or has it but is
    not a non-empty repository, a first colon and a non-empty tag, or
    splits so but has [..] in the repository or the tag or [/] in the tag;
    every other reference parses, to the pair it splits into.  Beside the
    error the two other results are both empty on the first two failures;
    on the invalid-characters failure they are the pair that was
    rejected. *)
Theorem parseImageURL_fails_exactly (imageURL : string) :
  let '(repo, tag, err) := parseImageURL imageURL in
  (err ≠ None ↔ badPrefix imageURL ∨ badFormat imageURL ∨ badChars imageURL)
  ∧ (err ≠ None →
       (repo = EmptyString ∧ tag = EmptyString)
       ∨ (splitsAs imageURL repo tag ∧ repo ≠ EmptyString ∧
          tag ≠ EmptyString ∧ invalidChars repo tag))
  ∧ (err = None →
       splitsAs imageURL repo tag ∧ repo ≠ EmptyString ∧
       tag ≠ EmptyString ∧ ¬ invalidChars repo tag).
Proof.
  destruct (parseImageURL_cases imageURL)
    as [[Hb ->]|[[Hb ->]|[(r & t & Hs & Hr & Ht & Hi & ->)
                         |(r & t & Hs & Hr & Ht & Hi & ->)]]].
  - split; [split; [tauto | done] |]. split; [tauto | done].
  - split; [split; [tauto | done] |]. split; [tauto | done].
  - split; [split; [| done] |]; [| split; [tauto | done]].
    intros _. right. right. by exists r, t.
  - split; [split; [done |] |]; [| split; [done | tauto]].
    intros [Hb|[[_ Hb]|(r' & t' & Hs' & _ & _ & Hi')]].
    + by destruct (badPrefix_not_split _ _ _ Hb Hs).
    + destruct Hb. by exists r, t.
    + by destruct (splitsAs_inj _ _ _ _ _ Hs Hs') as [<- <-].
Qed.

(** Every reference rejected for its characters comes back beside the
    error, as the non-empty repository and tag it splits into. *)
Lemma parseImageURL_invalid_chars_pair (imageURL : string) :
  badChars imageURL →
  ∃ repo tag,
    parseImageURL imageURL = (repo, tag, Some errInvalidChars)
    ∧ splitsAs imageURL repo tag ∧ repo ≠ EmptyString ∧ tag ≠ EmptyString.
Proof.
  intros (r' & t' & Hs' & Hr' & Ht' & Hi').
  destruct (parseImageURL_cases imageURL)
    as [[Hb _]|[[[_ Hb] _]|[(r & t & Hs & Hr & Ht & Hi & E)
                           |(r & t & Hs & Hr & Ht & Hi & E)]]].
  - by destruct (badPrefix_not_split _ _ _ Hb Hs').
  - destruct Hb. by exists r', t'.
  - by exists r, t.
  - by destruct (splitsAs_inj _ _ _ _ _ Hs Hs') as [<- <-].
Qed.

(** C8 fails on the code.  The claim is that a failing [parseImageURL]
    returns an error and never a partially-constructed (repository, tag)
    pair.  The reference [quay.io/a..b:c] is rejected for its characters,
    and the function returns the repository [a..b] and the tag [c] beside
    the error: the named results are assigned before the check and the
    function leaves with a bare [return].  The two other failures, a
    missing prefix and a bad format, return empty results beside theirs. *)
Example parseImageURL_returns_rejected_pair :
  parseImageURL "quay.io/a..b:c" = ("a..b", "c", Some errInvalidChars)
  ∧ parseImageURL "docker.io/a:b"
    = (EmptyString, EmptyString, Some errBadPrefix)
  ∧ parseImageURL "quay.io/a"
    = (EmptyString, EmptyString, Some (errBadFormat "quay.io/a")).
Proof. by vm_compute. Qed.

(** ** The client *)

Section ClientFacts.

Context (lib : GoLib).
Implicit Types (c : Client lib) (remote : Remote).

(** [doRequest] sends nothing and fails, or sends one request and turns
    the outcome into its result. *)
Lemma doRequest_cases {T} (decode : string → string + T) c method path remote :
  (∃ e, doRequest lib decode c method path remote = ([], inl e))
  ∨ (∃ req full,
       Method req = method ∧
       doRequest lib decode c method path remote =
         ([Sent req],
          match remote req with
          | inl err =>
              inl ("failed to execute request to " +:+ full +:+ ": " +:+ err)
          | inr resp =>
              if StatusCode resp =? StatusOK then
                match decode (Body resp) with
                | inl err =>
                    inl ("failed to decode JSON response from " +:+ full
                           +:+ ": " +:+ err)
                | inr v => inr v
                end
              else
                inl ("API request to " +:+ full +:+ " failed with status "
                       +:+ respStatus resp +:+ ". Body snippet: "
                       +:+ sliceTo (FirstRead resp `min` 512) (Body resp))
          end)).
Proof.
  unfold doRequest. destruct (url_Parse lib path) as [e|relURL].
  { left. by eexists. }
  destruct (http_NewRequest lib method _) as [e|].
  { left. by eexists. }
  right. net_unfold. simpl.
  match goal with |- context [remote ?r] => set (req := r) end.
  exists req, (url_String lib (url_ResolveReference lib (BaseURL c) relURL)).
  split; [done |].
  destruct (remote req) as [e|resp]; [done |].
  destruct (StatusCode resp =? StatusOK); simpl; [| done].
  by destruct (decode (Body resp)).
Qed.

Lemma doRequest_answered {T} (decode : string → string + T)
    c method path remote resp :
  answers remote (doRequest lib decode c method path remote).1 resp →
  ∃ full,
    (doRequest lib decode c method path remote).2 =
      if StatusCode resp =? StatusOK then
        match decode (Body resp) with
        | inl err =>
            inl ("failed to decode JSON response from " +:+ full
                   +:+ ": " +:+ err)
        | inr v => inr v
        end
      else
        inl ("API request to " +:+ full +:+ " failed with status "
               +:+ respStatus resp +:+ ". Body snippet: "
               +:+ sliceTo (FirstRead resp `min` 512) (Body resp)).
Proof.
  intros (req & Hs & Hr).
  destruct (doRequest_cases decode c method path remote)
    as [[e E]|(req' & full & _ & E)]; rewrite E in *; simpl in *.
  { done. }
  injection Hs as ->. rewrite Hr. by exists full.
Qed.

Lemma status_404_text full resp rest :
  StatusCode resp = 404 →
  Contains ("API request to " +:+ full +:+ " failed with status "
              +:+ respStatus resp +:+ rest) "status 404" = true.
Proof.
  intros H. unfold respStatus. rewrite H.
  apply Contains_iff.
  exists ("API request to " +:+ full +:+ " failed with "), (Reason resp +:+ rest).
  by rewrite !append_assoc.
Qed.

Lemma GetImageID_trace c repo tag remote :
  (GetImageID lib c repo tag remote).1 =
    (doRequest lib (json_DecodeTagDetail lib) c "GET"
       ("repository/" +:+ repo +:+ "/tag/" +:+ url_PathEscape lib tag) remote).1.
Proof.
  unfold GetImageID. net_unfold.
  destruct (doRequest _ _ _ _ _ _) as [t [e|td]]; simpl.
  - destruct (Contains e _); simpl; apply app_nil_r.
  - destruct (isEmpty (ManifestDigest td)), (isEmpty (ImageID td)); simpl;
      apply app_nil_r.
Qed.

Lemma GetImageID_result c repo tag remote :
  (GetImageID lib c repo tag remote).2 =
    match (doRequest lib (json_DecodeTagDetail lib) c "GET"
             ("repository/" +:+ repo +:+ "/tag/" +:+ url_PathEscape lib tag)
             remote).2 with
    | inl err =>
        if Contains err "status 404"
        then (EmptyString, Some (errTagNotFound repo tag))
        else (EmptyString, Some (errTagDetails repo tag err))
    | inr tagDetail =>
        if negb (isEmpty (ManifestDigest tagDetail)) then
          (TrimPrefix (ManifestDigest tagDetail) "sha256:", None)
        else if negb (isEmpty (ImageID tagDetail)) then
          (TrimPrefix (ImageID tagDetail) "sha256:", None)
        else (EmptyString, Some (errNoDigest tag))
    end.
Proof.
  unfold GetImageID. net_unfold.
  destruct (doRequest _ _ _ _ _ _) as [t [e|td]]; simpl.
  - by destruct (Contains e _).
  - by destruct (isEmpty (ManifestDigest td)), (isEmpty (ImageID td)).
Qed.

Lemma GetVulnerabilities_result c repo imageDigest remote :
  (GetVulnerabilities lib c repo imageDigest remote).2 =
    match (doRequest lib (json_DecodeSecurityReport lib) c "GET"
             ("repository/" +:+ repo +:+ "/image/" +:+ imageDigest
                +:+ "/security?vulnerabilities=true") remote).2 with
    | inl err =>
        if Contains err "status 404"
        then (None, Some (errReportNotFound repo imageDigest))
        else (None, Some (errSecurityInfo imageDigest err))
    | inr report => (Some report, None)
    end.
Proof.
  unfold GetVulnerabilities. net_unfold.
  destruct (doRequest _ _ _ _ _ _) as [t [e|report]]; simpl.
  - by destruct (Contains e _).
  - by destruct (negb _).
Qed.

Lemma GetVulnerabilities_trace c repo imageDigest remote :
  (GetVulnerabilities lib c repo imageDigest remote).1 =
    let r := doRequest lib (json_DecodeSecurityReport lib) c "GET"
               ("repository/" +:+ repo +:+ "/image/" +:+ imageDigest
                  +:+ "/security?vulnerabilities=true") remote in
    r.1 ++
    match r.2 with
    | inr report =>
        if negb (String.eqb (Status report) "scanned")
        then [Logged (warnNotScanned repo imageDigest (Status report))]
        else []
    | inl _ => []
    end.
Proof.
  unfold GetVulnerabilities. net_unfold.
  destruct (doRequest _ _ _ _ _ _) as [t [e|report]]; simpl.
  - by destruct (Contains e _).
  - destruct (negb _); simpl; by rewrite ?app_nil_r.
Qed.

Lemma sent_app (t1 t2 : list Event) : sent (t1 ++ t2) = sent t1 ++ sent t2.
Proof. unfold sent. apply omap_app. Qed.

Lemma GetVulnerabilities_sent c repo imageDigest remote :
  sent (GetVulnerabilities lib c repo imageDigest remote).1 =
    sent (doRequest lib (json_DecodeSecurityReport lib) c "GET"
            ("repository/" +:+ repo +:+ "/image/" +:+ imageDigest
               +:+ "/security?vulnerabilities=true") remote).1.
Proof.
  rewrite GetVulnerabilities_trace. simpl. rewrite sent_app.
  destruct (doRequest _ _ _ _ _ _) as [t [e|report]]; simpl.
  - apply app_nil_r.
  - destruct (negb _); simpl; apply app_nil_r.
Qed.

End ClientFacts.

(** X24.  In the later revision of the client, the one with the configured
    user agent, a 404 answer to the tag lookup makes [GetImageID] fail with
    the tag-not-found error, and a 404 answer to the report lookup makes
    [GetVulnerabilities] fail with the report-not-found error; neither text
    is one of the errors the function gives for a failed request of
    another kind.  The client as first checked in has no such errors: see
    [V1.GetImageID] and [V1.GetVulnerabilities] further on. *)
Theorem not_found_errors (lib : GoLib) (c : Client lib)
    (repo tag imageDigest : string) (remote : Remote) (resp : Response) :
  StatusCode resp = 404 →
  (answers remote (GetImageID lib c repo tag remote).1 resp →
     (GetImageID lib c repo tag remote).2
       = (EmptyString, Some (errTagNotFound repo tag)))
  ∧ (answers remote (GetVulnerabilities lib c repo imageDigest remote).1 resp →
     (GetVulnerabilities lib c repo imageDigest remote).2
       = (None, Some (errReportNotFound repo imageDigest)))
  ∧ (∀ repo' tag' err, errTagNotFound repo tag ≠ errTagDetails repo' tag' err)
  ∧ (∀ tag', errTagNotFound repo tag ≠ errNoDigest tag')
  ∧ (∀ imageDigest' err,
       errReportNotFound repo imageDigest ≠ errSecurityInfo imageDigest' err).
Proof.
  intros H404. repeat split.
  - intros Ha. rewrite GetImageID_trace in Ha.
    apply doRequest_answered in Ha as [full E].
    rewrite GetImageID_result, E, H404.
    change (404 =? StatusOK) with false. cbv iota.
    by rewrite status_404_text.
  - intros Ha. unfold answers in Ha. rewrite GetVulnerabilities_sent in Ha.
    apply doRequest_answered in Ha as [full E].
    rewrite GetVulnerabilities_result, E, H404.
    change (404 =? StatusOK) with false. cbv iota.
    by rewrite status_404_text.
  - intros repo' tag' err. discriminate.
  - intros tag'. discriminate.
  - intros imageDigest' err. discriminate.
Qed.

Lemma not_found_errors_witness :
  (GetImageID sampleLib sampleClient "coreos/etcd" "v9.9.9" remote404).2
    = (EmptyString, Some (errTagNotFound "coreos/etcd" "v9.9.9"))
  ∧ (GetVulnerabilities sampleLib sampleClient "coreos/etcd" "abc123" remote404).2
    = (None, Some (errReportNotFound "coreos/etcd" "abc123")).
Proof.
  destruct (not_found_errors sampleLib sampleClient "coreos/etcd" "v9.9.9"
              "abc123" remote404 (mkResponse 404 " Not Found" "{}" 2) eq_refl)
    as (H1 & H2 & _).
  split; [apply H1 | apply H2]; eexists; split; reflexivity.
Defined.

(** The classification reads the error's text: a failure of another kind
    whose text holds [status 404], here a 500 answer with that phrase in
    its body, is reported as a missing tag too. *)
Example not_found_by_text :
  (GetImageID sampleLib sampleClient "coreos/etcd" "v3.5.0"
     (λ _, inr (mkResponse 500 " Internal Server Error"
                  "upstream answered with status 404" 33))).2
  = (EmptyString, Some (errTagNotFound "coreos/etcd" "v3.5.0")).
Proof. reflexivity. Qed.

(** C5.  When the tag lookup is answered with a tag detail, [GetImageID]
    returns the manifest digest if there is one, else the legacy image id
    if there is one, in both cases without a leading [sha256:], and fails
    when the detail has neither. *)
Theorem GetImageID_prefers_manifest_digest (lib : GoLib) (c : Client lib)
    (repo tag : string) (remote : Remote) (resp : Response)
    (tagDetail : TagDetail) :
  answers remote (GetImageID lib c repo tag remote).1 resp →
  StatusCode resp = StatusOK →
  json_DecodeTagDetail lib (Body resp) = inr tagDetail →
  match preferredField tagDetail with
  | Some field =>
      ∃ digest,
        stripsScheme field digest ∧
        (GetImageID lib c repo tag remote).2 = (digest, None)
  | None =>
      (GetImageID lib c repo tag remote).2
        = (EmptyString, Some (errNoDigest tag))
  end.
Proof.
  intros Ha Hok Hd. rewrite GetImageID_trace in Ha.
  apply doRequest_answered in Ha as [full E].
  rewrite GetImageID_result, E, Hok, Hd. simpl.
  assert (Hstrip : ∀ field, stripsScheme field (TrimPrefix field "sha256:")).
  { intros field. unfold stripsScheme.
    destruct (TrimPrefix_spec field "sha256:") as [(r & -> & ->)|[Hn ->]];
      [by left | by right]. }
  unfold preferredField.
  destruct (decide (ManifestDigest tagDetail ≠ EmptyString)) as [Hm|Hm].
  { apply isEmpty_false in Hm. rewrite Hm. simpl. eauto. }
  apply dec_stable in Hm. rewrite Hm. simpl.
  destruct (decide (ImageID tagDetail ≠ EmptyString)) as [Hi|Hi].
  { apply isEmpty_false in Hi. rewrite Hi. simpl. eauto. }
  apply dec_stable in Hi. by rewrite Hi.
Qed.

Lemma GetImageID_prefers_manifest_digest_witness :
  ∃ digest,
    stripsScheme "sha256:abc123" digest ∧
    (GetImageID sampleLib sampleClient "coreos/etcd" "v3.5.0"
       (sampleRemote "sha256:abc123|sha256:legacy" "scanned")).2
      = (digest, None).
Proof.
  apply (GetImageID_prefers_manifest_digest sampleLib sampleClient
           "coreos/etcd" "v3.5.0" (sampleRemote "sha256:abc123|sha256:legacy" "scanned")
           (mkResponse 200 " OK" "sha256:abc123|sha256:legacy" 27)
           (mkTagDetail EmptyString "sha256:abc123" "sha256:legacy"
              EmptyString 0 false 0 None false)).
  - eexists. split; reflexivity.
  - reflexivity.
  - reflexivity.
Defined.

(** C3 fails on the code.  A tag detail whose manifest digest is the bare
    scheme prefix makes [GetImageID] return the empty digest with no error:
    the field is tested for emptiness before the prefix is stripped. *)
Lemma GetImageID_bare_scheme (lib : GoLib) (c : Client lib)
    (repo tag : string) (remote : Remote) (resp : Response)
    (tagDetail : TagDetail) :
  answers remote (GetImageID lib c repo tag remote).1 resp →
  StatusCode resp = StatusOK →
  json_DecodeTagDetail lib (Body resp) = inr tagDetail →
  ManifestDigest tagDetail = "sha256:" →
  (GetImageID lib c repo tag remote).2 = (EmptyString, None).
Proof.
  intros Ha Hok Hd Hm. rewrite GetImageID_trace in Ha.
  apply doRequest_answered in Ha as [full E].
  rewrite GetImageID_result, E, Hok, Hd. simpl. by rewrite Hm.
Qed.

(** C3 at a concrete answer: the tag lookup is answered with the manifest
    digest [sha256:] and no legacy image id, and [GetImageID] succeeds
    with the empty digest. *)
Example GetImageID_empty_digest :
  (GetImageID sampleLib sampleClient "coreos/etcd" "v3.5.0"
     (sampleRemote "sha256:|" "scanned")).2 = (EmptyString, None).
Proof. reflexivity. Qed.

(** The same happens through the fallback field. *)
Example GetImageID_empty_digest_legacy :
  (GetImageID sampleLib sampleClient "coreos/etcd" "v3.5.0"
     (sampleRemote "|sha256:" "scanned")).2 = (EmptyString, None).
Proof. reflexivity. Qed.

(** What does hold: a digest returned without error is empty only in that
    case, the field chosen from the tag detail that the lookup decoded
    being exactly [sha256:]. *)
Lemma GetImageID_digest_empty_only_bare (lib : GoLib) (c : Client lib)
    (repo tag : string) (remote : Remote) :
  (GetImageID lib c repo tag remote).2 = (EmptyString, None) →
  ∃ tagDetail,
    (doRequest lib (json_DecodeTagDetail lib) c "GET"
       ("repository/" +:+ repo +:+ "/tag/" +:+ url_PathEscape lib tag)
       remote).2 = inr tagDetail
    ∧ preferredField tagDetail = Some "sha256:".
Proof.
  rewrite GetImageID_result.
  destruct (doRequest _ _ _ _ _ _).2 as [e|td].
  { by destruct (Contains e _). }
  assert (Hbare : ∀ field,
            field ≠ EmptyString → TrimPrefix field "sha256:" = EmptyString →
            field = "sha256:").
  { intros field Hne Ht.
    destruct (TrimPrefix_spec field "sha256:") as [(r & -> & E)|[_ E]];
      rewrite E in Ht; [by subst r | done]. }
  destruct (isEmpty (ManifestDigest td)) eqn:Em; simpl.
  - destruct (isEmpty (ImageID td)) eqn:Ei; simpl; [done |].
    intros [= Ht]. exists td. split; [done |]. unfold preferredField.
    apply isEmpty_true in Em. apply isEmpty_false in Ei.
    rewrite decide_False by (by intros []).
    rewrite decide_True by done. f_equal. by apply Hbare.
  - intros [= Ht]. exists td. split; [done |]. unfold preferredField.
    apply isEmpty_false in Em.
    rewrite decide_True by done. f_equal. by apply Hbare.
Qed.

(** C6.  A report that is received and decoded is returned as it is, with
    no error, whatever its status; a status other than [scanned] only adds
    a warning to the log. *)
Theorem GetVulnerabilities_returns_any_status (lib : GoLib) (c : Client lib)
    (repo imageDigest : string) (remote : Remote) (resp : Response)
    (report : SecurityReport) :
  answers remote (GetVulnerabilities lib c repo imageDigest remote).1 resp →
  StatusCode resp = StatusOK →
  json_DecodeSecurityReport lib (Body resp) = inr report →
  (GetVulnerabilities lib c repo imageDigest remote).2 = (Some report, None)
  ∧ (Status report ≠ "scanned" →
       Logged (warnNotScanned repo imageDigest (Status report))
         ∈ (GetVulnerabilities lib c repo imageDigest remote).1).
Proof.
  intros Ha Hok Hd. unfold answers in Ha.
  rewrite GetVulnerabilities_sent in Ha.
  apply doRequest_answered in Ha as [full E].
  rewrite Hok, Hd in E. simpl in E. split.
  - by rewrite GetVulnerabilities_result, E.
  - intros Hs. rewrite GetVulnerabilities_trace. simpl. rewrite E.
    apply String.eqb_neq in Hs. rewrite Hs. simpl.
    apply elem_of_app. right. by apply list_elem_of_singleton.
Qed.

Lemma GetVulnerabilities_returns_any_status_witness :
  (GetVulnerabilities sampleLib sampleClient "coreos/etcd" "abc123"
     (sampleRemote "sha256:abc123|" "queued")).2
  = (Some (mkSecurityReport "queued"
             (mkSecurityData (mkLayer EmptyString EmptyString 0 []))), None).
Proof.
  apply (GetVulnerabilities_returns_any_status sampleLib sampleClient
           "coreos/etcd" "abc123" (sampleRemote "sha256:abc123|" "queued")
           (mkResponse 200 " OK" "queued" 6)).
  - eexists. split; reflexivity.
  - reflexivity.
  - reflexivity.
Defined.

(** ** The per-image task *)

Section TaskFacts.

Context (lib : GoLib).
Implicit Types (c : Client lib) (remote : Remote).

(** [processImage] written out step by step. *)
Lemma processImage_unfold imageURL c remote :
  processImage lib imageURL c remote =
    match parseImageURL imageURL with
    | (_, _, Some cause) =>
        ([], mkImageScanResult imageURL None ("Parsing URL failed: " +:+ cause))
    | (repo, tag, None) =>
        let digest := GetImageID lib c repo tag remote in
        match digest.2 with
        | (_, Some cause) =>
            (digest.1,
             mkImageScanResult imageURL None
               ("Getting image ID failed: " +:+ cause))
        | (imageID, None) =>
            if isEmpty imageID then
              (digest.1,
               mkImageScanResult imageURL None
                 ("Could not find image ID for tag '" +:+ tag
                    +:+ "' (tag might not exist)"))
            else
              let fetch := GetVulnerabilities lib c repo imageID remote in
              match fetch.2 with
              | (report, Some cause) =>
                  (digest.1 ++ fetch.1,
                   mkImageScanResult imageURL report
                     ("Getting vulnerabilities failed: " +:+ cause))
              | (report, None) =>
                  (digest.1 ++ fetch.1,
                   mkImageScanResult imageURL report EmptyString)
              end
        end
    end.
Proof.
  unfold processImage.
  destruct (parseImageURL imageURL) as [[repo tag] [cause|]]; [done |].
  net_unfold. simpl.
  destruct (GetImageID lib c repo tag remote) as [t1 [imageID [cause|]]]; simpl.
  { by rewrite app_nil_r. }
  destruct (isEmpty imageID); simpl.
  { by rewrite app_nil_r. }
  destruct (GetVulnerabilities lib c repo imageID remote)
    as [t2 [report [cause|]]]; simpl.
  - destruct report; simpl; by rewrite app_nil_r.
  - by rewrite app_nil_r.
Qed.

(** [GetVulnerabilities] hands back a report or an error, never both and
    never neither. *)
Lemma GetVulnerabilities_report_xor_error c repo imageDigest remote :
  let out := (GetVulnerabilities lib c repo imageDigest remote).2 in
  (out.1 = None ∧ out.2 ≠ None) ∨ (out.1 ≠ None ∧ out.2 = None).
Proof.
  simpl. rewrite GetVulnerabilities_result.
  destruct (doRequest _ _ _ _ _ _).2 as [e|report].
  - left. by destruct (Contains e _).
  - by right.
Qed.

(** A lookup puts at most one request on the wire. *)
Lemma doRequest_sent_once {T} (decode : string → string + T)
    c method path remote :
  length (sent (doRequest lib decode c method path remote).1) ≤ 1.
Proof.
  destruct (doRequest_cases lib decode c method path remote)
    as [[e ->]|(req & full & _ & ->)]; simpl; lia.
Qed.

Lemma GetImageID_sent_once c repo tag remote :
  length (sent (GetImageID lib c repo tag remote).1) ≤ 1.
Proof. rewrite GetImageID_trace. apply doRequest_sent_once. Qed.

Lemma GetVulnerabilities_sent_once c repo imageDigest remote :
  length (sent (GetVulnerabilities lib c repo imageDigest remote).1) ≤ 1.
Proof. rewrite GetVulnerabilities_sent. apply doRequest_sent_once. Qed.

Lemma processImage_ImageURL imageURL c remote :
  ImageURL (processImage lib imageURL c remote).2 = imageURL.
Proof.
  rewrite processImage_unfold.
  destruct (parseImageURL imageURL) as [[repo tag] [cause|]]; [done |].
  simpl. destruct (GetImageID lib c repo tag remote).2 as [imageID [cause|]];
    [done |].
  destruct (isEmpty imageID); [done |].
  by destruct (GetVulnerabilities lib c repo imageID remote).2
    as [report [cause|]].
Qed.

(** The result holds a report or an error, never both and never neither. *)
Lemma processImage_xor imageURL c remote :
  let result := (processImage lib imageURL c remote).2 in
  (Report result ≠ None ∧ Error result = EmptyString)
  ∨ (Report result = None ∧ Error result ≠ EmptyString).
Proof.
  simpl. rewrite processImage_unfold.
  destruct (parseImageURL imageURL) as [[repo tag] [cause|]]; [by right |].
  simpl. destruct (GetImageID lib c repo tag remote).2 as [imageID [cause|]];
    [by right |].
  destruct (isEmpty imageID); [by right |].
  pose proof (GetVulnerabilities_report_xor_error c repo imageID remote) as Hx.
  simpl in Hx.
  destruct (GetVulnerabilities lib c repo imageID remote).2
    as [report [cause|]]; simpl in *.
  - right. by destruct Hx as [[-> _]|[_ ?]].
  - left. by destruct Hx as [[_ ?]|[? _]].
Qed.

End TaskFacts.

(** C2.  [processImage] is a pipeline of three steps that stops at the
    first failure.  A reference that does not parse gives the parse error
    and no report, and nothing is sent.  A failed digest lookup, or one
    that succeeds with the empty digest, gives the digest error and no
    report, and the events are those of that lookup alone, one request at
    most.  A failed report lookup gives the fetch error.  Only when the
    three steps succeed does the result carry the report and no error. *)
Theorem processImage_pipeline (lib : GoLib) (c : Client lib)
    (imageURL : string) (remote : Remote) :
  let out := processImage lib imageURL c remote in
  match parseImageURL imageURL with
  | (_, _, Some cause) =>
      out.2 = mkImageScanResult imageURL None ("Parsing URL failed: " +:+ cause)
      ∧ out.1 = []
  | (repo, tag, None) =>
      let digest := GetImageID lib c repo tag remote in
      match digest.2 with
      | (_, Some cause) =>
          out.2 = mkImageScanResult imageURL None
                    ("Getting image ID failed: " +:+ cause)
          ∧ out.1 = digest.1 ∧ length (sent out.1) ≤ 1
      | (imageID, None) =>
          if decide (imageID = EmptyString) then
            out.2 = mkImageScanResult imageURL None
                      ("Could not find image ID for tag '" +:+ tag
                         +:+ "' (tag might not exist)")
            ∧ out.1 = digest.1 ∧ length (sent out.1) ≤ 1
          else
            let fetch := GetVulnerabilities lib c repo imageID remote in
            match fetch.2 with
            | (report, Some cause) =>
                out.2 = mkImageScanResult imageURL None
                          ("Getting vulnerabilities failed: " +:+ cause)
                ∧ report = None
                ∧ out.1 = digest.1 ++ fetch.1
            | (report, None) =>
                out.2 = mkImageScanResult imageURL report EmptyString
                ∧ report ≠ None
                ∧ out.1 = digest.1 ++ fetch.1
            end
      end
  end.
Proof.
  simpl. rewrite processImage_unfold.
  destruct (parseImageURL imageURL) as [[repo tag] [cause|]]; [done |].
  simpl.
  pose proof (GetImageID_sent_once lib c repo tag remote) as Hone.
  destruct (GetImageID lib c repo tag remote) as [t1 [imageID [cause|]]];
    simpl in *; [done |].
  destruct (decide (imageID = EmptyString)) as [->|Hne]; [done |].
  apply isEmpty_false in Hne. rewrite Hne.
  pose proof (GetVulnerabilities_report_xor_error lib c repo imageID remote)
    as Hx.
  destruct (GetVulnerabilities lib c repo imageID remote)
    as [t2 [report [cause|]]]; simpl in *.
  - destruct Hx as [[-> _]|[_ ?]]; done.
  - destruct Hx as [[_ ?]|[? _]]; done.
Qed.

(** C10.  The result of [processImage] names the reference it was given
    and holds a report or an error, never both and never neither; the
    branch that would attach a report next to an error is dead, since
    [GetVulnerabilities] returns no report with an error. *)
Theorem processImage_report_xor_error (lib : GoLib) (c : Client lib)
    (imageURL : string) (remote : Remote) :
  let result := (processImage lib imageURL c remote).2 in
  ImageURL result = imageURL
  ∧ ((Report result ≠ None ∧ Error result = EmptyString)
     ∨ (Report result = None ∧ Error result ≠ EmptyString))
  ∧ (∀ repo imageDigest remote',
       (GetVulnerabilities lib c repo imageDigest remote').2.2 ≠ None →
       (GetVulnerabilities lib c repo imageDigest remote').2.1 = None).
Proof.
  simpl. split; [apply processImage_ImageURL |]. split.
  - apply processImage_xor.
  - intros repo imageDigest remote' He.
    destruct (GetVulnerabilities_report_xor_error lib c repo imageDigest
                remote') as [[? _]|[_ ?]]; done.
Qed.

(** ** The worker pool *)


Section PoolFacts.

Context (lib : GoLib) (quayClient : Client lib).
Variable remotes : nat → Remote.
Variable imageURLs : list string.
Variable numWorkers : Z.

Local Abbreviation Task := (runTask lib quayClient remotes).
Local Abbreviation Step := (step lib quayClient remotes imageURLs numWorkers).
Local Abbreviation Exec := (exec lib quayClient remotes imageURLs numWorkers).
Local Abbreviation N := (numJobs imageURLs).
Local Abbreviation Accounted := (accounted lib quayClient remotes imageURLs).

Lemma held_app ws1 ws2 : held (ws1 ++ ws2) = held ws1 ++ held ws2.
Proof. apply omap_app. Qed.

(** Replacing a worker's state changes what it holds, and nothing else. *)
Lemma held_insert ws k w w' :
  ws !! k = Some w →
  held ws = held (take k ws) ++ option_list (heldBy w) ++ held (drop (S k) ws)
  ∧ held (<[k:=w']> ws)
    = held (take k ws) ++ option_list (heldBy w') ++ held (drop (S k) ws).
Proof.
  intros Hk. split.
  - rewrite <- (take_drop_middle ws k w Hk) at 1.
    rewrite held_app. by destruct w.
  - rewrite insert_take_drop by (by eapply lookup_lt_Some).
    rewrite held_app. by destruct w'.
Qed.

Lemma Task_ImageURL j : ImageURL (Task j) = j.2.
Proof. apply processImage_ImageURL. Qed.

Lemma accounted_start : Accounted start.
Proof. exists [], []. by repeat split. Qed.

Lemma accounted_step g s s' : Accounted s → Step g s = Some s' → Accounted s'.
Proof.
  intros (cj & rj & Hm & Hr & Hp & Hc & Hns & Hret) Hstep.
  destruct s as [p js cl ws rs co m]. simpl in *.
  destruct g as [|k|]; simpl in Hstep.
  - unfold stepMain in Hstep; simpl in Hstep.
    repeat case_match; simplify_eq; exists cj, rj; simpl in *.
    all: repeat split; try done.
    + by rewrite held_app, app_nil_r.
    + by rewrite <- app_assoc.
    + specialize (Hns eq_refl). subst co. simpl in Hc. by subst cj.
  - unfold stepWorker in Hstep; simpl in Hstep.
    destruct (ws !! k) as [w|] eqn:Hk; [| done].
    destruct w as [|j|]; [| | done].
    + destruct js as [|j queue].
      * destruct cl; [| done]. simplify_eq. exists cj, rj; simpl.
        repeat split; try done.
        destruct (held_insert ws k Receiving Exited Hk) as [E1 E2].
        rewrite E2. by rewrite E1 in Hp.
      * simplify_eq. exists cj, rj; simpl. repeat split; try done.
        destruct (held_insert ws k Receiving (Processing j) Hk) as [E1 E2].
        rewrite E2. rewrite E1 in Hp. simpl in *. rewrite <- Hp.
        solve_Permutation.
    + case_decide; [| done]. simplify_eq. exists cj, (rj ++ [j]); simpl.
      repeat split; try done.
      * by rewrite fmap_app.
      * destruct (held_insert ws k (Processing j) Receiving Hk) as [E1 E2].
        rewrite E2. rewrite E1 in Hp. simpl in *. rewrite <- Hp.
        solve_Permutation.
  - unfold stepCollector in Hstep; simpl in Hstep.
    destruct co as [|i|]; [done | | done]. simpl in Hc.
    case_decide.
    + destruct rs as [|result queue]; [done |]. simplify_eq.
      destruct rj as [|j rj]; [done |]. simpl in Hr. simplify_eq.
      exists (cj ++ [j]), rj; simpl.
      repeat split; try done;
        try (intros Hf; by (specialize (Hns Hf) || specialize (Hret Hf))).
      * by rewrite fmap_app, foldl_app.
      * rewrite <- Hp. solve_Permutation.
      * rewrite length_app. simpl. lia.
    + simplify_eq. exists cj, rj; simpl.
      repeat split; try done;
        try (intros Hf; by (specialize (Hns Hf) || specialize (Hret Hf))).
      lia.
Qed.

Lemma accounted_exec schedule s s' :
  Accounted s → Exec schedule s = Some s' → Accounted s'.
Proof.
  revert s. induction schedule as [|g schedule IH]; intros s Hs; simpl.
  - by intros [= <-].
  - destruct (Step g s) as [s1|] eqn:Hg; [| done].
    apply IH. by eapply accounted_step.
Qed.


Lemma length_jobsOf : length (jobsOf imageURLs) = N.
Proof. unfold jobsOf, numJobs. rewrite length_zip_with, length_seq. lia. Qed.

Lemma jobsOf_urls : (jobsOf imageURLs).*2 = imageURLs.
Proof. unfold jobsOf. apply snd_zip. by rewrite length_seq. Qed.

Lemma elem_of_jobsOf (j : Job) :
  j ∈ jobsOf imageURLs ↔ imageURLs !! j.1 = Some j.2.
Proof.
  unfold jobsOf. rewrite list_elem_of_lookup. destruct j as [i u]. simpl.
  split.
  - intros [k Hk]. apply lookup_zip_Some in Hk as [Hi Hu].
    apply lookup_seq in Hi as [-> _]. done.
  - intros Hi. exists i. apply lookup_zip_Some. split; [| done].
    apply lookup_seq. split; [done |]. by eapply lookup_lt_Some.
Qed.

(** When [runWorkerPool] has returned, the map holds the results of the
    whole batch, inserted in the order they were collected. *)
Lemma accounted_returned s :
  Accounted s → pc s = Returned →
  ∃ cj, cj ≡ₚ jobsOf imageURLs
        ∧ allResults s = foldl insertResult ∅ (Task <$> cj).
Proof.
  intros (cj & rj & Hm & Hr & Hp & Hc & Hns & Hret) Hpc.
  rewrite (Hret Hpc) in Hc. simpl in Hc. rewrite Hpc in Hp. simpl in Hp.
  pose proof (Permutation_length Hp) as Hl.
  rewrite !length_app, length_jobsOf in Hl.
  assert (rj = []) as -> by (apply length_zero_iff_nil; lia).
  assert (held (workers s) = []) as E1 by (apply length_zero_iff_nil; lia).
  assert (jobs s = []) as E2 by (apply length_zero_iff_nil; lia).
  rewrite E1, E2 in Hp. simpl in Hp. rewrite app_nil_r in Hp.
  by exists cj.
Qed.

End PoolFacts.

(** ** Maps built by inserting results in turn *)

Section ResultMaps.

Implicit Types (rs : list ImageScanResult) (m : gmap string ImageScanResult).

Lemma foldl_insertResult_dom rs m :
  dom (foldl insertResult m rs) = dom m ∪ list_to_set (ImageURL <$> rs).
Proof.
  revert m. induction rs as [|r rs IH]; intros m; simpl.
  - by rewrite union_empty_r_L.
  - rewrite IH. unfold insertResult. rewrite dom_insert_L. set_solver.
Qed.

Lemma foldl_insertResult_lookup rs m u r :
  foldl insertResult m rs !! u = Some r →
  (r ∈ rs ∧ ImageURL r = u) ∨ m !! u = Some r.
Proof.
  revert m. induction rs as [|r' rs IH]; intros m; simpl.
  - by right.
  - intros H. apply IH in H as [[H1 H2]|H].
    + left. split; [by right | done].
    + unfold insertResult in H.
      destruct (decide (ImageURL r' = u)) as [E|E].
      * rewrite E, lookup_insert_eq in H. simplify_eq. left.
        split; [by left | done].
      * rewrite lookup_insert_ne in H by done. by right.
Qed.

(** the last result for a key decides its entry *)
Lemma foldl_insertResult_last rs r m :
  foldl insertResult m (rs ++ [r]) !! ImageURL r = Some r.
Proof. rewrite foldl_app. simpl. apply lookup_insert_eq. Qed.

Lemma foldl_insertResult_other rs r m u :
  ImageURL r ≠ u →
  foldl insertResult m (rs ++ [r]) !! u = foldl insertResult m rs !! u.
Proof. intros H. rewrite foldl_app. simpl. by apply lookup_insert_ne. Qed.

End ResultMaps.

Section PoolSafety.

Context (lib : GoLib) (quayClient : Client lib).
Variable remotes : nat → Remote.
Variable imageURLs : list string.
Variable numWorkers : Z.

Local Abbreviation Task := (runTask lib quayClient remotes).
Local Abbreviation Returns :=
  (returns lib quayClient remotes imageURLs numWorkers).
Local Abbreviation Built := (builtFromBatch lib quayClient remotes imageURLs).

Lemma returns_builtFromBatch m : Returns m → Built m.
Proof.
  intros (schedule & s & Hexec & Hpc & <-).
  eapply accounted_returned; [| done].
  eapply accounted_exec; [apply accounted_start | done].
Qed.


Lemma builtFromBatch_dom m :
  Built m → dom m = list_to_set imageURLs.
Proof.
  intros (cj & Hp & ->). rewrite foldl_insertResult_dom, dom_empty_L.
  rewrite union_empty_l_L, <- list_fmap_compose.
  rewrite (list_fmap_ext (ImageURL ∘ Task) snd cj)
    by (intros; apply Task_ImageURL).
  rewrite Hp. by rewrite jobsOf_urls.
Qed.

Lemma builtFromBatch_entry m u r :
  Built m → m !! u = Some r →
  ∃ i, imageURLs !! i = Some u ∧ r = Task (i, u).
Proof.
  intros (cj & Hp & ->) Hr.
  apply foldl_insertResult_lookup in Hr as [[Hin Hu]|Hr]; [| done].
  apply list_elem_of_fmap in Hin as ([i u'] & -> & Hj).
  rewrite Hp in Hj. apply elem_of_jobsOf in Hj. simpl in Hj.
  rewrite Task_ImageURL in Hu. simpl in Hu. subst u'. by exists i.
Qed.



End PoolSafety.

(** ** The pool returns *)

Lemma wrapInt_in_range z : (- 2 ^ 63 ≤ z < 2 ^ 63)%Z → wrapInt z = z.
Proof. intros H. unfold wrapInt. rewrite Z.mod_small; lia. Qed.

Lemma elem_of_insert_inv {A} (l : list A) k x y :
  x ∈ <[k:=y]> l → x = y ∨ x ∈ l.
Proof.
  intros H. apply list_elem_of_lookup in H as [i Hi].
  apply list_lookup_insert_Some in Hi as [(-> & -> & _)|[_ Hi]].
  - by left.
  - right. by eapply list_elem_of_lookup_2.
Qed.

Lemma workerWeight_insert ws k w w' :
  ws !! k = Some w →
  sum_list_with workerWeight (<[k:=w']> ws) + workerWeight w
    = sum_list_with workerWeight ws + workerWeight w'.
Proof.
  intros Hk.
  rewrite <- (take_drop_middle ws k w Hk) at 2.
  rewrite insert_take_drop by (by eapply lookup_lt_Some).
  rewrite !sum_list_with_app. simpl. lia.
Qed.

Lemma exec_app lib quayClient remotes imageURLs numWorkers l1 l2 s :
  exec lib quayClient remotes imageURLs numWorkers (l1 ++ l2) s
  = exec lib quayClient remotes imageURLs numWorkers l1 s
      ≫= exec lib quayClient remotes imageURLs numWorkers l2.
Proof.
  revert s. induction l1 as [|g l1 IH]; intros s; simpl; [done |].
  by destruct (step _ _ _ _ _ g s).
Qed.

Lemma not_all_exited ws :
  forallb isExited ws = false → ∃ k w, ws !! k = Some w ∧ w ≠ Exited.
Proof.
  induction ws as [|w ws IH]; simpl; [done |].
  destruct w; simpl; try (by intros _; eexists 0, _).
  intros H. destruct (IH H) as (k & w & Hk & Hw). by exists (S k), w.
Qed.

Section PoolLiveness.

Context (lib : GoLib) (quayClient : Client lib).
Variable remotes : nat → Remote.
Variable imageURLs : list string.
Variable numWorkers : Z.
Hypothesis numWorkers_ok : (0 < numWorkers < intMax)%Z.

Local Abbreviation Step := (step lib quayClient remotes imageURLs numWorkers).
Local Abbreviation Exec := (exec lib quayClient remotes imageURLs numWorkers).
Local Abbreviation N := (numJobs imageURLs).
Local Abbreviation Accounted := (accounted lib quayClient remotes imageURLs).
Local Abbreviation Staffed := (staffed numWorkers).
Local Abbreviation Weight := (weight imageURLs numWorkers).

Lemma staffed_start : Staffed start.
Proof.
  unfold staffed, intMax in *. simpl. split_and!; try done; try lia.
  intros Hin. by apply elem_of_nil in Hin.
Qed.

Lemma staffed_step g s s' : Staffed s → Step g s = Some s' → Staffed s'.
Proof.
  intros (Hn & Hcl & Hco & Hex & Hwt) Hstep.
  destruct s as [p js cl ws rs co m]. simpl in *.
  destruct g as [|k|]; simpl in Hstep.
  - unfold stepMain in Hstep; simpl in Hstep.
    repeat case_match; simplify_eq; unfold staffed; simpl in *.
    all: rewrite ?wrapInt_in_range by (unfold intMax in *; lia).
    all: split_and!; try done; try lia.
    + rewrite length_app. simpl. lia.
    + intros Hin. apply elem_of_app in Hin as [Hin|Hin]; [by apply Hex in Hin |].
      by apply list_elem_of_singleton in Hin.
    + intros Hin. by apply Hex in Hin as [? _].
    + intros Hin. by apply Hex in Hin as [? _].
    + intros _. apply Forall_forall. intros x Hx.
      match goal with
      | Hall : forallb isExited ws = true |- _ =>
          rewrite forallb_forall in Hall;
          apply list_elem_of_In, Hall in Hx
      end.
      by destruct x.
  - unfold stepWorker in Hstep; simpl in Hstep.
    destruct (ws !! k) as [w|] eqn:Hk; [| done].
    assert (Hnw : waitingAt p = true → w = Exited).
    { intros Hp. eapply Forall_lookup_1 in Hk; [| by apply Hwt]. done. }
    destruct w as [|j|]; [| | done].
    + destruct js as [|j queue].
      * destruct cl eqn:Ecl; [| done]. simplify_eq. unfold staffed; simpl.
        rewrite length_insert in *. split_and!; try done.
        intros Hp. by specialize (Hnw Hp).
      * simplify_eq. unfold staffed; simpl.
        rewrite length_insert in *. split_and!; try done.
        -- intros Hin. apply elem_of_insert_inv in Hin as [Hin|Hin]; [done |].
           by apply Hex in Hin as [_ ?].
        -- intros Hp. by specialize (Hnw Hp).
    + case_decide; [| done]. simplify_eq. unfold staffed; simpl.
      rewrite length_insert in *. split_and!; try done.
      * intros Hin. apply elem_of_insert_inv in Hin as [Hin|Hin]; [done |].
        by apply Hex in Hin.
      * intros Hp. by specialize (Hnw Hp).
  - unfold stepCollector in Hstep; simpl in Hstep.
    destruct co as [|i|]; [done | | done].
    case_decide.
    + destruct rs as [|result queue]; [done |]. simplify_eq.
      unfold staffed; simpl. by split_and!.
    + simplify_eq. unfold staffed; simpl. by split_and!.
Qed.


(** Every step uses up some of the weight, so no run goes on for ever. *)
Lemma weight_step g s s' :
  Accounted s → Staffed s → Step g s = Some s' → Weight s' < Weight s.
Proof.
  intros (_ & _ & _ & _ & _ & _ & Hns & _) (Hn & _) Hstep.
  destruct s as [p js cl ws rs co m]. unfold weight. simpl in *.
  destruct g as [|k|]; simpl in Hstep.
  - unfold stepMain in Hstep; simpl in Hstep.
    repeat case_match; simplify_eq; simpl in *.
    all: rewrite ?wrapInt_in_range by (unfold intMax in *; lia).
    all: rewrite ?sum_list_with_app, ?length_app, ?length_jobsOf; simpl;
      try lia.
    rewrite (Hns eq_refl). simpl. lia.
  - unfold stepWorker in Hstep; simpl in Hstep.
    destruct (ws !! k) as [w|] eqn:Hk; [| done].
    destruct w as [|j|]; [| | done].
    + destruct js as [|j queue].
      * destruct cl; [| done]. simplify_eq. simpl.
        pose proof (workerWeight_insert ws k _ Exited Hk). simpl in *. lia.
      * simplify_eq. simpl.
        pose proof (workerWeight_insert ws k _ (Processing j) Hk).
        simpl in *. lia.
    + case_decide; [| done]. simplify_eq. simpl.
      pose proof (workerWeight_insert ws k _ Receiving Hk). simpl in *. lia.
  - unfold stepCollector in Hstep; simpl in Hstep.
    destruct co as [|i|]; [done | | done].
    case_decide.
    + destruct rs as [|result queue]; [done |]. simplify_eq. simpl. lia.
    + simplify_eq. simpl. lia.
Qed.

(** As long as main has not returned, some goroutine can move. *)
Lemma progress s :
  Accounted s → Staffed s → pc s ≠ Returned → ∃ g s', Step g s = Some s'.
Proof.
  intros (cj & rj & Hm & Hr & Hp & Hc & Hns & Hret)
         (Hn & Hcl & Hco & Hex & Hwt) Hpc.
  pose proof (Permutation_length Hp) as Hl.
  rewrite !length_app, length_jobsOf in Hl.
  assert (Hrs : length (results s) = length rj)
    by (by rewrite Hr, length_fmap).
  destruct s as [p js cl ws rs co m]. simpl in *.
  destruct p as [w|[|j rest]| | | |]; simpl in *.
  - exists Main. simpl. unfold stepMain. simpl. destruct (w <=? numWorkers)%Z; eauto.
  - exists Main. simpl. unfold stepMain. simpl. eauto.
  - exists Main. simpl. unfold stepMain. simpl.
    rewrite decide_True by lia. eauto.
  - exists Main. simpl. unfold stepMain. simpl. eauto.
  - destruct (forallb isExited ws) eqn:Hall.
    { exists Main. simpl. unfold stepMain. simpl. rewrite Hall. eauto. }
    destruct (not_all_exited ws Hall) as (k & w & Hk & Hw).
    exists (Worker k). simpl. unfold stepWorker. simpl. rewrite Hk.
    destruct w as [|j|]; [| | done].
    + destruct js; [| eauto]. rewrite Hcl. eauto.
    + destruct (held_insert ws k _ Receiving Hk) as [E _].
      rewrite E, !length_app in Hl. simpl in Hl.
      rewrite decide_True by lia. eauto.
  - destruct co as [|i|]; [by destruct Hco | |].
    + exists Collector. simpl. unfold stepCollector. simpl.
      case_decide; [| eauto].
      assert (Hws : ws ≠ []) by (intros ->; simpl in Hn; lia).
      destruct ws as [|w ws]; [done |].
      pose proof (Hwt eq_refl) as Hall.
      assert (held (w :: ws) = []) as Eh.
      { clear -Hall. induction Hall as [|x l -> _ IH]; [done | exact IH]. }
      apply Forall_cons in Hall as [-> _].
      destruct Hex as [_ ->]; [by left |].
      rewrite Eh in Hl. simpl in *. subst i.
      destruct rs; [simpl in *; lia | eauto].
    + exists Main. simpl. unfold stepMain. simpl. eauto.
  - done.
Qed.

Lemma invariants_exec schedule s s' :
  Accounted s → Staffed s → Exec schedule s = Some s' →
  Accounted s' ∧ Staffed s' ∧ length schedule + Weight s' ≤ Weight s.
Proof.
  revert s. induction schedule as [|g schedule IH]; intros s Ha Hs; simpl.
  - intros [= <-]. split; [done | split; [done | lia]].
  - destruct (Step g s) as [s1|] eqn:Hg; [| done]. intros He.
    pose proof (weight_step g s s1 Ha Hs Hg).
    apply IH in He as (? & ? & ?);
      [| by eapply accounted_step | by eapply staffed_step].
    split; [done | split; [done | lia]].
Qed.

(** From every state the pool can reach, main can go on to return. *)
Lemma can_return s :
  Accounted s → Staffed s →
  ∃ schedule s', Exec schedule s = Some s' ∧ pc s' = Returned.
Proof.
  remember (Weight s) as n eqn:Hn. revert s Hn.
  induction (lt_wf n) as [n _ IH]. intros s -> Ha Hs.
  assert (pc s = Returned ∨ pc s ≠ Returned) as [Hpc|Hpc]
    by (destruct (pc s); (by left) || (by right)).
  { by exists [], s. }
  destruct (progress s Ha Hs Hpc) as (g & s1 & Hg).
  destruct (IH (Weight s1) (weight_step g s s1 Ha Hs Hg) s1 eq_refl)
    as (schedule & s' & He & Hr).
  { by eapply accounted_step. }
  { by eapply staffed_step. }
  exists (g :: schedule), s'. simpl. by rewrite Hg.
Qed.

End PoolLiveness.

(** ** A single worker keeps the order of submission *)

Section SingleWorker.

Context (lib : GoLib) (quayClient : Client lib).
Variable remotes : nat → Remote.
Variable imageURLs : list string.

Local Abbreviation Task := (runTask lib quayClient remotes).
Local Abbreviation Step1 := (step lib quayClient remotes imageURLs 1).
Local Abbreviation Exec1 := (exec lib quayClient remotes imageURLs 1).
Local Abbreviation InOrder := (inOrder lib quayClient remotes imageURLs).






End SingleWorker.

(** ** Where the pool does not do what a sequential pass does *)


Section WorkerCountOverflow.

Context (lib : GoLib) (quayClient : Client lib).
Variable remotes : nat → Remote.
Variable imageURLs : list string.

Local Abbreviation StepMax :=
  (step lib quayClient remotes imageURLs intMax).
Local Abbreviation ExecMax :=
  (exec lib quayClient remotes imageURLs intMax).




End WorkerCountOverflow.




(** ** Failure isolation *)

Section RemoteExt.

Context (lib : GoLib).
Implicit Types (c : Client lib) (remote : Remote).

(** The client reads the remote through its answers only. *)
Lemma doRequest_ext {T} (decode : string → string + T)
    c method path remote remote' :
  (∀ req, remote' req = remote req) →
  doRequest lib decode c method path remote'
    = doRequest lib decode c method path remote.
Proof.
  intros H. unfold doRequest.
  destruct (url_Parse lib path) as [e|relURL]; [done |].
  destruct (http_NewRequest lib method _) as [e|]; [done |].
  net_unfold. simpl. rewrite H.
  destruct (remote _) as [e|resp]; [done |].
  destruct (negb _); [done |]. by destruct (decode _).
Qed.

Lemma GetImageID_ext c repo tag remote remote' :
  (∀ req, remote' req = remote req) →
  GetImageID lib c repo tag remote' = GetImageID lib c repo tag remote.
Proof.
  intros H. unfold GetImageID. net_unfold.
  rewrite (doRequest_ext _ _ _ _ _ _ H).
  destruct (doRequest _ _ _ _ _ _) as [t [e|td]].
  - by destruct (Contains e _).
  - by destruct (negb (isEmpty (ManifestDigest td))),
         (negb (isEmpty (ImageID td))).
Qed.

Lemma GetVulnerabilities_ext c repo imageDigest remote remote' :
  (∀ req, remote' req = remote req) →
  GetVulnerabilities lib c repo imageDigest remote'
    = GetVulnerabilities lib c repo imageDigest remote.
Proof.
  intros H. unfold GetVulnerabilities. net_unfold.
  rewrite (doRequest_ext _ _ _ _ _ _ H).
  destruct (doRequest _ _ _ _ _ _) as [t [e|report]].
  - by destruct (Contains e _).
  - by destruct (negb _).
Qed.

Lemma processImage_ext imageURL c remote remote' :
  (∀ req, remote' req = remote req) →
  processImage lib imageURL c remote' = processImage lib imageURL c remote.
Proof.
  intros H. rewrite !processImage_unfold.
  destruct (parseImageURL imageURL) as [[repo tag] [cause|]]; [done |].
  rewrite (GetImageID_ext _ _ _ _ _ H). simpl.
  destruct (GetImageID lib c repo tag remote).2 as [imageID [cause|]];
    [done |].
  destruct (isEmpty imageID); [done |].
  by rewrite (GetVulnerabilities_ext _ _ _ _ _ H).
Qed.

End RemoteExt.

Section Isolation.

Context (lib : GoLib) (quayClient : Client lib).
Variables remotes remotes' : nat → Remote.
Variable imageURLs : list string.
Variable numWorkers : Z.
Variable ref : string.

(** the remote answers differently only while a submission of [ref] is
    processed *)
Hypothesis same_elsewhere :
  ∀ i req, imageURLs !! i ≠ Some ref → remotes' i req = remotes i req.

Local Abbreviation Task := (runTask lib quayClient remotes).
Local Abbreviation Task' := (runTask lib quayClient remotes').
Local Abbreviation Step := (step lib quayClient remotes imageURLs numWorkers).
Local Abbreviation Step' := (step lib quayClient remotes' imageURLs numWorkers).
Local Abbreviation Exec := (exec lib quayClient remotes imageURLs numWorkers).
Local Abbreviation Exec' := (exec lib quayClient remotes' imageURLs numWorkers).
Local Abbreviation Accounted := (accounted lib quayClient remotes imageURLs).

Lemma Task_agreeOff j :
  j ∈ jobsOf imageURLs → agreeOff ref (Task j) (Task' j).
Proof.
  intros Hj. split; [by rewrite !Task_ImageURL |].
  rewrite Task_ImageURL. intros Hne. unfold runTask. f_equal.
  apply processImage_ext. intros req. apply same_elsewhere.
  apply elem_of_jobsOf in Hj. rewrite Hj. congruence.
Qed.

Lemma held_elem ws k j : ws !! k = Some (Processing j) → j ∈ held ws.
Proof.
  intros Hk. destruct (held_insert ws k _ Receiving Hk) as [-> _].
  apply elem_of_app. right. by left.
Qed.

Lemma alikeOff_start : alikeOff ref start start.
Proof. unfold alikeOff. simpl. by split_and!. Qed.

Lemma alikeOff_step g s s' s1 :
  Accounted s → alikeOff ref s s' → Step g s = Some s1 →
  ∃ s1', Step' g s' = Some s1' ∧ alikeOff ref s1 s1'.
Proof.
  intros (cj & rj & _ & _ & Hp & _) (E1 & E2 & E3 & E4 & E5 & Hrs & Hdom & Hm) Hstep.
  destruct s as [p js cl ws rs co m], s' as [p' js' cl' ws' rs' co' m'].
  simpl in *. subst p' js' cl' ws' co'.
  pose proof (Forall2_length _ _ _ Hrs) as Hlen.
  destruct g as [|k|]; simpl in *.
  - unfold stepMain in *; simpl in *.
    repeat case_match; simplify_eq; eexists; (split; [done |]);
      unfold alikeOff; simpl; by split_and!.
  - unfold stepWorker in *; simpl in *.
    destruct (ws !! k) as [w|] eqn:Hk; [| done].
    destruct w as [|j|]; [| | done].
    + destruct js as [|j queue].
      * destruct cl; [| done]. simplify_eq. eexists; split; [done |].
        unfold alikeOff; simpl; by split_and!.
      * simplify_eq. eexists; split; [done |].
        unfold alikeOff; simpl; by split_and!.
    + rewrite <- Hlen. case_decide; [| done]. simplify_eq.
      eexists; split; [done |]. unfold alikeOff; simpl. split_and!; try done.
      apply Forall2_app; [done |]. constructor; [| constructor].
      apply Task_agreeOff. rewrite <- Hp.
      rewrite !elem_of_app. right. right. left. by eapply held_elem.
  - unfold stepCollector in *; simpl in *.
    destruct co as [|i|]; [done | | done].
    case_decide.
    + destruct rs as [|r queue]; [done |]. simplify_eq.
      inversion Hrs as [|? r' ? queue' [Hu Hr] Hq]; subst.
      eexists; split; [done |]. unfold alikeOff; simpl.
      split_and!; try done.
      * rewrite !dom_insert_L. by rewrite Hu, Hdom.
      * intros u Hne. rewrite Hu.
        destruct (decide (ImageURL r = u)) as [<-|Hne'].
        -- rewrite !lookup_insert_eq. f_equal. by apply Hr.
        -- rewrite !lookup_insert_ne by done. by apply Hm.
    + simplify_eq. eexists; split; [done |].
      unfold alikeOff; simpl; by split_and!.
Qed.

Lemma alikeOff_exec schedule s s' s1 :
  Accounted s → alikeOff ref s s' → Exec schedule s = Some s1 →
  ∃ s1', Exec' schedule s' = Some s1' ∧ alikeOff ref s1 s1'.
Proof.
  revert s s'. induction schedule as [|g schedule IH]; intros s s' Ha Hs; simpl.
  - intros [= <-]. by exists s'.
  - destruct (Step g s) as [s2|] eqn:Hg; [| done]. intros He.
    destruct (alikeOff_step g s s' s2 Ha Hs Hg) as (s2' & -> & Hs2).
    eapply IH; [| done | done]. by eapply accounted_step.
Qed.

End Isolation.

(** C9.  Let the remote change its answers only while submissions of one
    reference are processed, for instance by failing for it.  Then the
    schedule that made the pool return still makes it return: the batch is
    not aborted.  The map has the same keys, so as many entries; the
    entries of the other references are unchanged; and the entry of the
    reference is what [processImage] returned for one of its submissions,
    a report or else an error. *)
Theorem failure_isolation (lib : GoLib) (quayClient : Client lib)
    (remotes remotes' : nat → Remote) (imageURLs : list string)
    (numWorkers : Z) (ref : string) (schedule : list Goroutine) (s : Pool) :
  (∀ i req, imageURLs !! i ≠ Some ref → remotes' i req = remotes i req) →
  exec lib quayClient remotes imageURLs numWorkers schedule start = Some s →
  pc s = Returned →
  ∃ s',
    exec lib quayClient remotes' imageURLs numWorkers schedule start = Some s'
    ∧ pc s' = Returned
    ∧ dom (allResults s') = dom (allResults s)
    ∧ size (allResults s') = size (allResults s)
    ∧ (∀ u, u ≠ ref → allResults s' !! u = allResults s !! u)
    ∧ (ref ∈ imageURLs →
       ∃ i r,
         imageURLs !! i = Some ref
         ∧ r = runTask lib quayClient remotes' (i, ref)
         ∧ allResults s' !! ref = Some r
         ∧ ImageURL r = ref
         ∧ ((Report r ≠ None ∧ Error r = EmptyString)
            ∨ (Report r = None ∧ Error r ≠ EmptyString))).
Proof.
  intros Hsame Hexec Hpc.
  destruct (alikeOff_exec lib quayClient remotes remotes' imageURLs
              numWorkers ref Hsame schedule start start s)
    as (s' & Hexec' & Hpc' & _ & _ & _ & _ & _ & Hdom & Hm);
    [apply accounted_start | apply alikeOff_start | done |].
  assert (Hret : pc s' = Returned) by congruence.
  exists s'. split; [done |]. split; [done |].
  split; [done |]. split; [by rewrite <- !size_dom, Hdom |].
  split; [done |]. intros Hin.
  assert (Hb : builtFromBatch lib quayClient remotes' imageURLs
                 (allResults s')).
  { apply (returns_builtFromBatch _ _ _ _ numWorkers).
    by exists schedule, s'. }
  assert (is_Some (allResults s' !! ref)) as [r Hr].
  { apply elem_of_dom. rewrite (builtFromBatch_dom _ _ _ _ _ Hb).
    by apply elem_of_list_to_set. }
  destruct (builtFromBatch_entry _ _ _ _ _ _ _ Hb Hr) as (i & Hi & ->).
  eexists i, _. split; [done |]. split; [done |]. split; [done |].
  split; [apply Task_ImageURL |].
  apply (processImage_xor lib ref quayClient (remotes' i)).
Qed.

Lemma failure_isolation_witness :
  ∃ s',
    exec sampleLib sampleClient failingRemotes pairBatch 2 raceSchedule start
      = Some s'
    ∧ pc s' = Returned
    ∧ dom (allResults s') = dom (allResults healthyFinal)
    ∧ size (allResults s') = size (allResults healthyFinal)
    ∧ (∀ u, u ≠ "quay.io/coreos/etcd:v3.5.0" →
            allResults s' !! u = allResults healthyFinal !! u)
    ∧ ("quay.io/coreos/etcd:v3.5.0" ∈ pairBatch →
       ∃ i r,
         pairBatch !! i = Some "quay.io/coreos/etcd:v3.5.0"
         ∧ r = runTask sampleLib sampleClient failingRemotes
                 (i, "quay.io/coreos/etcd:v3.5.0")
         ∧ allResults s' !! "quay.io/coreos/etcd:v3.5.0" = Some r
         ∧ ImageURL r = "quay.io/coreos/etcd:v3.5.0"
         ∧ ((Report r ≠ None ∧ Error r = EmptyString)
            ∨ (Report r = None ∧ Error r ≠ EmptyString))).
Proof.
  apply (failure_isolation sampleLib sampleClient healthyRemotes
           failingRemotes pairBatch 2 "quay.io/coreos/etcd:v3.5.0"
           raceSchedule healthyFinal).
  - intros [|i] req H; [by destruct H | reflexivity].
  - vm_compute. reflexivity.
  - vm_compute. reflexivity.
Defined.

(** * Further properties *)

(** ** The worker pool: channels, workers, return *)

Section PoolExtras.

Context (lib : GoLib) (quayClient : Client lib).
Variable remotes : nat → Remote.
Variable imageURLs : list string.
Variable numWorkers : Z.

Local Abbreviation Step := (step lib quayClient remotes imageURLs numWorkers).
Local Abbreviation Exec := (exec lib quayClient remotes imageURLs numWorkers).
Local Abbreviation Accounted := (accounted lib quayClient remotes imageURLs).

Lemma exec_invariant (P : Pool → Prop) schedule s s' :
  (∀ g s s', P s → Step g s = Some s' → P s') →
  P s → Exec schedule s = Some s' → P s'.
Proof.
  intros Hstep. revert s. induction schedule as [|g schedule IH]; intros s Hs; simpl.
  - by intros [= <-].
  - destruct (Step g s) as [s1|] eqn:Hg; [| done].
    apply IH. by eapply Hstep.
Qed.

Lemma settled_step g s s' : settled s → Step g s = Some s' → settled s'.
Proof.
  intros (Hcl & Hwt) Hstep.
  destruct s as [p js cl ws rs co m]. simpl in *.
  destruct g as [|k|]; simpl in Hstep.
  - unfold stepMain in Hstep; simpl in Hstep.
    repeat case_match; simplify_eq; unfold settled; simpl in *.
    all: split; try done.
    intros _. apply Forall_forall. intros x Hx.
    match goal with
    | Hall : forallb isExited ws = true |- _ =>
        rewrite forallb_forall in Hall;
        apply list_elem_of_In, Hall in Hx
    end.
    by destruct x.
  - unfold stepWorker in Hstep; simpl in Hstep.
    destruct (ws !! k) as [w|] eqn:Hk; [| done].
    assert (Hnw : waitingAt p = true → w = Exited).
    { intros Hp. eapply Forall_lookup_1 in Hk; [| by apply Hwt]. done. }
    destruct w as [|j|]; [| | done].
    all: repeat case_match; try case_decide; simplify_eq; unfold settled; simpl.
    all: try (split; [done |]; intros Hp; by specialize (Hnw Hp)).
  - unfold stepCollector in Hstep; simpl in Hstep.
    repeat case_match; try case_decide; simplify_eq; by unfold settled.
Qed.

Lemma settled_start : settled start.
Proof. by split. Qed.

Lemma length_held ws : length (held ws) ≤ length ws.
Proof.
  induction ws as [|w ws IH]; simpl; [done |].
  unfold held in *. simpl. destruct (heldBy w); simpl; lia.
Qed.

Lemma crewed_step g s s' :
  (numWorkers < intMax)%Z → crewed numWorkers s → Step g s = Some s' →
  crewed numWorkers s'.
Proof.
  intros HW Hn Hstep. unfold crewed in Hn.
  destruct s as [p js cl ws rs co m]. simpl in *.
  destruct g as [|k|]; simpl in Hstep.
  - unfold stepMain in Hstep; simpl in Hstep.
    repeat case_match; simplify_eq; unfold crewed; simpl in *.
    all: rewrite ?wrapInt_in_range by (unfold intMax in *; lia).
    all: rewrite ?length_app; simpl; lia.
  - unfold stepWorker in Hstep; simpl in Hstep.
    repeat case_match; try case_decide; simplify_eq; unfold crewed; simpl.
    all: by rewrite length_insert.
  - unfold stepCollector in Hstep; simpl in Hstep.
    repeat case_match; try case_decide; simplify_eq; by unfold crewed.
Qed.

Lemma unstaffed_step g s s' :
  (numWorkers ≤ 0)%Z → unstaffed imageURLs s → Step g s = Some s' →
  unstaffed imageURLs s'.
Proof.
  intros HW (Hws & Hrs & Hm & Hpc & Hco & Hret) Hstep. unfold unstaffed.
  destruct s as [p js cl ws rs co m]. simpl in *. subst ws rs m.
  destruct g as [|k|]; simpl in Hstep.
  - unfold stepMain in Hstep; simpl in Hstep.
    repeat case_match; simplify_eq; simpl in *; try lia.
    all: by split_and!.
  - unfold stepWorker in Hstep; simpl in Hstep. done.
  - unfold stepCollector in Hstep; simpl in Hstep.
    destruct co as [|i|]; [done | | done].
    destruct i; [| done].
    case_decide; [done |]. simplify_eq. simpl. split_and!; try done.
    unfold numJobs in *. destruct imageURLs; [done | simpl in *; lia].
Qed.

Lemma unstaffed_start : unstaffed imageURLs start.
Proof. by unfold unstaffed. Qed.

Lemma crewed_start : crewed numWorkers start.
Proof. unfold crewed. simpl. lia. Qed.

End PoolExtras.

(** X1.  A send never blocks: the two channels have room for the whole batch,
    so main can always hand over the next reference and a worker can
    always hand in its result; neither channel ever holds more than the
    batch. *)
Theorem sends_never_block (lib : GoLib) (quayClient : Client lib)
    (remotes : nat → Remote) (imageURLs : list string) (numWorkers : Z)
    (schedule : list Goroutine) (s : Pool) :
  exec lib quayClient remotes imageURLs numWorkers schedule start = Some s →
  (∀ j rest, pc s = SendJobs (j :: rest) →
     is_Some (step lib quayClient remotes imageURLs numWorkers Main s))
  ∧ (∀ k j, workers s !! k = Some (Processing j) →
       is_Some (step lib quayClient remotes imageURLs numWorkers (Worker k) s))
  ∧ length (jobs s) ≤ numJobs imageURLs
  ∧ length (results s) ≤ numJobs imageURLs.
Proof.
  intros Hexec.
  destruct (accounted_exec lib quayClient remotes imageURLs numWorkers
              schedule start s) as (cj & rj & Hm & Hr & Hp & _);
    [apply accounted_start | done |].
  pose proof (Permutation_length Hp) as Hl.
  rewrite !length_app, length_jobsOf in Hl.
  assert (Hrs : length (results s) = length rj) by (by rewrite Hr, length_fmap).
  split_and!; try lia.
  - intros j rest Hpc. simpl. unfold stepMain. rewrite Hpc in *. simpl in Hl.
    rewrite decide_True by lia. eauto.
  - intros k j Hk. simpl. unfold stepWorker. rewrite Hk.
    destruct (held_insert (workers s) k _ Receiving Hk) as [E _].
    rewrite E, !length_app in Hl. simpl in Hl.
    rewrite decide_True by lia. eauto.
Qed.

Lemma sends_never_block_witness :
  exec sampleLib sampleClient healthyRemotes pairBatch 2 midSchedule start
    = Some midState
  ∧ (∀ j rest, pc midState = SendJobs (j :: rest) →
       is_Some (step sampleLib sampleClient healthyRemotes pairBatch 2 Main
                  midState))
  ∧ (∀ k j, workers midState !! k = Some (Processing j) →
       is_Some (step sampleLib sampleClient healthyRemotes pairBatch 2
                  (Worker k) midState))
  ∧ length (jobs midState) ≤ numJobs pairBatch
  ∧ length (results midState) ≤ numJobs pairBatch.
Proof.
  split; [by vm_compute |].
  apply (sends_never_block sampleLib sampleClient healthyRemotes pairBatch 2
           midSchedule midState).
  by vm_compute.
Defined.

(** X2.  The worker count bounds the work in flight: for a count below the
    largest [int], the pool never has more workers than the count (none
    when the count is not positive), hence never more references being
    processed at once. *)
Theorem workers_bounded (lib : GoLib) (quayClient : Client lib)
    (remotes : nat → Remote) (imageURLs : list string) (numWorkers : Z)
    (schedule : list Goroutine) (s : Pool) :
  (numWorkers < intMax)%Z →
  exec lib quayClient remotes imageURLs numWorkers schedule start = Some s →
  (Z.of_nat (length (workers s)) ≤ Z.max 0 numWorkers)%Z
  ∧ (Z.of_nat (length (held (workers s))) ≤ Z.max 0 numWorkers)%Z.
Proof.
  intros HW Hexec.
  assert (Hc : crewed numWorkers s).
  { eapply (exec_invariant lib quayClient remotes imageURLs numWorkers
              (crewed numWorkers)); [| apply crewed_start | done].
    intros g s1 s2. by apply crewed_step. }
  pose proof (length_held (workers s)).
  unfold crewed in Hc. destruct (pc s); lia.
Qed.

Lemma workers_bounded_witness :
  (2 < intMax)%Z
  ∧ exec sampleLib sampleClient healthyRemotes pairBatch 2 midSchedule start
      = Some midState
  ∧ (Z.of_nat (length (workers midState)) ≤ Z.max 0 2)%Z
  ∧ (Z.of_nat (length (held (workers midState))) ≤ Z.max 0 2)%Z.
Proof.
  split; [done |]. split; [by vm_compute |].
  apply (workers_bounded sampleLib sampleClient healthyRemotes pairBatch 2
           midSchedule midState); [done | by vm_compute].
Defined.

(** X3.  Without workers the pool returns only for the empty batch, with the
    empty map; given any reference it never returns: main waits for a
    collector that waits for results nobody sends. *)
Theorem no_workers_no_return (lib : GoLib) (quayClient : Client lib)
    (remotes : nat → Remote) (imageURLs : list string) (numWorkers : Z)
    (m : gmap string ImageScanResult) :
  (numWorkers ≤ 0)%Z →
  returns lib quayClient remotes imageURLs numWorkers m
  ↔ imageURLs = [] ∧ m = ∅.
Proof.
  intros HW. split.
  - intros (schedule & s & Hexec & Hpc & <-).
    assert (Hu : unstaffed imageURLs s).
    { eapply (exec_invariant lib quayClient remotes imageURLs numWorkers
                (unstaffed imageURLs)); [| apply unstaffed_start | done].
      intros g s1 s2. by apply unstaffed_step. }
    destruct Hu as (_ & _ & Hm & _ & Hco & Hret).
    rewrite (Hret Hpc) in Hco. done.
  - intros [-> ->]. exists idleSchedule, (mkPool Returned [] true [] [] Finished ∅).
    split; [| done].
    assert (E : (1 <=? numWorkers)%Z = false) by lia.
    unfold idleSchedule, exec, step, stepMain, stepCollector, start. simpl.
    by rewrite E.
Qed.

Lemma no_workers_no_return_witness :
  (0 ≤ 0)%Z
  ∧ (returns sampleLib sampleClient healthyRemotes pairBatch 0 ∅
     ↔ pairBatch = [] ∧ (∅ : gmap string ImageScanResult) = ∅).
Proof.
  split; [done |].
  by apply (no_workers_no_return sampleLib sampleClient healthyRemotes
              pairBatch 0 ∅).
Defined.

(** X4.  When [runWorkerPool] returns it leaves nothing behind: both channels
    are empty, [jobs] is closed, every worker has left, the collector has
    ended, and no goroutine of the pool can take another step. *)
Theorem returns_clean (lib : GoLib) (quayClient : Client lib)
    (remotes : nat → Remote) (imageURLs : list string) (numWorkers : Z)
    (schedule : list Goroutine) (s : Pool) :
  exec lib quayClient remotes imageURLs numWorkers schedule start = Some s →
  pc s = Returned →
  jobs s = [] ∧ jobsClosed s = true ∧ results s = []
  ∧ Forall (λ w, w = Exited) (workers s)
  ∧ collector s = Finished
  ∧ ∀ g, step lib quayClient remotes imageURLs numWorkers g s = None.
Proof.
  intros Hexec Hpc.
  destruct (accounted_exec lib quayClient remotes imageURLs numWorkers
              schedule start s) as (cj & rj & Hm & Hr & Hp & Hc & _ & Hret);
    [apply accounted_start | done |].
  assert (Hs : settled s).
  { eapply (exec_invariant lib quayClient remotes imageURLs numWorkers settled);
      [| apply settled_start | done].
    intros g s1 s2. by apply settled_step. }
  destruct Hs as [Hcl Hwt].
  rewrite (Hret Hpc) in Hc. simpl in Hc. rewrite Hpc in Hp, Hcl, Hwt. simpl in *.
  pose proof (Permutation_length Hp) as Hl.
  rewrite !length_app, length_jobsOf in Hl.
  assert (rj = []) as -> by (apply length_zero_iff_nil; lia).
  assert (jobs s = []) as E2 by (apply length_zero_iff_nil; lia).
  specialize (Hwt eq_refl).
  split_and!; try done; [by apply Hret |].
  intros [|k|]; simpl.
  - unfold stepMain. by rewrite Hpc.
  - unfold stepWorker. destruct (workers s !! k) as [w|] eqn:Hk; [| done].
    eapply Forall_lookup_1 in Hk; [| done]. simpl in Hk. by rewrite Hk.
  - unfold stepCollector. by rewrite (Hret Hpc).
Qed.

Lemma returns_clean_witness :
  exec sampleLib sampleClient healthyRemotes pairBatch 2 raceSchedule start
    = Some healthyFinal
  ∧ pc healthyFinal = Returned
  ∧ jobs healthyFinal = [] ∧ jobsClosed healthyFinal = true
  ∧ results healthyFinal = []
  ∧ Forall (λ w, w = Exited) (workers healthyFinal)
  ∧ collector healthyFinal = Finished
  ∧ ∀ g, step sampleLib sampleClient healthyRemotes pairBatch 2 g healthyFinal
         = None.
Proof.
  split; [by vm_compute |]. split; [by vm_compute |].
  apply (returns_clean sampleLib sampleClient healthyRemotes pairBatch 2
           raceSchedule healthyFinal); by vm_compute.
Defined.

(** X5.  The references leave for the workers in the order of the batch: what
    waits on [jobs] followed by what main has still to send is always a
    final segment of the batch. *)
Theorem jobs_in_batch_order (lib : GoLib) (quayClient : Client lib)
    (remotes : nat → Remote) (imageURLs : list string) (numWorkers : Z)
    (schedule : list Goroutine) (s : Pool) :
  exec lib quayClient remotes imageURLs numWorkers schedule start = Some s →
  queued imageURLs s `suffix_of` jobsOf imageURLs.
Proof.
  apply (exec_invariant lib quayClient remotes imageURLs numWorkers
           (λ s, queued imageURLs s `suffix_of` jobsOf imageURLs));
    [| done].
  clear. intros g s s' Hq Hstep. unfold queued in *.
  destruct s as [p js cl ws rs co m]. simpl in *.
  destruct g as [|k|]; simpl in Hstep.
  - unfold stepMain in Hstep; simpl in Hstep.
    repeat case_match; simplify_eq; simpl in *; try done.
    by rewrite <- app_assoc.
  - unfold stepWorker in Hstep; simpl in Hstep.
    repeat case_match; try case_decide; simplify_eq; simpl in *; try done.
    etrans; [| done]. by apply suffix_cons_r.
  - unfold stepCollector in Hstep; simpl in Hstep.
    repeat case_match; try case_decide; simplify_eq; by simpl.
Qed.

Lemma jobs_in_batch_order_witness :
  exec sampleLib sampleClient healthyRemotes pairBatch 2 midSchedule start
    = Some midState
  ∧ queued pairBatch midState `suffix_of` jobsOf pairBatch.
Proof.
  split; [by vm_compute |].
  apply (jobs_in_batch_order sampleLib sampleClient healthyRemotes pairBatch 2
           midSchedule midState).
  by vm_compute.
Defined.

(** ** The requests of a task *)

Section RequestFacts.

Context (lib : GoLib).
Implicit Types (c : Client lib) (remote : Remote).

Lemma length_sliceTo n s : String.length (sliceTo n s) ≤ n.
Proof.
  revert s. induction n as [|n IH]; intros [|a s]; simpl; try lia.
  specialize (IH s). lia.
Qed.

Lemma sliceTo_sliceFrom n s : sliceTo n s +:+ sliceFrom n s = s.
Proof.
  revert s. induction n as [|n IH]; intros [|a s]; simpl; try done.
  rewrite append_cons. by rewrite IH.
Qed.

(** The request [doRequest] builds does not depend on the remote; the
    remote's answer to it decides the result. *)
Lemma doRequest_request {T} (decode : string → string + T) c method path :
  (∃ e, ∀ remote, doRequest lib decode c method path remote = ([], inl e))
  ∨ (∃ req full,
       Method req = method
       ∧ URL req = full
       ∧ Header req
         = [("User-Agent", UserAgent c)]
             ++ (if isEmpty (Token c) then []
                 else [("Authorization", "Bearer " +:+ Token c)])
       ∧ ∀ remote,
           doRequest lib decode c method path remote =
             ([Sent req],
              match remote req with
              | inl err =>
                  inl ("failed to execute request to " +:+ full +:+ ": " +:+ err)
              | inr resp =>
                  if StatusCode resp =? StatusOK then
                    match decode (Body resp) with
                    | inl err =>
                        inl ("failed to decode JSON response from " +:+ full
                               +:+ ": " +:+ err)
                    | inr v => inr v
                    end
                  else
                    inl ("API request to " +:+ full +:+ " failed with status "
                           +:+ respStatus resp +:+ ". Body snippet: "
                           +:+ sliceTo (FirstRead resp `min` 512) (Body resp))
              end)).
Proof.
  unfold doRequest. destruct (url_Parse lib path) as [e|relURL].
  { left. by eexists. }
  destruct (http_NewRequest lib method _) as [e|].
  { left. by eexists. }
  right. net_unfold. simpl.
  set (full := url_String lib (url_ResolveReference lib (BaseURL c) relURL)).
  destruct (isEmpty (Token c)); simpl.
  - exists (mkRequest method full [("User-Agent", UserAgent c)]), full.
    split; [done |]. split; [done |]. split; [done |]. intros remote.
    destruct (remote _) as [e|resp]; [done |].
    destruct (StatusCode resp =? StatusOK); simpl; [| done].
    by destruct (decode (Body resp)).
  - exists (mkRequest method full
              [("User-Agent", UserAgent c);
               ("Authorization", "Bearer " +:+ Token c)]), full.
    split; [done |]. split; [done |]. split; [done |]. intros remote.
    destruct (remote _) as [e|resp]; [done |].
    destruct (StatusCode resp =? StatusOK); simpl; [| done].
    by destruct (decode (Body resp)).
Qed.

(** A decoded value comes from one request, answered 200 with a body that
    decodes to it. *)
Lemma doRequest_ok {T} (decode : string → string + T) c method path remote v :
  (doRequest lib decode c method path remote).2 = inr v →
  ∃ req resp,
    (doRequest lib decode c method path remote).1 = [Sent req]
    ∧ remote req = inr resp
    ∧ StatusCode resp = StatusOK
    ∧ decode (Body resp) = inr v.
Proof.
  destruct (doRequest_request decode c method path)
    as [[e E]|(req & full & _ & _ & _ & E)]; rewrite E; simpl; [done |].
  destruct (remote req) as [e|resp] eqn:Hr; [done |].
  destruct (StatusCode resp =? StatusOK) eqn:Hs; [| done].
  destruct (decode (Body resp)) as [e|v'] eqn:Hd; [done |].
  intros [= ->]. exists req, resp. split_and!; try done.
  by apply Nat.eqb_eq.
Qed.

Lemma doRequest_sent_request {T} (decode : string → string + T)
    c method path remote req :
  req ∈ sent (doRequest lib decode c method path remote).1 →
  Method req = method
  ∧ Header req
    = [("User-Agent", UserAgent c)]
        ++ (if isEmpty (Token c) then []
            else [("Authorization", "Bearer " +:+ Token c)]).
Proof.
  destruct (doRequest_request decode c method path)
    as [[e E]|(req' & full & Hm & _ & Hh & E)]; rewrite E; simpl.
  - by intros ?%elem_of_nil.
  - by intros ->%list_elem_of_singleton.
Qed.

Lemma GetImageID_sent c repo tag remote :
  sent (GetImageID lib c repo tag remote).1 =
    sent (doRequest lib (json_DecodeTagDetail lib) c "GET"
            ("repository/" +:+ repo +:+ "/tag/" +:+ url_PathEscape lib tag)
            remote).1.
Proof. by rewrite GetImageID_trace. Qed.

(** The requests of a task are those of its lookups. *)
Lemma processImage_sent imageURL c remote req :
  req ∈ sent (processImage lib imageURL c remote).1 →
  ∃ repo tag,
    req ∈ sent (GetImageID lib c repo tag remote).1
    ∨ ∃ imageDigest,
        req ∈ sent (GetVulnerabilities lib c repo imageDigest remote).1.
Proof.
  rewrite processImage_unfold.
  destruct (parseImageURL imageURL) as [[repo tag] [cause|]]; simpl.
  { by intros ?%elem_of_nil. }
  intros H. exists repo, tag.
  destruct (GetImageID lib c repo tag remote) as [t1 [imageID [cause|]]];
    simpl in *; [by left |].
  destruct (isEmpty imageID); simpl in *; [by left |].
  destruct (GetVulnerabilities lib c repo imageID remote)
    as [t2 [report [cause|]]] eqn:Hv; simpl in *.
  all: rewrite sent_app in H; apply elem_of_app in H as [H|H]; [by left |].
  all: right; exists imageID; by rewrite Hv.
Qed.

Lemma requests_method imageURL c remote req :
  req ∈ sent (processImage lib imageURL c remote).1 → Method req = "GET".
Proof.
  intros (repo & tag & [H|[imageDigest H]])%processImage_sent.
  - rewrite GetImageID_sent in H. by eapply doRequest_sent_request.
  - rewrite GetVulnerabilities_sent in H. by eapply doRequest_sent_request.
Qed.

End RequestFacts.

(** X6.  Every request a task sends is a [GET] that names the client's user
    agent; it carries the token, as a bearer credential, exactly when the
    client has one, and no other header. *)
Theorem requests_carry_credentials (lib : GoLib) (c : Client lib)
    (imageURL : string) (remote : Remote) (req : Request) :
  req ∈ sent (processImage lib imageURL c remote).1 →
  Method req = "GET"
  ∧ ("User-Agent", UserAgent c) ∈ Header req
  ∧ (Token c ≠ EmptyString →
       ("Authorization", "Bearer " +:+ Token c) ∈ Header req)
  ∧ (Token c = EmptyString → ∀ v, ("Authorization", v) ∉ Header req)
  ∧ (∀ k v, (k, v) ∈ Header req →
       (k = "User-Agent" ∧ v = UserAgent c)
       ∨ (k = "Authorization" ∧ v = "Bearer " +:+ Token c)).
Proof.
  intros Hin.
  assert (Hreq : Method req = "GET"
            ∧ Header req
              = [("User-Agent", UserAgent c)]
                  ++ (if isEmpty (Token c) then []
                      else [("Authorization", "Bearer " +:+ Token c)])).
  { apply processImage_sent in Hin as (repo & tag & [H|[imageDigest H]]).
    - rewrite GetImageID_sent in H. by eapply doRequest_sent_request.
    - rewrite GetVulnerabilities_sent in H. by eapply doRequest_sent_request. }
  destruct Hreq as [Hm Hh]. rewrite Hh. split; [done |].
  destruct (isEmpty (Token c)) eqn:Htok; simpl.
  - apply isEmpty_true in Htok. split_and!.
    + apply list_elem_of_singleton. done.
    + done.
    + intros _ v Hv%list_elem_of_singleton. done.
    + intros k v [= -> ->]%list_elem_of_singleton. by left.
  - apply isEmpty_false in Htok. split_and!.
    + apply elem_of_cons. by left.
    + intros _. apply elem_of_cons. right. by apply list_elem_of_singleton.
    + done.
    + intros k v [[= -> ->]|[= -> ->]%list_elem_of_singleton]%elem_of_cons;
        [by left | by right].
Qed.

Lemma requests_carry_credentials_witness :
  tagRequest ∈ sent (processImage sampleLib "quay.io/coreos/etcd:v3.5.0"
                       tokenClient (sampleRemote "sha256:abc123|" "scanned")).1
  ∧ Method tagRequest = "GET"
  ∧ ("User-Agent", UserAgent tokenClient) ∈ Header tagRequest
  ∧ (Token tokenClient ≠ EmptyString →
       ("Authorization", "Bearer " +:+ Token tokenClient) ∈ Header tagRequest)
  ∧ (Token tokenClient = EmptyString →
       ∀ v, ("Authorization", v) ∉ Header tagRequest)
  ∧ (∀ k v, (k, v) ∈ Header tagRequest →
       (k = "User-Agent" ∧ v = UserAgent tokenClient)
       ∨ (k = "Authorization" ∧ v = "Bearer " +:+ Token tokenClient)).
Proof.
  assert (Hin : tagRequest
            ∈ sent (processImage sampleLib "quay.io/coreos/etcd:v3.5.0"
                      tokenClient (sampleRemote "sha256:abc123|" "scanned")).1).
  { vm_compute. constructor. }
  split; [exact Hin |].
  exact (requests_carry_credentials sampleLib tokenClient
           "quay.io/coreos/etcd:v3.5.0"
           (sampleRemote "sha256:abc123|" "scanned") tagRequest Hin).
Defined.

(** X7.  A task ends without error only if it sent exactly two requests, both
    answered 200, the first with a body that decodes to a tag detail and
    the second with one that decodes to the report handed back. *)
Theorem success_needs_two_ok (lib : GoLib) (c : Client lib)
    (imageURL : string) (remote : Remote) :
  Error (processImage lib imageURL c remote).2 = EmptyString →
  ∃ req1 req2 resp1 resp2 tagDetail report,
    sent (processImage lib imageURL c remote).1 = [req1; req2]
    ∧ remote req1 = inr resp1 ∧ StatusCode resp1 = StatusOK
    ∧ json_DecodeTagDetail lib (Body resp1) = inr tagDetail
    ∧ remote req2 = inr resp2 ∧ StatusCode resp2 = StatusOK
    ∧ json_DecodeSecurityReport lib (Body resp2) = inr report
    ∧ Report (processImage lib imageURL c remote).2 = Some report.
Proof.
  rewrite processImage_unfold.
  destruct (parseImageURL imageURL) as [[repo tag] [cause|]]; simpl; [done |].
  pose proof (GetImageID_result lib c repo tag remote) as Hid.
  pose proof (GetImageID_sent lib c repo tag remote) as Hids.
  destruct (GetImageID lib c repo tag remote) as [t1 [imageID [cause|]]];
    simpl in *; [done |].
  destruct (isEmpty imageID); simpl; [done |].
  pose proof (GetVulnerabilities_result lib c repo imageID remote) as Hv.
  pose proof (GetVulnerabilities_sent lib c repo imageID remote) as Hvs.
  destruct (GetVulnerabilities lib c repo imageID remote)
    as [t2 [report [cause|]]]; simpl in *; [done |].
  intros _.
  destruct (doRequest lib (json_DecodeTagDetail lib) c "GET" _ remote)
    as [u1 [e|tagDetail]] eqn:E1; simpl in *.
  { by destruct (Contains e _). }
  destruct (doRequest lib (json_DecodeSecurityReport lib) c "GET" _ remote)
    as [u2 [e|report']] eqn:E2; simpl in *.
  { by destruct (Contains e _). }
  injection Hv as ->.
  destruct (doRequest_ok lib _ c "GET" _ remote tagDetail (f_equal snd E1))
    as (req1 & resp1 & Ht1 & Hr1 & Hs1 & Hd1).
  destruct (doRequest_ok lib _ c "GET" _ remote report' (f_equal snd E2))
    as (req2 & resp2 & Ht2 & Hr2 & Hs2 & Hd2).
  rewrite E1 in Ht1. rewrite E2 in Ht2. simpl in *. subst u1 u2.
  exists req1, req2, resp1, resp2, tagDetail, report'.
  rewrite sent_app, Hids, Hvs. by split_and!.
Qed.

Lemma success_needs_two_ok_witness :
  ∃ req1 req2 resp1 resp2 tagDetail report,
    sent (processImage sampleLib "quay.io/coreos/etcd:v3.5.0" sampleClient
            (sampleRemote "sha256:abc123|" "scanned")).1 = [req1; req2]
    ∧ sampleRemote "sha256:abc123|" "scanned" req1 = inr resp1
    ∧ StatusCode resp1 = StatusOK
    ∧ json_DecodeTagDetail sampleLib (Body resp1) = inr tagDetail
    ∧ sampleRemote "sha256:abc123|" "scanned" req2 = inr resp2
    ∧ StatusCode resp2 = StatusOK
    ∧ json_DecodeSecurityReport sampleLib (Body resp2) = inr report
    ∧ Report (processImage sampleLib "quay.io/coreos/etcd:v3.5.0" sampleClient
                (sampleRemote "sha256:abc123|" "scanned")).2 = Some report.
Proof.
  apply (success_needs_two_ok sampleLib sampleClient
           "quay.io/coreos/etcd:v3.5.0"
           (sampleRemote "sha256:abc123|" "scanned")).
  by vm_compute.
Defined.

(** X8.  Only 200 counts as success: any other status, another 2xx included,
    makes [doRequest] fail without decoding the body, with a text that
    names the URL of the request, the status line and a snippet of the
    body; the snippet is an initial segment of the body of at most 512
    bytes. *)
Theorem non_200_is_failure (lib : GoLib) {T : Type}
    (decode : string → string + T) (c : Client lib) (method path : string)
    (remote : Remote) (resp : Response) :
  answers remote (doRequest lib decode c method path remote).1 resp →
  StatusCode resp ≠ StatusOK →
  ∃ req snippet rest,
    sent (doRequest lib decode c method path remote).1 = [req]
    ∧ (doRequest lib decode c method path remote).2
      = inl ("API request to " +:+ URL req +:+ " failed with status "
               +:+ respStatus resp +:+ ". Body snippet: " +:+ snippet)
    ∧ Body resp = snippet +:+ rest
    ∧ String.length snippet ≤ 512.
Proof.
  intros (req & Hsent & Hr) Hs%Nat.eqb_neq.
  destruct (doRequest_request lib decode c method path)
    as [[e E]|(req' & full & _ & Hurl & _ & E)]; rewrite E in *; simpl in *;
    [done |].
  injection Hsent as <-. subst full. rewrite Hr, Hs.
  exists req', (sliceTo (FirstRead resp `min` 512) (Body resp)),
    (sliceFrom (FirstRead resp `min` 512) (Body resp)).
  split_and!; try done; [by rewrite sliceTo_sliceFrom |].
  pose proof (length_sliceTo (FirstRead resp `min` 512) (Body resp)). lia.
Qed.

Lemma non_200_is_failure_witness :
  ∃ req snippet rest,
    sent (doRequest sampleLib (json_DecodeTagDetail sampleLib) sampleClient
            "GET" "repository/coreos/etcd/tag/v3.5.0" noContentRemote).1
      = [req]
    ∧ (doRequest sampleLib (json_DecodeTagDetail sampleLib) sampleClient "GET"
         "repository/coreos/etcd/tag/v3.5.0" noContentRemote).2
      = inl ("API request to " +:+ URL req +:+ " failed with status "
               +:+ respStatus noContent +:+ ". Body snippet: " +:+ snippet)
    ∧ Body noContent = snippet +:+ rest
    ∧ String.length snippet ≤ 512.
Proof.
  apply (non_200_is_failure sampleLib (json_DecodeTagDetail sampleLib)
           sampleClient "GET" "repository/coreos/etcd/tag/v3.5.0"
           noContentRemote noContent).
  - eexists. split; by vm_compute.
  - by vm_compute.
Defined.

(** X9.  Whether a failed lookup is reported as not found is read off the text
    of the failure, not off the status code: a failure of any status whose
    body snippet holds the words [status 404] gives the not-found error of
    the lookup. *)
Theorem not_found_is_read_off_the_text (lib : GoLib) (c : Client lib)
    (repo tag imageDigest : string) (remote : Remote) (resp : Response) :
  StatusCode resp ≠ StatusOK →
  occurs "status 404" (sliceTo (FirstRead resp `min` 512) (Body resp)) →
  (answers remote (GetImageID lib c repo tag remote).1 resp →
     (GetImageID lib c repo tag remote).2
       = (EmptyString, Some (errTagNotFound repo tag)))
  ∧ (answers remote (GetVulnerabilities lib c repo imageDigest remote).1 resp →
     (GetVulnerabilities lib c repo imageDigest remote).2
       = (None, Some (errReportNotFound repo imageDigest))).
Proof.
  intros Hs (l & r & Hocc).
  assert (Htext : ∀ full,
    Contains ("API request to " +:+ full +:+ " failed with status "
                +:+ respStatus resp +:+ ". Body snippet: "
                +:+ sliceTo (FirstRead resp `min` 512) (Body resp))
      "status 404" = true).
  { intros full. apply Contains_iff. rewrite Hocc.
    exists ("API request to " +:+ full +:+ " failed with status "
              +:+ respStatus resp +:+ ". Body snippet: " +:+ l), r.
    by rewrite !append_assoc. }
  apply Nat.eqb_neq in Hs. split.
  - intros Ha. rewrite GetImageID_trace in Ha.
    destruct (doRequest_answered lib _ c _ _ remote resp Ha) as [full E].
    rewrite GetImageID_result, E, Hs. by rewrite Htext.
  - intros Ha.
    assert (Ha' : answers remote
              (doRequest lib (json_DecodeSecurityReport lib) c "GET"
                 ("repository/" +:+ repo +:+ "/image/" +:+ imageDigest
                    +:+ "/security?vulnerabilities=true") remote).1 resp).
    { destruct Ha as (req & Hsent & Hr). exists req.
      by rewrite <- GetVulnerabilities_sent. }
    destruct (doRequest_answered lib _ c _ _ remote resp Ha') as [full E].
    rewrite GetVulnerabilities_result, E, Hs. by rewrite Htext.
Qed.

Lemma not_found_is_read_off_the_text_witness :
  (GetImageID sampleLib sampleClient "coreos/etcd" "v3.5.0" gatewayRemote).2
    = (EmptyString, Some (errTagNotFound "coreos/etcd" "v3.5.0"))
  ∧ (GetVulnerabilities sampleLib sampleClient "coreos/etcd" "abc123"
       gatewayRemote).2
    = (None, Some (errReportNotFound "coreos/etcd" "abc123")).
Proof.
  destruct (not_found_is_read_off_the_text sampleLib sampleClient
              "coreos/etcd" "v3.5.0" "abc123" gatewayRemote badGateway)
    as [H1 H2].
  - by vm_compute.
  - by exists "upstream answered with ", EmptyString.
  - split.
    + apply H1. eexists. split; by vm_compute.
    + apply H2. eexists. split; by vm_compute.
Defined.

(** ** The two revisions of the client, and the flags *)

Section Revisions.

Context (lib : GoLib).
Implicit Types (cl : V1.Client lib) (c : Client lib) (remote : Remote).

(** [V1.doRequest] sends nothing and fails, or sends one request and turns
    the outcome into its result. *)
Lemma V1_doRequest_cases {T} (decode : string → string + T)
    cl method path remote :
  (∃ e, V1.doRequest lib decode cl method path remote = ([], inl e))
  ∨ (∃ req full,
       Method req = method
       ∧ Header req
         = [("User-Agent", V1.userAgent)]
             ++ (if isEmpty (V1.Token cl) then []
                 else [("Authorization", "Bearer " +:+ V1.Token cl)])
       ∧ V1.doRequest lib decode cl method path remote =
           ([Sent req],
            match remote req with
            | inl err =>
                inl ("failed to execute request for " +:+ full +:+ ": " +:+ err)
            | inr resp =>
                if StatusCode resp =? StatusOK then
                  match decode (Body resp) with
                  | inl err =>
                      inl ("failed to decode JSON response from " +:+ full
                             +:+ ": " +:+ err)
                  | inr v => inr v
                  end
                else
                  inl ("API request to " +:+ full +:+ " failed with status "
                         +:+ respStatus resp +:+ ". Body snippet: "
                         +:+ sliceTo (FirstRead resp `min` 512) (Body resp))
            end)).
Proof.
  unfold V1.doRequest. destruct (url_Parse lib path) as [e|relURL].
  { left. by eexists. }
  destruct (http_NewRequest lib method _) as [e|].
  { left. by eexists. }
  right. net_unfold. simpl.
  set (full := url_String lib (url_ResolveReference lib (V1.BaseURL cl) relURL)).
  destruct (isEmpty (V1.Token cl)); simpl.
  - exists (mkRequest method full [("User-Agent", V1.userAgent)]), full.
    split; [done |]. split; [done |].
    destruct (remote _) as [e|resp]; [done |].
    destruct (StatusCode resp =? StatusOK); simpl; [| done].
    by destruct (decode (Body resp)).
  - exists (mkRequest method full
              [("User-Agent", V1.userAgent);
               ("Authorization", "Bearer " +:+ V1.Token cl)]), full.
    split; [done |]. split; [done |].
    destruct (remote _) as [e|resp]; [done |].
    destruct (StatusCode resp =? StatusOK); simpl; [| done].
    by destruct (decode (Body resp)).
Qed.

Lemma V1_GetImageID_trace cl repo tag remote :
  (V1.GetImageID lib cl repo tag remote).1 =
    (V1.doRequest lib (json_DecodeTagDetail lib) cl "GET"
       ("repository/" +:+ repo +:+ "/tag/" +:+ url_PathEscape lib tag) remote).1.
Proof.
  unfold V1.GetImageID. net_unfold.
  destruct (V1.doRequest _ _ _ _ _ _) as [t [e|td]]; simpl.
  - apply app_nil_r.
  - destruct (isEmpty (ManifestDigest td)), (isEmpty (ImageID td)); simpl;
      apply app_nil_r.
Qed.

Lemma V1_GetImageID_result cl repo tag remote :
  (V1.GetImageID lib cl repo tag remote).2 =
    match (V1.doRequest lib (json_DecodeTagDetail lib) cl "GET"
             ("repository/" +:+ repo +:+ "/tag/" +:+ url_PathEscape lib tag)
             remote).2 with
    | inl err => (EmptyString, Some (errTagDetails repo tag err))
    | inr tagDetail =>
        if negb (isEmpty (ManifestDigest tagDetail)) then
          (TrimPrefix (ManifestDigest tagDetail) "sha256:", None)
        else if negb (isEmpty (ImageID tagDetail)) then
          (TrimPrefix (ImageID tagDetail) "sha256:", None)
        else (EmptyString, Some (V1.errNoDigest tag))
    end.
Proof.
  unfold V1.GetImageID. net_unfold.
  destruct (V1.doRequest _ _ _ _ _ _) as [t [e|td]]; simpl; [done |].
  by destruct (isEmpty (ManifestDigest td)), (isEmpty (ImageID td)).
Qed.

Lemma V1_GetVulnerabilities_result cl repo imageDigest remote :
  (V1.GetVulnerabilities lib cl repo imageDigest remote).2 =
    match (V1.doRequest lib (json_DecodeSecurityReport lib) cl "GET"
             ("repository/" +:+ repo +:+ "/image/" +:+ imageDigest
                +:+ "/security?vulnerabilities=true") remote).2 with
    | inl err => (None, Some (errSecurityInfo imageDigest err))
    | inr report => (Some report, None)
    end.
Proof.
  unfold V1.GetVulnerabilities. net_unfold.
  destruct (V1.doRequest _ _ _ _ _ _) as [t [e|report]]; simpl; [done |].
  by destruct (negb _).
Qed.

Lemma V1_GetVulnerabilities_trace cl repo imageDigest remote :
  (V1.GetVulnerabilities lib cl repo imageDigest remote).1 =
    let r := V1.doRequest lib (json_DecodeSecurityReport lib) cl "GET"
               ("repository/" +:+ repo +:+ "/image/" +:+ imageDigest
                  +:+ "/security?vulnerabilities=true") remote in
    r.1 ++
    match r.2 with
    | inr report =>
        if negb (String.eqb (Status report) "scanned")
        then [Logged (warnNotScanned repo imageDigest (Status report))]
        else []
    | inl _ => []
    end.
Proof.
  unfold V1.GetVulnerabilities. net_unfold.
  destruct (V1.doRequest _ _ _ _ _ _) as [t [e|report]]; simpl; [done |].
  destruct (negb _); simpl; by rewrite ?app_nil_r.
Qed.

Lemma V1_processImage_unfold imageURL cl remote :
  V1.processImage lib imageURL cl remote =
    match parseImageURL imageURL with
    | (_, _, Some cause) =>
        ([], mkImageScanResult imageURL None ("Parsing URL failed: " +:+ cause))
    | (repo, tag, None) =>
        let digest := V1.GetImageID lib cl repo tag remote in
        match digest.2 with
        | (_, Some cause) =>
            (digest.1,
             mkImageScanResult imageURL None
               ("Getting image ID failed: " +:+ cause))
        | (imageID, None) =>
            if isEmpty imageID then
              (digest.1,
               mkImageScanResult imageURL None
                 ("Could not find image ID for tag '" +:+ tag
                    +:+ "' (tag might not exist)"))
            else
              let fetch := V1.GetVulnerabilities lib cl repo imageID remote in
              match fetch.2 with
              | (report, Some cause) =>
                  (digest.1 ++ fetch.1,
                   mkImageScanResult imageURL report
                     ("Getting vulnerabilities failed: " +:+ cause))
              | (report, None) =>
                  (digest.1 ++ fetch.1,
                   mkImageScanResult imageURL report EmptyString)
              end
        end
    end.
Proof.
  unfold V1.processImage.
  destruct (parseImageURL imageURL) as [[repo tag] [cause|]]; [done |].
  net_unfold. simpl.
  destruct (V1.GetImageID lib cl repo tag remote) as [t1 [imageID [cause|]]];
    simpl; [by rewrite app_nil_r |].
  destruct (isEmpty imageID); simpl; [by rewrite app_nil_r |].
  destruct (V1.GetVulnerabilities lib cl repo imageID remote)
    as [t2 [[report|] [cause|]]]; simpl; by rewrite ?app_nil_r.
Qed.

(** The two revisions of [doRequest] send the same request and fail or
    succeed together, with the same value. *)
Lemma doRequest_revisions {T} (decode : string → string + T)
    cl c method path remote :
  sameSettings cl c →
  (V1.doRequest lib decode cl method path remote).1
    = (doRequest lib decode c method path remote).1
  ∧ alike (V1.doRequest lib decode cl method path remote).2
          (doRequest lib decode c method path remote).2.
Proof.
  intros (Hb & Ht & Hu).
  unfold V1.doRequest, doRequest. rewrite Hb, Ht, Hu.
  destruct (url_Parse lib path) as [e|relURL]; [done |].
  destruct (http_NewRequest lib method _) as [e|]; [done |].
  net_unfold. simpl.
  destruct (remote _) as [e|resp]; [done |].
  destruct (StatusCode resp =? StatusOK); simpl; [| done].
  by destruct (decode (Body resp)).
Qed.

End Revisions.

Section RevisionsAgree.

Context (lib : GoLib).
Implicit Types (cl : V1.Client lib) (c : Client lib) (remote : Remote).

Lemma GetImageID_revisions cl c repo tag remote :
  sameSettings cl c →
  (V1.GetImageID lib cl repo tag remote).1 = (GetImageID lib c repo tag remote).1
  ∧ (V1.GetImageID lib cl repo tag remote).2.1
    = (GetImageID lib c repo tag remote).2.1
  ∧ ((V1.GetImageID lib cl repo tag remote).2.2 = None
     ↔ (GetImageID lib c repo tag remote).2.2 = None).
Proof.
  intros Hs.
  rewrite V1_GetImageID_trace, GetImageID_trace.
  rewrite V1_GetImageID_result, GetImageID_result.
  destruct (doRequest_revisions lib (json_DecodeTagDetail lib) cl c "GET"
              ("repository/" +:+ repo +:+ "/tag/" +:+ url_PathEscape lib tag)
              remote Hs) as [Ht Ha].
  split; [done |].
  destruct (V1.doRequest _ _ _ _ _ _).2 as [e|td],
           (doRequest _ _ _ _ _ _).2 as [e'|td']; simpl in Ha; try done.
  - by destruct (Contains e' _).
  - subst td'.
    by destruct (isEmpty (ManifestDigest td)), (isEmpty (ImageID td)).
Qed.

Lemma GetVulnerabilities_revisions cl c repo imageDigest remote :
  sameSettings cl c →
  V1.GetVulnerabilities lib cl repo imageDigest remote
    = GetVulnerabilities lib c repo imageDigest remote
  ∨ ((V1.GetVulnerabilities lib cl repo imageDigest remote).1
       = (GetVulnerabilities lib c repo imageDigest remote).1
     ∧ (∃ e, (V1.GetVulnerabilities lib cl repo imageDigest remote).2
               = (None, Some e))
     ∧ (∃ e, (GetVulnerabilities lib c repo imageDigest remote).2
               = (None, Some e))).
Proof.
  intros Hs.
  destruct (doRequest_revisions lib (json_DecodeSecurityReport lib) cl c "GET"
              ("repository/" +:+ repo +:+ "/image/" +:+ imageDigest
                 +:+ "/security?vulnerabilities=true") remote Hs) as [Ht Ha].
  pose proof (V1_GetVulnerabilities_trace lib cl repo imageDigest remote) as T1.
  pose proof (GetVulnerabilities_trace lib c repo imageDigest remote) as T2.
  pose proof (V1_GetVulnerabilities_result lib cl repo imageDigest remote) as R1.
  pose proof (GetVulnerabilities_result lib c repo imageDigest remote) as R2.
  simpl in T1, T2.
  destruct (V1.doRequest _ _ _ _ _ _) as [t [e|report]],
           (doRequest _ _ _ _ _ _) as [t' [e'|report']];
    simpl in *; try done; subst t'.
  - right. rewrite T1, T2, R1, R2. split; [done |]. split; [by eexists |].
    destruct (Contains e' _); by eexists.
  - left. subst report'.
    destruct (V1.GetVulnerabilities _ _ _ _ _), (GetVulnerabilities _ _ _ _ _).
    simpl in *. congruence.
Qed.

End RevisionsAgree.

(** X11.  The two revisions of the client do the same work: set up alike, they
    send the same requests and write the same log lines for a reference,
    hand back the same report, and fail together; they differ only in the
    text of an error. *)
Theorem revisions_agree (lib : GoLib) (cl : V1.Client lib) (c : Client lib)
    (imageURL : string) (remote : Remote) :
  sameSettings cl c →
  (V1.processImage lib imageURL cl remote).1
    = (processImage lib imageURL c remote).1
  ∧ ImageURL (V1.processImage lib imageURL cl remote).2
    = ImageURL (processImage lib imageURL c remote).2
  ∧ Report (V1.processImage lib imageURL cl remote).2
    = Report (processImage lib imageURL c remote).2
  ∧ (Error (V1.processImage lib imageURL cl remote).2 = EmptyString
     ↔ Error (processImage lib imageURL c remote).2 = EmptyString).
Proof.
  intros Hs. rewrite V1_processImage_unfold, processImage_unfold.
  destruct (parseImageURL imageURL) as [[repo tag] [cause|]]; simpl; [done |].
  destruct (GetImageID_revisions lib cl c repo tag remote Hs)
    as (Ht & Hd & He).
  destruct (V1.GetImageID lib cl repo tag remote) as [t1 [d1 e1]],
           (GetImageID lib c repo tag remote) as [t2 [d2 e2]].
  simpl in *. subst t2 d2.
  destruct e1 as [e1|], e2 as [e2|]; simpl;
    try (by destruct He as [H1 H2]; (specialize (H1 eq_refl) || specialize (H2 eq_refl))).
  { done. }
  destruct (isEmpty d1); simpl; [done |].
  destruct (GetVulnerabilities_revisions lib cl c repo d1 remote Hs)
    as [E|(Ht & [e1 E1] & [e2 E2])].
  - rewrite E.
    by destruct (GetVulnerabilities lib c repo d1 remote) as [t [r [e|]]].
  - destruct (V1.GetVulnerabilities lib cl repo d1 remote) as [u1 r1],
             (GetVulnerabilities lib c repo d1 remote) as [u2 r2].
    simpl in *. subst. done.
Qed.

Lemma revisions_agree_witness :
  (V1.processImage sampleLib "quay.io/coreos/etcd:v9.9.9" sampleClient1
     remote404).1
    = (processImage sampleLib "quay.io/coreos/etcd:v9.9.9" sampleClient0
         remote404).1
  ∧ ImageURL (V1.processImage sampleLib "quay.io/coreos/etcd:v9.9.9"
                sampleClient1 remote404).2
    = ImageURL (processImage sampleLib "quay.io/coreos/etcd:v9.9.9"
                  sampleClient0 remote404).2
  ∧ Report (V1.processImage sampleLib "quay.io/coreos/etcd:v9.9.9"
              sampleClient1 remote404).2
    = Report (processImage sampleLib "quay.io/coreos/etcd:v9.9.9"
                sampleClient0 remote404).2
  ∧ (Error (V1.processImage sampleLib "quay.io/coreos/etcd:v9.9.9"
              sampleClient1 remote404).2 = EmptyString
     ↔ Error (processImage sampleLib "quay.io/coreos/etcd:v9.9.9"
                sampleClient0 remote404).2 = EmptyString).
Proof.
  apply (revisions_agree sampleLib sampleClient1 sampleClient0
           "quay.io/coreos/etcd:v9.9.9" remote404).
  by vm_compute.
Defined.

(** X12.  The earlier revision singles out no status: whatever answer other
    than 200 a lookup gets, a 404 included, its error is the one of a
    failed request, and it quotes the status line and the body snippet. *)
Theorem first_revision_wraps_every_failure (lib : GoLib)
    (cl : V1.Client lib) (repo tag imageDigest : string) (remote : Remote)
    (resp : Response) :
  StatusCode resp ≠ StatusOK →
  (answers remote (V1.GetImageID lib cl repo tag remote).1 resp →
   ∃ full,
     (V1.GetImageID lib cl repo tag remote).2
       = (EmptyString,
          Some (errTagDetails repo tag
                  ("API request to " +:+ full +:+ " failed with status "
                     +:+ respStatus resp +:+ ". Body snippet: "
                     +:+ sliceTo (FirstRead resp `min` 512) (Body resp)))))
  ∧ (answers remote (V1.GetVulnerabilities lib cl repo imageDigest remote).1
       resp →
     ∃ full,
       (V1.GetVulnerabilities lib cl repo imageDigest remote).2
         = (None,
            Some (errSecurityInfo imageDigest
                    ("API request to " +:+ full +:+ " failed with status "
                       +:+ respStatus resp +:+ ". Body snippet: "
                       +:+ sliceTo (FirstRead resp `min` 512) (Body resp))))).
Proof.
  intros Hs%Nat.eqb_neq. split.
  - intros (req & Hsent & Hr). rewrite V1_GetImageID_trace in Hsent.
    rewrite V1_GetImageID_result.
    destruct (V1_doRequest_cases lib (json_DecodeTagDetail lib) cl "GET"
                ("repository/" +:+ repo +:+ "/tag/" +:+ url_PathEscape lib tag)
                remote) as [[e E]|(req' & full & _ & _ & E)];
      rewrite E in *; simpl in *; [done |].
    injection Hsent as ->. rewrite Hr, Hs. by exists full.
  - intros (req & Hsent & Hr). rewrite V1_GetVulnerabilities_trace in Hsent.
    rewrite V1_GetVulnerabilities_result. simpl in Hsent.
    destruct (V1_doRequest_cases lib (json_DecodeSecurityReport lib) cl "GET"
                ("repository/" +:+ repo +:+ "/image/" +:+ imageDigest
                   +:+ "/security?vulnerabilities=true")
                remote) as [[e E]|(req' & full & _ & _ & E)];
      rewrite E in *; simpl in *; [done |].
    destruct (remote req') as [e|resp'] eqn:Hr'.
    + simpl in Hsent. injection Hsent as ->. congruence.
    + assert (req = req') as ->.
      { destruct (StatusCode resp' =? StatusOK);
          [destruct (json_DecodeSecurityReport lib (Body resp')) as [|rep];
             [| destruct (negb _)] |];
          simpl in Hsent; by injection Hsent. }
      rewrite Hr in Hr'. injection Hr' as <-. rewrite Hs. by exists full.
Qed.

Lemma first_revision_wraps_every_failure_witness :
  (∃ full,
     (V1.GetImageID sampleLib sampleClient1 "coreos/etcd" "v9.9.9"
        remote404).2
       = (EmptyString,
          Some (errTagDetails "coreos/etcd" "v9.9.9"
                  ("API request to " +:+ full +:+ " failed with status "
                     +:+ respStatus notFound +:+ ". Body snippet: "
                     +:+ sliceTo (FirstRead notFound `min` 512)
                           (Body notFound)))))
  ∧ (∃ full,
       (V1.GetVulnerabilities sampleLib sampleClient1 "coreos/etcd" "abc123"
          remote404).2
         = (None,
            Some (errSecurityInfo "abc123"
                    ("API request to " +:+ full +:+ " failed with status "
                       +:+ respStatus notFound +:+ ". Body snippet: "
                       +:+ sliceTo (FirstRead notFound `min` 512)
                             (Body notFound))))).
Proof.
  destruct (first_revision_wraps_every_failure sampleLib sampleClient1
              "coreos/etcd" "v9.9.9" "abc123" remote404 notFound)
    as [H1 H2]; [by vm_compute |].
  split.
  - apply H1. eexists. split; by vm_compute.
  - apply H2. eexists. split; by vm_compute.
Defined.

Lemma V1_GetVulnerabilities_sent (lib : GoLib) (cl : V1.Client lib)
    (repo imageDigest : string) (remote : Remote) :
  sent (V1.GetVulnerabilities lib cl repo imageDigest remote).1 =
    sent (V1.doRequest lib (json_DecodeSecurityReport lib) cl "GET"
            ("repository/" +:+ repo +:+ "/image/" +:+ imageDigest
               +:+ "/security?vulnerabilities=true") remote).1.
Proof.
  rewrite V1_GetVulnerabilities_trace. simpl. rewrite sent_app.
  destruct (V1.doRequest _ _ _ _ _ _) as [t [e|report]]; simpl.
  - apply app_nil_r.
  - destruct (negb _); simpl; apply app_nil_r.
Qed.

(** The errors of the earlier lookups: a wrapped request failure, or for
    the tag lookup a tag detail without a digest. *)
Lemma V1_GetImageID_errors (lib : GoLib) (cl : V1.Client lib)
    (repo tag : string) (remote : Remote) (err : string) :
  (V1.GetImageID lib cl repo tag remote).2.2 = Some err →
  (∃ cause, err = errTagDetails repo tag cause) ∨ err = V1.errNoDigest tag.
Proof.
  rewrite V1_GetImageID_result.
  destruct (V1.doRequest _ _ _ _ _ _).2 as [e|td]; simpl.
  - intros [= <-]. left. by exists e.
  - destruct (isEmpty (ManifestDigest td)), (isEmpty (ImageID td)); simpl;
      try done; intros [= <-]; by right.
Qed.

Lemma V1_GetVulnerabilities_errors (lib : GoLib) (cl : V1.Client lib)
    (repo imageDigest : string) (remote : Remote) (err : string) :
  (V1.GetVulnerabilities lib cl repo imageDigest remote).2.2 = Some err →
  ∃ cause, err = errSecurityInfo imageDigest cause.
Proof.
  rewrite V1_GetVulnerabilities_result.
  destruct (V1.doRequest _ _ _ _ _ _).2 as [e|report]; simpl; [| done].
  intros [= <-]. by exists e.
Qed.

(** What the earlier [doRequest] returns when the request it sent was
    answered with a status other than 200. *)
Lemma V1_doRequest_answered (lib : GoLib) {T} (decode : string → string + T)
    (cl : V1.Client lib) (method path : string) (remote : Remote)
    (resp : Response) :
  answers remote (V1.doRequest lib decode cl method path remote).1 resp →
  StatusCode resp ≠ StatusOK →
  ∃ full,
    (V1.doRequest lib decode cl method path remote).2
      = inl ("API request to " +:+ full +:+ " failed with status "
               +:+ respStatus resp +:+ ". Body snippet: "
               +:+ sliceTo (FirstRead resp `min` 512) (Body resp)).
Proof.
  intros (req & Hsent & Hr) Hs%Nat.eqb_neq.
  destruct (V1_doRequest_cases lib decode cl method path remote)
    as [[e E]|(req' & full & _ & _ & E)]; rewrite E in *; simpl in *; [done |].
  injection Hsent as ->. rewrite Hr, Hs. by exists full.
Qed.

(** C4, on the client as checked in.  The earlier [doRequest] compares the
    status with 200 only, and the earlier lookups wrap whatever error it
    returns: a 404 answer to the tag lookup makes [V1.GetImageID] fail
    with the error of every failed request, [failed to get tag details
    for repo:tag: cause], and a 404 answer to the report lookup makes
    [V1.GetVulnerabilities] fail with [failed to get security info for
    image digest: cause]; the status can be read in the cause only.  No
    error of either lookup is set apart for a missing tag or report: the
    tag lookup fails with that wrapper or for a tag detail without a
    digest, the report lookup with its wrapper only. *)
Theorem not_found_is_a_failed_request (lib : GoLib) (cl : V1.Client lib)
    (repo tag imageDigest : string) (remote : Remote) (resp : Response) :
  StatusCode resp = 404 →
  (answers remote (V1.GetImageID lib cl repo tag remote).1 resp →
   ∃ cause,
     (V1.GetImageID lib cl repo tag remote).2
       = (EmptyString, Some (errTagDetails repo tag cause))
     ∧ occurs "status 404" cause)
  ∧ (answers remote (V1.GetVulnerabilities lib cl repo imageDigest remote).1
       resp →
     ∃ cause,
       (V1.GetVulnerabilities lib cl repo imageDigest remote).2
         = (None, Some (errSecurityInfo imageDigest cause))
       ∧ occurs "status 404" cause)
  ∧ (∀ remote' err,
       (V1.GetImageID lib cl repo tag remote').2.2 = Some err →
       (∃ cause, err = errTagDetails repo tag cause)
       ∨ err = V1.errNoDigest tag)
  ∧ (∀ remote' err,
       (V1.GetVulnerabilities lib cl repo imageDigest remote').2.2 = Some err →
       ∃ cause, err = errSecurityInfo imageDigest cause).
Proof.
  intros H404.
  assert (Hne : StatusCode resp ≠ StatusOK) by (by rewrite H404).
  split_and!.
  - intros Ha. rewrite V1_GetImageID_trace in Ha.
    destruct (V1_doRequest_answered lib _ cl _ _ remote resp Ha Hne)
      as [full E].
    rewrite V1_GetImageID_result, E. eexists. split; [done |].
    apply Contains_iff. by apply status_404_text.
  - intros Ha. unfold answers in Ha. rewrite V1_GetVulnerabilities_sent in Ha.
    destruct (V1_doRequest_answered lib _ cl _ _ remote resp Ha Hne)
      as [full E].
    rewrite V1_GetVulnerabilities_result, E. eexists. split; [done |].
    apply Contains_iff. by apply status_404_text.
  - intros remote' err. apply V1_GetImageID_errors.
  - intros remote' err. apply V1_GetVulnerabilities_errors.
Qed.

Lemma not_found_is_a_failed_request_witness :
  (∃ cause,
     (V1.GetImageID sampleLib sampleClient1 "coreos/etcd" "v9.9.9"
        remote404).2
       = (EmptyString, Some (errTagDetails "coreos/etcd" "v9.9.9" cause))
     ∧ occurs "status 404" cause)
  ∧ (∃ cause,
       (V1.GetVulnerabilities sampleLib sampleClient1 "coreos/etcd" "abc123"
          remote404).2
         = (None, Some (errSecurityInfo "abc123" cause))
       ∧ occurs "status 404" cause).
Proof.
  destruct (not_found_is_a_failed_request sampleLib sampleClient1
              "coreos/etcd" "v9.9.9" "abc123" remote404 notFound)
    as (H1 & H2 & _); [by vm_compute |].
  split.
  - apply H1. eexists. split; by vm_compute.
  - apply H2. eexists. split; by vm_compute.
Defined.

(** The claim of a dedicated not-found error fails on the client as
    checked in.  At a remote that answers every request with 404 the tag
    lookup fails with the error of a failed request, the very wrapper it
    gives at a remote that answers 500, and not with a tag-not-found
    error; the report lookup does the same. *)
Lemma not_found_has_no_error_of_its_own :
  (V1.GetImageID sampleLib sampleClient1 "coreos/etcd" "v9.9.9" remote404).2
    = (EmptyString,
       Some (errTagDetails "coreos/etcd" "v9.9.9"
               "API request to https://quay.io/api/v1/repository/coreos/etcd/tag/v9.9.9 failed with status 404 Not Found. Body snippet: {}"))
  ∧ (V1.GetImageID sampleLib sampleClient1 "coreos/etcd" "v9.9.9" remote500).2
    = (EmptyString,
       Some (errTagDetails "coreos/etcd" "v9.9.9"
               "API request to https://quay.io/api/v1/repository/coreos/etcd/tag/v9.9.9 failed with status 500 Internal Server Error. Body snippet: {}"))
  ∧ (V1.GetImageID sampleLib sampleClient1 "coreos/etcd" "v9.9.9" remote404).2
    ≠ (EmptyString, Some (errTagNotFound "coreos/etcd" "v9.9.9"))
  ∧ (V1.GetVulnerabilities sampleLib sampleClient1 "coreos/etcd" "abc123"
       remote404).2
    = (None,
       Some (errSecurityInfo "abc123"
               "API request to https://quay.io/api/v1/repository/coreos/etcd/image/abc123/security?vulnerabilities=true failed with status 404 Not Found. Body snippet: {}"))
  ∧ (V1.GetVulnerabilities sampleLib sampleClient1 "coreos/etcd" "abc123"
       remote500).2
    = (None,
       Some (errSecurityInfo "abc123"
               "API request to https://quay.io/api/v1/repository/coreos/etcd/image/abc123/security?vulnerabilities=true failed with status 500 Internal Server Error. Body snippet: {}"))
  ∧ (V1.GetVulnerabilities sampleLib sampleClient1 "coreos/etcd" "abc123"
       remote404).2
    ≠ (None, Some (errReportNotFound "coreos/etcd" "abc123")).
Proof. by split_and!; vm_compute. Qed.

Section FirstClient.

Context (lib : GoLib) (paths : URLPathLib lib).
Implicit Types (cl : V1.Client lib) (remote : Remote).

Lemma length_append s p :
  String.length (s +:+ p) = String.length s + String.length p.
Proof.
  induction s as [|a s IH]; [done |].
  rewrite append_cons. simpl. by rewrite IH.
Qed.

Lemma HasSuffix_app s p : HasSuffix (s +:+ p) p = true.
Proof.
  unfold HasSuffix. rewrite length_append.
  apply andb_true_iff. split; [apply Nat.leb_le; lia |].
  replace (String.length s + String.length p - String.length p)
    with (String.length s) by lia.
  rewrite sliceFrom_app. apply String.eqb_refl.
Qed.

Lemma V1_doRequest_sent_request {T} (decode : string → string + T)
    cl method path remote req :
  req ∈ sent (V1.doRequest lib decode cl method path remote).1 →
  Method req = method
  ∧ Header req
    = [("User-Agent", V1.userAgent)]
        ++ (if isEmpty (V1.Token cl) then []
            else [("Authorization", "Bearer " +:+ V1.Token cl)]).
Proof.
  destruct (V1_doRequest_cases lib decode cl method path remote)
    as [[e E]|(req' & full & Hm & Hh & E)]; rewrite E; simpl.
  - by intros ?%elem_of_nil.
  - by intros ->%list_elem_of_singleton.
Qed.

Lemma V1_processImage_sent imageURL cl remote req :
  req ∈ sent (V1.processImage lib imageURL cl remote).1 →
  Method req = "GET"
  ∧ Header req
    = [("User-Agent", V1.userAgent)]
        ++ (if isEmpty (V1.Token cl) then []
            else [("Authorization", "Bearer " +:+ V1.Token cl)]).
Proof.
  rewrite V1_processImage_unfold.
  destruct (parseImageURL imageURL) as [[repo tag] [cause|]]; simpl.
  { by intros ?%elem_of_nil. }
  pose proof (V1_GetImageID_trace lib cl repo tag remote) as Hid.
  destruct (V1.GetImageID lib cl repo tag remote) as [t1 [imageID [cause|]]];
    simpl in *.
  { rewrite Hid. by apply V1_doRequest_sent_request. }
  assert (H1 : req ∈ sent t1 → Method req = "GET"
            ∧ Header req
              = [("User-Agent", V1.userAgent)]
                  ++ (if isEmpty (V1.Token cl) then []
                      else [("Authorization", "Bearer " +:+ V1.Token cl)])).
  { rewrite Hid. by apply V1_doRequest_sent_request. }
  destruct (isEmpty imageID); simpl; [done |].
  pose proof (V1_GetVulnerabilities_sent lib cl repo imageID remote) as Hv.
  destruct (V1.GetVulnerabilities lib cl repo imageID remote)
    as [t2 [report [cause|]]]; simpl in *.
  all: rewrite sent_app; intros [H|H]%elem_of_app; [by apply H1 |].
  all: rewrite Hv in H; by eapply V1_doRequest_sent_request.
Qed.

End FirstClient.

(** X13.  A client built by [NewClient] of the earlier revision has a base URL
    whose path ends in a slash, whatever base URL was asked for, so that
    the relative paths of the lookups resolve below it; it keeps the token
    given and has the built-in timeout of fifteen seconds.  The empty base
    URL stands for the built-in one. *)
Theorem NewClient_base_path (lib : GoLib) (paths : URLPathLib lib)
    (baseURL token : string) (cl : V1.Client lib) :
  (∀ u p, url_Path paths (url_SetPath paths u p) = p) →
  V1.NewClient lib paths baseURL token = inr cl →
  HasSuffix (url_Path paths (V1.BaseURL cl)) "/" = true
  ∧ V1.Token cl = token
  ∧ V1.Timeout cl = (15 * Second)%Z
  ∧ V1.NewClient lib paths EmptyString token
    = V1.NewClient lib paths V1.defaultAPIBaseURL token.
Proof.
  intros Hlaw. unfold V1.NewClient.
  destruct (url_Parse lib _) as [e|u]; [done |].
  intros [= <-]. simpl. split_and!; try done.
  destruct (HasSuffix (url_Path paths u) "/") eqn:E; simpl; [done |].
  rewrite Hlaw. apply HasSuffix_app.
Qed.

Lemma NewClient_base_path_witness :
  V1.NewClient splitLib splitPaths "https://quay.example.com/api/v1" "s3cr3t"
    = inr bareClient
  ∧ HasSuffix (url_Path splitPaths (V1.BaseURL bareClient)) "/" = true
  ∧ V1.Token bareClient = "s3cr3t"
  ∧ V1.Timeout bareClient = (15 * Second)%Z
  ∧ V1.NewClient splitLib splitPaths EmptyString "s3cr3t"
    = V1.NewClient splitLib splitPaths V1.defaultAPIBaseURL "s3cr3t".
Proof.
  split; [by vm_compute |].
  apply (NewClient_base_path splitLib splitPaths
           "https://quay.example.com/api/v1" "s3cr3t" bareClient).
  - done.
  - by vm_compute.
Defined.

Section Flags.

Implicit Types (cfg parsed : Cli.Config) (getenv : string → string).

(** What [parseFlagsAndConfig] accepts, and what it hands back then. *)
Lemma parseFlagsAndConfig_accepted parsed getenv cfg :
  Cli.parseFlagsAndConfig parsed getenv = (cfg, None) →
  (Cli.ImageURL parsed = EmptyString ↔ Cli.InputFile parsed ≠ EmptyString)
  ∧ (Cli.OutputFormat parsed = "json" ∨ Cli.OutputFormat parsed = "human")
  ∧ (0 < Cli.NumWorkers parsed)%Z
  ∧ cfg = Cli.mkConfig (Cli.ImageURL parsed) (Cli.InputFile parsed)
            (Cli.OutputFormat parsed) (Cli.Verbose parsed)
            (if isEmpty (Cli.Token parsed) then getenv "QUAY_TOKEN"
             else Cli.Token parsed)
            (Cli.NumWorkers parsed).
Proof.
  unfold Cli.parseFlagsAndConfig.
  destruct (isEmpty (Cli.ImageURL parsed)) eqn:E1,
           (isEmpty (Cli.InputFile parsed)) eqn:E2; simpl; try done.
  all: destruct (String.eqb_spec (Cli.OutputFormat parsed) "json") as [Hj|Hj];
    destruct (String.eqb_spec (Cli.OutputFormat parsed) "human") as [Hh|Hh];
    simpl; try done.
  all: destruct (Z.leb_spec (Cli.NumWorkers parsed) 0); try done.
  all: intros [= <-].
  all: rewrite ?isEmpty_true, ?isEmpty_false in *.
  all: split_and!; try lia; try (by left); try (by right); try (by split).
  all: destruct parsed; simpl; by destruct (isEmpty _).
Qed.

End Flags.

(** X14.  The token a request presents is the one of the [-token] flag; without
    the flag it is the one of the environment variable [QUAY_TOKEN];
    without either, the request carries no credential. *)
Theorem token_precedence (lib : GoLib) (paths : URLPathLib lib)
    (parsed cfg : Cli.Config) (getenv : string → string)
    (cl : V1.Client lib) (imageURL : string) (remote : Remote)
    (req : Request) :
  Cli.parseFlagsAndConfig parsed getenv = (cfg, None) →
  V1.NewClient lib paths EmptyString (Cli.Token cfg) = inr cl →
  req ∈ sent (V1.processImage lib imageURL cl remote).1 →
  Header req =
    ("User-Agent", V1.userAgent) ::
    (if negb (isEmpty (Cli.Token parsed)) then
       [("Authorization", "Bearer " +:+ Cli.Token parsed)]
     else if negb (isEmpty (getenv "QUAY_TOKEN")) then
       [("Authorization", "Bearer " +:+ getenv "QUAY_TOKEN")]
     else []).
Proof.
  intros (_ & _ & _ & ->)%parseFlagsAndConfig_accepted Hnew Hreq. simpl in Hnew.
  assert (Htok : V1.Token cl
            = if isEmpty (Cli.Token parsed) then getenv "QUAY_TOKEN"
              else Cli.Token parsed).
  { unfold V1.NewClient in Hnew.
    destruct (url_Parse lib _) as [e|u]; [done |]. by injection Hnew as <-. }
  apply V1_processImage_sent in Hreq as [_ ->]. rewrite Htok. simpl.
  destruct (isEmpty (Cli.Token parsed)) eqn:E; simpl; [| by rewrite E].
  by destruct (isEmpty (getenv "QUAY_TOKEN")).
Qed.

Lemma token_precedence_witness :
  Header envRequest =
    ("User-Agent", V1.userAgent) ::
    (if negb (isEmpty (Cli.Token envFlags)) then
       [("Authorization", "Bearer " +:+ Cli.Token envFlags)]
     else if negb (isEmpty (sampleEnv "QUAY_TOKEN")) then
       [("Authorization", "Bearer " +:+ sampleEnv "QUAY_TOKEN")]
     else []).
Proof.
  apply (token_precedence splitLib splitPaths envFlags
           (Cli.parseFlagsAndConfig envFlags sampleEnv).1 sampleEnv
           envClient "quay.io/coreos/etcd:v3.5.0"
           (sampleRemote "sha256:abc123|" "scanned") envRequest).
  - by vm_compute.
  - by vm_compute.
  - vm_compute. constructor.
Defined.

(** X15.  Flags that [parseFlagsAndConfig] accepts name exactly one source of
    references and a known output format, and their worker count lets the
    pool run: below the largest [int], every run of [runWorkerPool] with
    it can go on until the function returns. *)
Theorem accepted_flags_run (lib : GoLib) (quayClient : Client lib)
    (remotes : nat → Remote) (imageURLs : list string)
    (parsed cfg : Cli.Config) (getenv : string → string) :
  Cli.parseFlagsAndConfig parsed getenv = (cfg, None) →
  (Cli.NumWorkers cfg < intMax)%Z →
  (Cli.ImageURL cfg = EmptyString ↔ Cli.InputFile cfg ≠ EmptyString)
  ∧ (Cli.OutputFormat cfg = "json" ∨ Cli.OutputFormat cfg = "human")
  ∧ ∀ schedule s,
      exec lib quayClient remotes imageURLs (Cli.NumWorkers cfg) schedule start
        = Some s →
      ∃ rest s',
        exec lib quayClient remotes imageURLs (Cli.NumWorkers cfg)
          (schedule ++ rest) start = Some s'
        ∧ pc s' = Returned.
Proof.
  intros (Hin & Hfmt & Hw & ->)%parseFlagsAndConfig_accepted HW. simpl in *.
  split; [done |]. split; [done |].
  intros schedule s Hexec.
  assert (Hok : (0 < Cli.NumWorkers parsed < intMax)%Z) by lia.
  destruct (invariants_exec lib quayClient remotes imageURLs _ Hok
              schedule start s) as (Ha & Hs & _);
    [apply accounted_start | by apply staffed_start | done |].
  destruct (can_return lib quayClient remotes imageURLs _ Hok s Ha Hs)
    as (rest & s' & Hrest & Hpc).
  exists rest, s'. split; [| done]. by rewrite exec_app, Hexec.
Qed.

Lemma accepted_flags_run_witness :
  (Cli.ImageURL envFlags = EmptyString ↔ Cli.InputFile envFlags ≠ EmptyString)
  ∧ (Cli.OutputFormat envFlags = "json" ∨ Cli.OutputFormat envFlags = "human")
  ∧ ∀ schedule s,
      exec sampleLib sampleClient healthyRemotes pairBatch
        (Cli.NumWorkers envFlags) schedule start = Some s →
      ∃ rest s',
        exec sampleLib sampleClient healthyRemotes pairBatch
          (Cli.NumWorkers envFlags) (schedule ++ rest) start = Some s'
        ∧ pc s' = Returned.
Proof.
  apply (accepted_flags_run sampleLib sampleClient healthyRemotes pairBatch
           envFlags envFlags (λ _, EmptyString)).
  - by vm_compute.
  - by vm_compute.
Defined.

(** ** The configuration and the client built from it *)

Lemma GetTimeout_fits (qc : Config.QuayConfig) :
  (0 < Config.TimeoutSeconds qc ≤ maxSeconds)%Z →
  Config.GetTimeout qc = (Config.TimeoutSeconds qc * Second)%Z.
Proof.
  unfold Config.GetTimeout, maxSeconds, Second, wrapInt. intros H.
  destruct (Z.leb_spec (Config.TimeoutSeconds qc) 0); [lia |].
  rewrite Z.mod_small by lia. lia.
Qed.

Lemma GetTimeout_wraps (qc : Config.QuayConfig) :
  (maxSeconds < Config.TimeoutSeconds qc ≤ 2 * maxSeconds)%Z →
  Config.GetTimeout qc = (Config.TimeoutSeconds qc * Second - 2 ^ 64)%Z.
Proof.
  unfold Config.GetTimeout, maxSeconds, Second, wrapInt. intros H.
  destruct (Z.leb_spec (Config.TimeoutSeconds qc) 0); [lia |].
  replace ((Config.TimeoutSeconds qc * 1000000000 + 2 ^ 63) `mod` 2 ^ 64)%Z
    with (Config.TimeoutSeconds qc * 1000000000 + 2 ^ 63 - 2 ^ 64)%Z; [lia |].
  apply Z.mod_unique with 1%Z; lia.
Qed.

(** X16.  [GetTimeout] gives five seconds for a count that is not positive and
    the count in nanoseconds for one up to 9223372036; above that the
    nanoseconds no longer fit a [time.Duration], and up to twice that
    count the timeout comes out negative. *)
Theorem GetTimeout_range (qc : Config.QuayConfig) :
  ((Config.TimeoutSeconds qc ≤ 0 → Config.GetTimeout qc = 5 * Second)
   ∧ (0 < Config.TimeoutSeconds qc ≤ maxSeconds →
        Config.GetTimeout qc = Config.TimeoutSeconds qc * Second
        ∧ 0 < Config.GetTimeout qc)
   ∧ (maxSeconds < Config.TimeoutSeconds qc ≤ 2 * maxSeconds →
        Config.GetTimeout qc = Config.TimeoutSeconds qc * Second - 2 ^ 64
        ∧ Config.GetTimeout qc < 0))%Z.
Proof.
  split_and!.
  - intros H. unfold Config.GetTimeout.
    by rewrite (proj2 (Z.leb_le _ _) H).
  - intros H. rewrite (GetTimeout_fits qc H). unfold Second. lia.
  - intros H. rewrite (GetTimeout_wraps qc H). unfold maxSeconds, Second in *.
    lia.
Qed.

Section ConfigFacts.

Context (fs : Config.Files).

Lemma LoadConfig_cases filePath :
  (Config.LoadConfig fs filePath).2 = (Config.DefaultConfig, None)
  ∨ (∃ cfg e, (Config.LoadConfig fs filePath) = ([], (cfg, Some e)))
  ∨ (∃ absPath data cfg,
       Config.filepath_Abs fs filePath = inr absPath
       ∧ Config.os_ReadFile fs absPath = inr data
       ∧ Config.yaml_Unmarshal fs data Config.DefaultConfig = (cfg, None)
       ∧ (Config.LoadConfig fs filePath).2
         = (Config.mkAppConfig
              (Config.mkQuayConfig
                 (if isEmpty (Config.APIBaseURL (Config.Quay cfg))
                  then "https://quay.io/api/v1/"
                  else Config.APIBaseURL (Config.Quay cfg))
                 (if (Config.TimeoutSeconds (Config.Quay cfg) <=? 0)%Z
                  then 15%Z
                  else Config.TimeoutSeconds (Config.Quay cfg))
                 (Config.UserAgent (Config.Quay cfg))),
            None)).
Proof.
  unfold Config.LoadConfig.
  destruct (Config.filepath_Abs fs filePath) as [e|absPath]; [by left |].
  destruct (Config.os_ReadFile fs absPath) as [e|data] eqn:Hread.
  { destruct (IsNotExist e); [by left |]. right. left. by eexists _, _. }
  destruct (Config.yaml_Unmarshal fs data Config.DefaultConfig)
    as [cfg [e|]] eqn:Hyaml.
  { right. left. by eexists _, _. }
  right. right. exists absPath, data, cfg. split_and!; try done.
  destruct cfg as [[u n a]]. simpl.
  destruct (isEmpty u); simpl; by destruct (n <=? 0)%Z.
Qed.

Lemma LoadConfig_ok filePath out cfg :
  Config.LoadConfig fs filePath = (out, (cfg, None)) →
  Config.APIBaseURL (Config.Quay cfg) ≠ EmptyString
  ∧ (0 < Config.TimeoutSeconds (Config.Quay cfg))%Z.
Proof.
  intros E.
  destruct (LoadConfig_cases filePath)
    as [H|[(cfg' & e & H)|(absPath & data & cfg' & _ & _ & _ & H)]];
    rewrite E in H; simpl in H; simplify_eq; simpl.
  - done.
  - split.
    + destruct (isEmpty _) eqn:Hu; [done | by apply isEmpty_false].
    + destruct (Z.leb_spec (Config.TimeoutSeconds (Config.Quay cfg')) 0); lia.
Qed.

End ConfigFacts.

(** X17.  A configuration that loads without error can be used as it is: its
    base URL is not empty and its timeout is positive, whatever the file
    held; a file that is missing, or whose path cannot be made absolute,
    is no error and gives the defaults; and an error comes with nothing
    written to standard error. *)
Theorem LoadConfig_usable (fs : Config.Files) (filePath : string) :
  let '(out, (cfg, err)) := Config.LoadConfig fs filePath in
  (err = None →
     Config.APIBaseURL (Config.Quay cfg) ≠ EmptyString
     ∧ (0 < Config.TimeoutSeconds (Config.Quay cfg))%Z)
  ∧ (err ≠ None → out = [])
  ∧ ((∃ e, Config.filepath_Abs fs filePath = inl e)
     ∨ (∃ absPath e,
          Config.filepath_Abs fs filePath = inr absPath
          ∧ Config.os_ReadFile fs absPath = inl e ∧ IsNotExist e = true) →
     cfg = Config.DefaultConfig ∧ err = None).
Proof.
  destruct (Config.LoadConfig fs filePath) as [out [cfg err]] eqn:E.
  split_and!.
  - intros ->. by eapply LoadConfig_ok.
  - intros Herr.
    destruct (LoadConfig_cases fs filePath)
      as [H|[(cfg' & e & H)|(absPath & data & cfg' & _ & _ & _ & H)]];
      rewrite E in H; simpl in H; by simplify_eq.
  - unfold Config.LoadConfig in E.
    intros [[e He]|(absPath & e & Ha & Hr & Hn)].
    + rewrite He in E. by simplify_eq.
    + rewrite Ha, Hr, Hn in E. by simplify_eq.
Qed.

(** X18.  The client [main] builds from a loaded configuration: its creation
    fails only when the base URL does not parse, never for want of one;
    the client created has a positive timeout, the configured one when its
    nanoseconds fit a [time.Duration] and the fallback of ten seconds when
    they wrapped around to a value that is not positive; and it has a
    user agent, the token given, and a base path that ends in a slash. *)
Theorem client_from_config (lib : GoLib) (paths : URLPathLib lib)
    (fs : Config.Files) (filePath token : string) (out : list string)
    (cfg : Config.AppConfig) :
  (∀ u p, url_Path paths (url_SetPath paths u p) = p) →
  Config.LoadConfig fs filePath = (out, (cfg, None)) →
  match (NewClient lib paths (Config.APIBaseURL (Config.Quay cfg)) token
           (Config.GetTimeout (Config.Quay cfg))
           (Config.UserAgent (Config.Quay cfg))).2 with
  | inl e =>
      ∃ cause,
        url_Parse lib (Config.APIBaseURL (Config.Quay cfg)) = inl cause
        ∧ e = "invalid base URL '" +:+ Config.APIBaseURL (Config.Quay cfg)
                +:+ "': " +:+ cause
  | inr built =>
      (0 < HTTPClient_Timeout built)%Z
      ∧ ((Config.TimeoutSeconds (Config.Quay cfg) ≤ maxSeconds)%Z →
         HTTPClient_Timeout built
           = (Config.TimeoutSeconds (Config.Quay cfg) * Second)%Z)
      ∧ ((maxSeconds < Config.TimeoutSeconds (Config.Quay cfg)
            ≤ 2 * maxSeconds)%Z →
         HTTPClient_Timeout built = (10 * Second)%Z)
      ∧ UserAgent (client built) ≠ EmptyString
      ∧ Token (client built) = token
      ∧ HasSuffix (url_Path paths (BaseURL (client built))) "/" = true
  end.
Proof.
  intros Hlaw Hload.
  destruct (LoadConfig_ok fs filePath out cfg Hload) as [Hurl Hpos].
  pose proof (GetTimeout_fits (Config.Quay cfg)) as Hfit.
  pose proof (GetTimeout_wraps (Config.Quay cfg)) as Hwrap.
  unfold NewClient.
  apply isEmpty_false in Hurl. rewrite Hurl.
  set (t := Config.GetTimeout (Config.Quay cfg)) in *.
  destruct (url_Parse lib _) as [e|u] eqn:Hparse.
  { destruct (t <=? 0)%Z; simpl; by eexists. }
  assert (Hslash :
    HasSuffix
      (url_Path paths
         (if negb (HasSuffix (url_Path paths u) "/")
          then url_SetPath paths u (url_Path paths u +:+ "/") else u)) "/"
    = true).
  { destruct (HasSuffix (url_Path paths u) "/") eqn:E; simpl; [done |].
    rewrite Hlaw. apply HasSuffix_app. }
  assert (HA : (Config.TimeoutSeconds (Config.Quay cfg) ≤ maxSeconds)%Z →
                t = (Config.TimeoutSeconds (Config.Quay cfg) * Second)%Z
                ∧ (0 < t)%Z).
  { intros H. rewrite Hfit by lia. unfold Second. lia. }
  assert (HB : (maxSeconds < Config.TimeoutSeconds (Config.Quay cfg)
                  ≤ 2 * maxSeconds)%Z → (t < 0)%Z).
  { intros H. rewrite (Hwrap H). unfold maxSeconds, Second in *. lia. }
  assert (Hten : (0 < 10 * Second)%Z) by (unfold Second; lia).
  destruct (Z.leb_spec t 0) as [Ht|Ht];
    destruct (isEmpty (Config.UserAgent (Config.Quay cfg))) eqn:Hua; simpl.
  all: split_and!; try done; try (by apply isEmpty_false).
  all: try (intros H; apply HA in H; lia).
  all: intros H; apply HB in H; lia.
Qed.

Lemma client_from_config_witness :
  Config.LoadConfig sampleFiles "config.yaml"
    = ((Config.LoadConfig sampleFiles "config.yaml").1, (loadedConfig, None))
  ∧ match (NewClient splitLib splitPaths
             (Config.APIBaseURL (Config.Quay loadedConfig)) "t0k3n"
             (Config.GetTimeout (Config.Quay loadedConfig))
             (Config.UserAgent (Config.Quay loadedConfig))).2 with
    | inl e =>
        ∃ cause,
          url_Parse splitLib (Config.APIBaseURL (Config.Quay loadedConfig))
            = inl cause
          ∧ e = "invalid base URL '"
                  +:+ Config.APIBaseURL (Config.Quay loadedConfig)
                  +:+ "': " +:+ cause
    | inr built =>
        (0 < HTTPClient_Timeout built)%Z
        ∧ ((Config.TimeoutSeconds (Config.Quay loadedConfig) ≤ maxSeconds)%Z →
           HTTPClient_Timeout built
             = (Config.TimeoutSeconds (Config.Quay loadedConfig) * Second)%Z)
        ∧ ((maxSeconds < Config.TimeoutSeconds (Config.Quay loadedConfig)
              ≤ 2 * maxSeconds)%Z →
           HTTPClient_Timeout built = (10 * Second)%Z)
        ∧ UserAgent (client built) ≠ EmptyString
        ∧ Token (client built) = "t0k3n"
        ∧ HasSuffix (url_Path splitPaths (BaseURL (client built))) "/" = true
    end.
Proof.
  split; [by vm_compute |].
  apply (client_from_config splitLib splitPaths sampleFiles "config.yaml"
           "t0k3n" (Config.LoadConfig sampleFiles "config.yaml").1
           loadedConfig).
  - done.
  - by vm_compute.
Defined.

(** ** The report *)

Section StringOrder.

Lemma compare_refl s : String.compare s s = Eq.
Proof.
  induction s as [|a s IH]; simpl; [done |].
  unfold Ascii.compare. by rewrite N.compare_refl.
Qed.

Lemma compare_Lt_trans s1 s2 s3 :
  String.compare s1 s2 = Lt → String.compare s2 s3 = Lt →
  String.compare s1 s3 = Lt.
Proof.
  revert s2 s3. induction s1 as [|a s1 IH]; intros [|b s2] [|c s3]; simpl;
    try done.
  unfold Ascii.compare.
  destruct (N.compare_spec (N_of_ascii a) (N_of_ascii b)) as [E|L|G];
    destruct (N.compare_spec (N_of_ascii b) (N_of_ascii c)) as [E'|L'|G'];
    try done; intros H1 H2.
  - rewrite E, E', N.compare_refl. by eapply IH.
  - rewrite E. by apply N.compare_lt_iff in L' as ->.
  - rewrite <- E'. by apply N.compare_lt_iff in L as ->.
  - assert (N_of_ascii a < N_of_ascii c)%N as ->%N.compare_lt_iff by lia.
    done.
Qed.

#[local] Instance lessEq_total : Total lessEq.
Proof. intros x y. apply String.leb_total. Qed.

#[local] Instance lessEq_antisymm : AntiSymm eq lessEq.
Proof. intros x y. apply String.leb_antisym. Qed.

#[local] Instance lessEq_trans : Transitive lessEq.
Proof.
  intros x y z. unfold lessEq, String.leb.
  destruct (String.compare x y) eqn:E1; [| | done];
    destruct (String.compare y z) eqn:E2; try done; intros _ _.
  - apply String.compare_eq_iff in E1 as ->. by rewrite E2.
  - apply String.compare_eq_iff in E1 as ->. by rewrite E2.
  - apply String.compare_eq_iff in E2 as <-. by rewrite E1.
  - by rewrite (compare_Lt_trans x y z).
Qed.

(** Whatever order the strings come in, [sort.Strings] leaves them in the
    same order. *)
Lemma sort_Strings_Permutation l l' :
  l ≡ₚ l' → sort_Strings l = sort_Strings l'.
Proof.
  intros H. apply (StronglySorted_unique lessEq).
  - apply StronglySorted_merge_sort; apply _.
  - apply StronglySorted_merge_sort; apply _.
  - unfold sort_Strings. by rewrite !merge_sort_Permutation.
Qed.

Lemma sort_Strings_sorted l :
  sort_Strings l ≡ₚ l ∧ StronglySorted lessEq (sort_Strings l).
Proof.
  split.
  - apply merge_sort_Permutation.
  - apply StronglySorted_merge_sort; apply _.
Qed.

End StringOrder.

Section FormatterFacts.

Context (flib : FormatLib).

(** The loop of [FormatHumanReadable] writes the sections one after the
    other, with the separator before every section but the first. *)
Lemma FormatHumanReadable_loop results urls out :
  (foldl (λ '(firstImage, out) imageURL,
            let result := lookupResult results imageURL in
            let out :=
              if negb firstImage
              then out +:+ nl +:+ Repeat "=" 80 +:+ nl
              else out in
            (false, out +:+ formatImage flib result))
         (false, out) urls).2
  = out +:+ foldr (λ imageURL rest,
                     nl +:+ Repeat "=" 80 +:+ nl
                       +:+ formatImage flib (lookupResult results imageURL)
                       +:+ rest)
              EmptyString urls.
Proof.
  revert out. induction urls as [|u urls IH]; intros out; simpl.
  - by rewrite append_empty_r.
  - rewrite IH. by rewrite !append_assoc.
Qed.

Lemma joinSections_cons s sections :
  joinSections (s :: sections)
  = s +:+ foldr (λ s' rest, nl +:+ Repeat "=" 80 +:+ nl +:+ s' +:+ rest)
            EmptyString sections.
Proof.
  revert s. induction sections as [|s' sections IH]; intros s.
  - simpl. by rewrite append_empty_r.
  - change (joinSections (s :: s' :: sections))
      with (s +:+ nl +:+ Repeat "=" 80 +:+ nl +:+ joinSections (s' :: sections)).
    by rewrite IH.
Qed.

Lemma FormatHumanReadable_sections order results :
  FormatHumanReadable flib order results
  = joinSections
      ((λ imageURL, formatImage flib (lookupResult results imageURL))
         <$> sort_Strings order).
Proof.
  unfold FormatHumanReadable.
  destruct (sort_Strings order) as [|u urls]; [done |].
  rewrite fmap_cons, joinSections_cons. simpl.
  rewrite FormatHumanReadable_loop. rewrite append_nil. f_equal.
  by rewrite foldr_fmap.
Qed.

End FormatterFacts.

(** X19.  The human-readable report does not depend on the order in which the
    map of results is iterated: it has one section for each key, in
    increasing order of the keys, with a separator between two sections. *)
Theorem human_report_is_sorted (flib : FormatLib) (order order' : list string)
    (results : gmap string ImageScanResult) :
  order' ≡ₚ order →
  FormatHumanReadable flib order' results
    = FormatHumanReadable flib order results
  ∧ ∃ urls,
      urls ≡ₚ order ∧ StronglySorted lessEq urls
      ∧ FormatHumanReadable flib order results
        = joinSections
            ((λ imageURL, formatImage flib (lookupResult results imageURL))
               <$> urls).
Proof.
  intros Hperm. split.
  - rewrite !FormatHumanReadable_sections.
    by rewrite (sort_Strings_Permutation order' order).
  - exists (sort_Strings order).
    destruct (sort_Strings_sorted order) as [H1 H2].
    split; [done |]. split; [done |]. apply FormatHumanReadable_sections.
Qed.

Lemma human_report_is_sorted_witness :
  FormatHumanReadable plainFormat (reverse pairBatch) (allResults healthyFinal)
    = FormatHumanReadable plainFormat pairBatch (allResults healthyFinal)
  ∧ ∃ urls,
      urls ≡ₚ pairBatch ∧ StronglySorted lessEq urls
      ∧ FormatHumanReadable plainFormat pairBatch (allResults healthyFinal)
        = joinSections
            ((λ imageURL,
                formatImage plainFormat
                  (lookupResult (allResults healthyFinal) imageURL))
               <$> urls).
Proof.
  apply (human_report_is_sorted plainFormat pairBatch (reverse pairBatch)
           (allResults healthyFinal)).
  apply reverse_Permutation.
Defined.

(** X20.  With flags that [parseFlagsAndConfig] accepts, [outputResults] knows
    the format: with [human] it writes the human-readable report and
    cannot fail, with [json] it writes what the encoder writes and fails
    only if the encoder does; its error for an unknown format cannot
    occur. *)
Theorem accepted_format_is_known (flib : FormatLib)
    (parsed cfg : Cli.Config) (getenv : string → string)
    (order : list string) (results : gmap string ImageScanResult) :
  Cli.parseFlagsAndConfig parsed getenv = (cfg, None) →
  (Cli.OutputFormat cfg = "human" →
     outputResults flib order results (Cli.OutputFormat cfg)
       = (FormatHumanReadable flib order results, None))
  ∧ (Cli.OutputFormat cfg = "json" →
       (outputResults flib order results (Cli.OutputFormat cfg)).1
         = (json_Encode flib results).1)
  ∧ (∀ e,
       (outputResults flib order results (Cli.OutputFormat cfg)).2 = Some e →
       Cli.OutputFormat cfg = "json"
       ∧ ∃ cause,
           (json_Encode flib results).2 = Some cause
           ∧ e = "formatting JSON output: failed to marshal results to JSON: "
                   +:+ cause).
Proof.
  intros (_ & Hfmt & _ & ->)%parseFlagsAndConfig_accepted. simpl.
  unfold outputResults, FormatJSON.
  destruct Hfmt as [->| ->]; simpl.
  - split_and!; [done | |].
    + intros _. by destruct (json_Encode flib results) as [out [e|]].
    + intros e. destruct (json_Encode flib results) as [out [cause|]]; simpl;
        [| done].
      intros [= <-]. split; [done |]. by exists cause.
  - by split_and!.
Qed.

Lemma accepted_format_is_known_witness :
  (Cli.OutputFormat envFlags = "human" →
     outputResults plainFormat pairBatch (allResults healthyFinal)
       (Cli.OutputFormat envFlags)
       = (FormatHumanReadable plainFormat pairBatch (allResults healthyFinal),
          None))
  ∧ (Cli.OutputFormat envFlags = "json" →
       (outputResults plainFormat pairBatch (allResults healthyFinal)
          (Cli.OutputFormat envFlags)).1
         = (json_Encode plainFormat (allResults healthyFinal)).1)
  ∧ (∀ e,
       (outputResults plainFormat pairBatch (allResults healthyFinal)
          (Cli.OutputFormat envFlags)).2 = Some e →
       Cli.OutputFormat envFlags = "json"
       ∧ ∃ cause,
           (json_Encode plainFormat (allResults healthyFinal)).2 = Some cause
           ∧ e = "formatting JSON output: failed to marshal results to JSON: "
                   +:+ cause).
Proof.
  apply (accepted_format_is_known plainFormat envFlags envFlags
           (λ _, EmptyString) pairBatch (allResults healthyFinal)).
  by vm_compute.
Defined.

(** ** Paths, log lines and the report of a run *)

Section Paths.

Lemma append_split a b l m :
  a +:+ b = l +:+ m →
  (∃ k, a = l +:+ k ∧ m = k +:+ b) ∨ (∃ k, l = a +:+ k ∧ b = k +:+ m).
Proof.
  revert l. induction a as [|x a IH]; intros l.
  - rewrite append_nil. intros ->. right. by exists l.
  - destruct l as [|y l].
    + rewrite append_nil. intros <-. left. by exists (String x a).
    + rewrite !append_cons. intros [= -> H].
      destruct (IH l H) as [(k & -> & ->)|(k & -> & ->)].
      * left. by exists k.
      * right. by exists k.
Qed.

(** Two dots in a row lie in one of two strings put together, or across
    the seam. *)
Lemma occurs_dots_app a b :
  occurs ".." (a +:+ b) →
  occurs ".." a ∨ occurs ".." b
  ∨ ((∃ a', a = a' +:+ ".") ∧ (∃ b', b = "." +:+ b')).
Proof.
  intros (l & r & H).
  apply append_split in H as [(k & -> & Hk)|(k & -> & ->)].
  - destruct k as [|x [|y k]]; rewrite ?append_cons, ?append_nil in Hk.
    + right. left. exists EmptyString, r. by rewrite <- Hk.
    + injection Hk as <- Hk. right. right. split; [by exists l |].
      exists r. by rewrite <- Hk.
    + injection Hk as <- <- Hk. left. by exists l, k.
  - right. left. by exists k, r.
Qed.

Lemma ends_with_dot a' s : s = a' +:+ "." → HasSuffix s "." = true.
Proof. intros ->. apply HasSuffix_app. Qed.

End Paths.

(** The check of [parseImageURL] on the characters looks for two literal
    dots and, in the tag, a slash, and for nothing else: percent-encoded
    dot segments and a query mark in the repository pass it. *)
Example parseImageURL_accepts_encoded_dots :
  parseImageURL "quay.io/ns/%2e%2e/%2e%2e/user:t"
    = ("ns/%2e%2e/%2e%2e/user", "t", None)
  ∧ parseImageURL "quay.io/ns/repo?x=:t" = ("ns/repo?x=", "t", None).
Proof. by vm_compute. Qed.

(** X21.  For a reference that [parseImageURL] accepts, the path string that
    [GetImageID] hands to [doRequest] holds no two dots in a row, given
    that escaping a tag adds none.  This is all the check on the characters
    gives: it is a fact about the text of the path, and a reference whose
    repository spells the dots [%2e%2e] or holds a [?] is accepted all the
    same, as [parseImageURL_accepts_encoded_dots] shows. *)
Theorem tag_lookup_path_has_no_dots (lib : GoLib) (c : Client lib)
    (imageURL repo tag : string) (remote : Remote) :
  (∀ s, ¬ occurs ".." s → ¬ occurs ".." (url_PathEscape lib s)) →
  parseImageURL imageURL = (repo, tag, None) →
  ¬ occurs ".." (tagPath lib repo tag)
  ∧ (GetImageID lib c repo tag remote).1
    = (doRequest lib (json_DecodeTagDetail lib) c "GET" (tagPath lib repo tag)
         remote).1.
Proof.
  intros Hesc Hparse. split; [| apply GetImageID_trace].
  destruct (parseImageURL_cases imageURL)
    as [[_ E]|[[_ E]|[(r & t & _ & _ & _ & _ & E)|(r & t & _ & _ & _ & Hok & E)]]];
    rewrite E in Hparse; simplify_eq.
  assert (Hrepo : ¬ occurs ".." repo) by (intros H; apply Hok; by left).
  assert (Htag : ¬ occurs ".." tag) by (intros H; apply Hok; right; by left).
  unfold tagPath.
  intros [H|[H|[[a' H] _]]]%occurs_dots_app.
  - revert H. by apply Contains_false.
  - apply occurs_dots_app in H as [H|[H|[_ [b' H]]]]; [done | | done].
    apply occurs_dots_app in H as [H|[H|[[a'' H] _]]].
    + revert H. by apply Contains_false.
    + by apply Hesc in H.
    + by apply ends_with_dot in H.
  - by apply ends_with_dot in H.
Qed.

Lemma tag_lookup_path_has_no_dots_witness :
  parseImageURL "quay.io/coreos/etcd:v3.5.0" = ("coreos/etcd", "v3.5.0", None)
  ∧ ¬ occurs ".." (tagPath sampleLib "coreos/etcd" "v3.5.0")
  ∧ (GetImageID sampleLib sampleClient "coreos/etcd" "v3.5.0" remote404).1
    = (doRequest sampleLib (json_DecodeTagDetail sampleLib) sampleClient "GET"
         (tagPath sampleLib "coreos/etcd" "v3.5.0") remote404).1.
Proof.
  split; [by vm_compute |].
  apply (tag_lookup_path_has_no_dots sampleLib sampleClient
           "quay.io/coreos/etcd:v3.5.0" "coreos/etcd" "v3.5.0" remote404).
  - intros s Hs. exact Hs.
  - by vm_compute.
Defined.

Section LogLines.

Context (lib : GoLib).
Implicit Types (c : Client lib) (remote : Remote).

Lemma doRequest_logs_nothing {T} (decode : string → string + T)
    c method path remote line :
  Logged line ∉ (doRequest lib decode c method path remote).1.
Proof.
  destruct (doRequest_cases lib decode c method path remote)
    as [[e E]|(req & full & _ & E)]; rewrite E; simpl.
  - apply not_elem_of_nil.
  - by intros [=]%list_elem_of_singleton.
Qed.

End LogLines.

(** X22.  The only line a task writes to the log is the warning about a report
    that is not scanned, and it writes it only for a report it then hands
    back without error. *)
Theorem warning_means_unscanned_report (lib : GoLib) (c : Client lib)
    (imageURL : string) (remote : Remote) (line : string) :
  Logged line ∈ (processImage lib imageURL c remote).1 →
  ∃ repo imageDigest report,
    Report (processImage lib imageURL c remote).2 = Some report
    ∧ Error (processImage lib imageURL c remote).2 = EmptyString
    ∧ Status report ≠ "scanned"
    ∧ line = warnNotScanned repo imageDigest (Status report).
Proof.
  rewrite processImage_unfold.
  destruct (parseImageURL imageURL) as [[repo tag] [cause|]]; simpl.
  { by intros ?%elem_of_nil. }
  pose proof (GetImageID_trace lib c repo tag remote) as Hid.
  destruct (GetImageID lib c repo tag remote) as [t1 [imageID [cause|]]];
    simpl in *; subst t1.
  { by intros ?%doRequest_logs_nothing. }
  destruct (isEmpty imageID); simpl.
  { by intros ?%doRequest_logs_nothing. }
  pose proof (GetVulnerabilities_trace lib c repo imageID remote) as Hv.
  pose proof (GetVulnerabilities_result lib c repo imageID remote) as Hr.
  simpl in Hv.
  destruct (GetVulnerabilities lib c repo imageID remote) as [t2 out].
  simpl in *. subst t2 out.
  assert (Hin : Logged line
            ∈ (doRequest lib (json_DecodeTagDetail lib) c "GET"
                 ("repository/" +:+ repo +:+ "/tag/" +:+ url_PathEscape lib tag)
                 remote).1
              ++ (doRequest lib (json_DecodeSecurityReport lib) c "GET"
                    ("repository/" +:+ repo +:+ "/image/" +:+ imageID
                       +:+ "/security?vulnerabilities=true") remote).1
              ++ match (doRequest lib (json_DecodeSecurityReport lib) c "GET"
                          ("repository/" +:+ repo +:+ "/image/" +:+ imageID
                             +:+ "/security?vulnerabilities=true") remote).2 with
                 | inr report =>
                     if negb (String.eqb (Status report) "scanned")
                     then [Logged (warnNotScanned repo imageID (Status report))]
                     else []
                 | inl _ => []
                 end →
          ∃ report,
            (doRequest lib (json_DecodeSecurityReport lib) c "GET"
               ("repository/" +:+ repo +:+ "/image/" +:+ imageID
                  +:+ "/security?vulnerabilities=true") remote).2 = inr report
            ∧ Status report ≠ "scanned"
            ∧ line = warnNotScanned repo imageID (Status report)).
  { intros [H|[H|H]%elem_of_app]%elem_of_app;
      try (by apply doRequest_logs_nothing in H).
    destruct (doRequest _ _ _ _ _ _).2 as [e|report];
      [by apply elem_of_nil in H |].
    destruct (String.eqb_spec (Status report) "scanned") as [E|E]; simpl in H;
      [by apply elem_of_nil in H |].
    apply list_elem_of_singleton in H as [= ->]. by exists report. }
  destruct (doRequest lib (json_DecodeSecurityReport lib) c "GET" _ remote).2
    as [e|report] eqn:E2.
  - destruct (Contains e _); simpl; intros (? & ? & _)%Hin; done.
  - simpl. intros (report' & [= <-] & Hs & ->)%Hin.
    by exists repo, imageID, report.
Qed.

Lemma warning_means_unscanned_report_witness :
  ∃ repo imageDigest report,
    Report (processImage sampleLib "quay.io/coreos/etcd:v3.5.0" sampleClient
              queuedRemote).2 = Some report
    ∧ Error (processImage sampleLib "quay.io/coreos/etcd:v3.5.0" sampleClient
               queuedRemote).2 = EmptyString
    ∧ Status report ≠ "scanned"
    ∧ warnNotScanned "coreos/etcd" "abc123" "queued"
      = warnNotScanned repo imageDigest (Status report).
Proof.
  apply (warning_means_unscanned_report sampleLib sampleClient
           "quay.io/coreos/etcd:v3.5.0" queuedRemote
           (warnNotScanned "coreos/etcd" "abc123" "queued")).
  vm_compute. do 3 constructor.
Defined.

Section ReportFacts.

Lemma append_inv_head s x y : s +:+ x = s +:+ y → x = y.
Proof.
  induction s as [|a s IH]; [by rewrite !append_nil |].
  rewrite !append_cons. intros [= H]. by apply IH.
Qed.

(** The error of a result of [processImage] is empty or opens with the
    name of the step that failed. *)
Lemma processImage_error_step lib (c : Client lib) imageURL remote :
  let e := Error (processImage lib imageURL c remote).2 in
  e = EmptyString
  ∨ ∃ rest,
      e = "Parsing URL failed: " +:+ rest
      ∨ e = "Getting image ID failed: " +:+ rest
      ∨ e = "Could not find image ID for tag '" +:+ rest
      ∨ e = "Getting vulnerabilities failed: " +:+ rest.
Proof.
  rewrite processImage_unfold.
  destruct (parseImageURL imageURL) as [[repo tag] [cause|]]; simpl.
  { right. exists cause. by left. }
  destruct (GetImageID lib c repo tag remote) as [t1 [imageID [cause|]]];
    simpl.
  { right. exists cause. right. by left. }
  destruct (isEmpty imageID); simpl.
  { right. eexists. right. right. by left. }
  destruct (GetVulnerabilities lib c repo imageID remote)
    as [t2 [report [cause|]]]; simpl.
  - right. exists cause. by repeat right.
  - by left.
Qed.

End ReportFacts.

(** X23.  In the human-readable report of a map that [runWorkerPool] returned,
    no section is the one for a result with neither error nor report:
    every result of the pool has one of the two. *)
Theorem report_has_no_internal_error (flib : FormatLib) (lib : GoLib)
    (quayClient : Client lib) (remotes : nat → Remote)
    (imageURLs : list string) (numWorkers : Z)
    (m : gmap string ImageScanResult) (u : string) (r : ImageScanResult) :
  returns lib quayClient remotes imageURLs numWorkers m →
  m !! u = Some r →
  formatImage flib r ≠ internalErrorSection r.
Proof.
  intros Hm Hr.
  pose proof (returns_builtFromBatch _ _ _ _ _ _ Hm) as Hb.
  destruct (builtFromBatch_entry _ _ _ _ _ _ _ Hb Hr) as (i & Hi & ->).
  unfold runTask. simpl.
  set (out := processImage lib u quayClient (remotes i)).
  pose proof (processImage_xor lib u quayClient (remotes i)) as Hx.
  pose proof (processImage_error_step lib quayClient u (remotes i)) as He.
  fold out in Hx, He. simpl in Hx, He.
  unfold formatImage, internalErrorSection, heading.
  rewrite !append_assoc.
  intros H. do 4 apply append_inv_head in H.
  destruct Hx as [[Hrep Herr]|[Hrep Herr]].
  - rewrite Herr in H. simpl in H.
    destruct (Report out.2) as [report|]; [| done]. discriminate H.
  - destruct He as [He|[rest He]]; [done |].
    destruct (isEmpty (Error out.2)) eqn:E;
      [by apply isEmpty_true in E |]. simpl in H.
    destruct He as [He|[He|[He|He]]]; rewrite He in H; discriminate H.
Qed.

Lemma report_has_no_internal_error_witness :
  allResults healthyFinal !! "quay.io/coreos/etcd:v3.5.0"
    = Some (lookupResult (allResults healthyFinal) "quay.io/coreos/etcd:v3.5.0")
  ∧ formatImage plainFormat
      (lookupResult (allResults healthyFinal) "quay.io/coreos/etcd:v3.5.0")
    ≠ internalErrorSection
        (lookupResult (allResults healthyFinal) "quay.io/coreos/etcd:v3.5.0").
Proof.
  split; [by vm_compute |].
  apply (report_has_no_internal_error plainFormat sampleLib sampleClient
           healthyRemotes pairBatch 2 (allResults healthyFinal)
           "quay.io/coreos/etcd:v3.5.0").
  - exists raceSchedule, healthyFinal.
    split; [by vm_compute |]. split; [by vm_compute | done].
  - by vm_compute.
Defined.
